(** * scikit-tracker: trajectory tables and the gap-closing solver

    A shallow embedding of
      - [sktracker/trajectories/trajectories.py] (class [Trajectories]) and
      - [sktracker/tracker/solver/gap_close_solver.py] (class [GapCloseSolver]).

    Modelling conventions.
      - A [Trajectories] object is a pandas [DataFrame]: named index levels,
        named columns and rows.  Following the data model of the
        specification (keys [(t_stamp, label)] are integers) the values of
        index levels are integers [Z]; payload cells are integers or reals
        (floats are idealised as rationals [Q]: the only arithmetic the
        modelled methods perform on them is a product with [-1] or with a
        scale factor).  The 64-bit width of pandas integers is not modelled.
      - A Python exception is a value of [exn]; a method that may raise
        returns a [result].  [NonIntegerKey] marks the border of the model:
        a real-valued cell moved into the index.
      - A method called on [self] returns the state of [self] after the call
        together with the Python return value, so that in-place mutation and
        copies are told apart.
      - numpy arrays are lists; indexing follows numpy (negative indices
        count from the end, out of range raises [IndexError]). *)

From stdpp Require Import gmap strings list sorting.
From Stdlib Require Import ZArith QArith Qround Lia.

Local Open Scope string_scope.
Local Open Scope Z_scope.

(** ** Exceptions and results *)

Inductive exn : Type :=
| IndexError
| KeyError (key : string)
| ValueError (mess : string) (args : list string)
| TypeError
| AttributeError
| NonIntegerKey.

Inductive result (A : Type) : Type :=
| Ok (a : A)
| Raise (e : exn).

Arguments Ok {A} a.
Arguments Raise {A} e.

#[global] Instance result_ret : MRet result := fun A a => Ok a.
#[global] Instance result_bind : MBind result := fun A B k m =>
  match m with
  | Ok a => k a
  | Raise e => Raise e
  end.

(** [try: ... except KeyError: raise KeyError(err)] *)
Definition except_KeyError {A : Type} (m : result A) (err : string) : result A :=
  match m with
  | Raise (KeyError _) => Raise (KeyError err)
  | _ => m
  end.

(** ** The table *)

Inductive cell : Type :=
| Int (z : Z)
| Float (q : Q).

Record row : Type := Row { ix : list Z; dat : list cell }.

Record Trajectories : Type := Trajs {
  index_names : list string;
  columns : list string;
  rows : list row;
  (* the attribute [old_indexes] that [set_level_label] attaches *)
  old_indexes : option (list string)
}.

Definition with_rows (T : Trajectories) (rs : list row) : Trajectories :=
  Trajs (index_names T) (columns T) rs (old_indexes T).

(** [Trajectories.copy]: a new object built from the frame's data; the
    Python attribute [old_indexes] is not carried over by
    [Trajectories(DataFrame.copy())]. *)
Definition copy (self : Trajectories) : Trajectories :=
  Trajs (index_names self) (columns self) (rows self) None.

(** Position of a name in a list of names ([list.index]). *)
Fixpoint index_of (name : string) (names : list string) : option nat :=
  match names with
  | [] => None
  | n :: names' =>
      if String.eqb n name then Some 0%nat
      else option_map S (index_of name names')
  end.

Definition mem (name : string) (names : list string) : bool :=
  match index_of name names with Some _ => true | None => false end.

(** [set(a).issubset(set(b))] *)
Definition issubset (a b : list string) : bool :=
  forallb (fun n => mem n b) a.

(** The elements of [set(l)], each name once. *)
Fixpoint set_of (l : list string) : list string :=
  match l with
  | [] => []
  | n :: l' => if mem n l' then set_of l' else n :: set_of l'
  end.

(** ** [Trajectories.check_trajs_df_structure] *)

Definition truthy {A : Type} (o : option (list A)) : bool :=
  match o with
  | Some (_ :: _) => true
  | _ => false
  end.

Definition mess_indexes : string :=
  "Trajectories does not contain correct indexes : {}".
Definition mess_columns : string :=
  "Trajectories does not contain correct columns : {}".

(** The argument of [error_mess.format] is kept next to the message: it
    is the list, or the set, of names that the text of the error shows. *)
Definition check_trajs_df_structure (self : Trajectories)
    (index columns_ : option (list string)) : result unit :=
  if truthy index && negb (bool_decide (Some (index_names self) = index)) then
    Raise (ValueError mess_indexes (default [] index))
  else if truthy columns_ then
    let cols := set_of (default [] columns_) in
    if negb (issubset cols (set_of (columns self))) then
      Raise (ValueError mess_columns cols)
    else Ok tt
  else Ok tt.

(** ** pandas primitives used by the methods

    A frame has one index value per level and one cell per column in each
    row; [wf] states it.  Lookups inside a row use a default that a
    well-formed frame never reaches. *)

Definition wf (T : Trajectories) : bool :=
  forallb (fun r => (length (ix r) =? length (index_names T))%nat
                    && (length (dat r) =? length (columns T))%nat) (rows T).

Definition position (name : string) (names : list string) : result nat :=
  match index_of name names with
  | Some p => Ok p
  | None => Raise (KeyError name)
  end.

(** [self.index.get_level_values(name).values] *)
Definition get_level_values (T : Trajectories) (name : string) : result (list Z) :=
  p ← position name (index_names T);
  Ok (map (fun r => nth p (ix r) 0) (rows T)).

(** [self[name].values] *)
Definition get_column (T : Trajectories) (name : string) : result (list cell) :=
  p ← position name (columns T);
  Ok (map (fun r => nth p (dat r) (Int 0)) (rows T)).

Definition mess_length : string :=
  "Length of values does not match length of index".

(** [trajs[name] = values]: an existing column is overwritten, a new one
    is added after the last column. *)
Definition set_column (T : Trajectories) (name : string) (values : list cell)
  : result Trajectories :=
  if negb (length values =? length (rows T))%nat then
    Raise (ValueError mess_length [])
  else
    match index_of name (columns T) with
    | Some p =>
        Ok (with_rows T
              (zip_with (fun r v => Row (ix r) (<[p := v]> (dat r))) (rows T) values))
    | None =>
        Ok (Trajs (index_names T) (columns T ++ [name])
              (zip_with (fun r v => Row (ix r) (dat r ++ [v])) (rows T) values)
              (old_indexes T))
    end.

(** [trajs[name] = trajs[name] * k] and the like: a column rewritten
    cell by cell. *)
Definition map_column (T : Trajectories) (name : string) (f : cell -> cell)
  : result Trajectories :=
  p ← position name (columns T);
  Ok (with_rows T (map (fun r => Row (ix r) (alter f p (dat r))) (rows T))).

Definition as_key (c : cell) : result Z :=
  match c with
  | Int z => Ok z
  | Float _ => Raise NonIntegerKey
  end.

Fixpoint mapM {A B : Type} (f : A -> result B) (l : list A) : result (list B) :=
  match l with
  | [] => Ok []
  | a :: l' => b ← f a; bs ← mapM f l'; Ok (b :: bs)
  end.

(** [trajs.set_index(name, append=True, inplace=True)]: the column
    becomes the last index level. *)
Definition set_index_append (T : Trajectories) (name : string)
  : result Trajectories :=
  p ← position name (columns T);
  rs ← mapM (fun r => k ← as_key (nth p (dat r) (Int 0));
                      Ok (Row (ix r ++ [k]) (delete p (dat r)))) (rows T);
  Ok (Trajs (index_names T ++ [name]) (delete p (columns T)) rs (old_indexes T)).

(** [trajs.reset_index(level, drop=True, inplace=True)] *)
Definition drop_level (T : Trajectories) (level : string) : result Trajectories :=
  p ← position level (index_names T);
  Ok (Trajs (delete p (index_names T)) (columns T)
        (map (fun r => Row (delete p (ix r)) (dat r)) (rows T))
        (old_indexes T)).

Definition mess_insert : string := "cannot insert {}, already exists".

(** [trajs.reset_index(level, inplace=True)] for one level: the level
    becomes the first column. *)
Definition reset_level (T : Trajectories) (level : string) : result Trajectories :=
  p ← position level (index_names T);
  if mem level (columns T) then Raise (ValueError mess_insert [level])
  else
    Ok (Trajs (delete p (index_names T)) (level :: columns T)
          (map (fun r => Row (delete p (ix r)) (Int (nth p (ix r) 0) :: dat r))
               (rows T))
          (old_indexes T)).

(** [trajs.reset_index(levels, inplace=True)]: pandas inserts the levels
    from the last to the first, each at the front of the columns. *)
Fixpoint reset_levels (T : Trajectories) (levels : list string)
  : result Trajectories :=
  match levels with
  | [] => Ok T
  | l :: levels' => T' ← reset_levels T levels'; reset_level T' l
  end.

(** [trajs.reset_index(inplace=True)] *)
Definition reset_index (T : Trajectories) : result Trajectories :=
  reset_levels T (index_names T).

(** [trajs.set_index(names, inplace=True)]: the former index is dropped,
    the named columns become the index levels, in the order given. *)
Definition set_index (T : Trajectories) (names : list string)
  : result Trajectories :=
  let T0 := Trajs [] (columns T) (map (fun r => Row [] (dat r)) (rows T))
              (old_indexes T) in
  foldl (fun acc name => T' ← acc; set_index_append T' name) (Ok T0) names.

(** [trajs.index.set_names(names, inplace=True)] *)
Definition mess_names : string :=
  "Length of new names must match number of levels in MultiIndex.".

Definition set_names (T : Trajectories) (names : list string)
  : result Trajectories :=
  if negb (length names =? length (index_names T))%nat then
    Raise (ValueError mess_names [])
  else Ok (Trajs names (columns T) (rows T) (old_indexes T)).

(** *** Sorting

    [sort_index] and [sort] are modelled as a stable sort: rows with the
    same key keep their relative order. *)

Section Sort.
Context {A : Type} (leb : A -> A -> bool).

Fixpoint insert_sorted (x : A) (l : list A) : list A :=
  match l with
  | [] => [x]
  | y :: l' => if leb x y then x :: l else y :: insert_sorted x l'
  end.

Fixpoint sort_by (l : list A) : list A :=
  match l with
  | [] => []
  | x :: l' => insert_sorted x (sort_by l')
  end.
End Sort.

(** Order of index tuples. *)
Fixpoint lex_leb (a b : list Z) : bool :=
  match a, b with
  | [], _ => true
  | _ :: _, [] => false
  | x :: a', y :: b' => (x <? y) || ((x =? y) && lex_leb a' b')
  end.

(** [trajs.sort_index(inplace=True)] *)
Definition sort_index (T : Trajectories) : Trajectories :=
  with_rows T (sort_by (fun r1 r2 => lex_leb (ix r1) (ix r2)) (rows T)).

Definition cell_Q (c : cell) : Q :=
  match c with
  | Int z => inject_Z z
  | Float q => q
  end.

Definition cell_leb (a b : cell) : bool := Qle_bool (cell_Q a) (cell_Q b).

(** [trajs.sort(name, inplace=True)] *)
Definition sort (T : Trajectories) (name : string) : result Trajectories :=
  p ← position name (columns T);
  Ok (with_rows T
        (sort_by (fun r1 r2 => cell_leb (nth p (dat r1) (Int 0))
                                        (nth p (dat r2) (Int 0))) (rows T))).

(** [values.unique()]: the distinct values in order of first appearance. *)
Fixpoint unique (l : list Z) : list Z :=
  match l with
  | [] => []
  | x :: l' => x :: List.filter (fun y => negb (y =? x)) (unique l')
  end.

(** ** Methods of [Trajectories] *)

(** What a method hands back: [None], the object [self] itself, or a
    new object. *)
Inductive retval : Type :=
| RetNone
| RetSelf
| RetNew (T : Trajectories).

(** The property [labels]. *)
Definition labels (self : Trajectories) : result (list Z) :=
  if mem "label" (columns self) then
    cs ← get_column self "label";
    ls ← mapM as_key cs;
    Ok (unique ls)
  else
    ls ← get_level_values self "label";
    Ok (unique ls).

(** The property [segment_idxs], [self.groupby(level='label').groups]:
    for each label, in ascending order of the labels, the index tuples of
    its rows in the order of the table. *)
Definition segment_idxs (self : Trajectories) : result (list (Z * list (list Z))) :=
  p ← position "label" (index_names self);
  let keys := sort_by Z.leb (unique (map (fun r => nth p (ix r) 0) (rows self))) in
  Ok (map (fun l =>
             (l, map ix (List.filter (fun r => nth p (ix r) 0 =? l) (rows self))))
          keys).

(** [astype(np.uint16)] and assignment into a [uint16] array *)
Definition uint16 (z : Z) : Z := z mod 65536.

(** [a[old == uv] = n] *)
Definition mask_assign (old : list Z) (uv n : Z) (a : list Z) : list Z :=
  zip_with (fun o x => if o =? uv then n else x) old a.

(** [for n, uv in enumerate(uvs): nu_lbls[old_lbls == uv] = n] *)
Fixpoint renumber_loop (old : list Z) (n : nat) (uvs : list Z) (nu : list Z)
  : list Z :=
  match uvs with
  | [] => nu
  | uv :: uvs' =>
      renumber_loop old (S n) uvs' (mask_assign old uv (uint16 (Z.of_nat n)) nu)
  end.

(** [nu_lbls] of [relabel_fromzero] *)
Definition renumber (old_lbls : list Z) : list Z :=
  renumber_loop old_lbls 0 (unique old_lbls) (map uint16 old_lbls).

Definition relabel_fromzero (self : Trajectories) (level : string)
    (inplace : bool) : result (Trajectories * retval) :=
  let trajs := if negb inplace then copy self else self in
  old_lbls ← get_level_values self level;
  let nu_lbls := renumber old_lbls in
  trajs ← set_column trajs "new_label" (map Int nu_lbls);
  trajs ← set_index_append trajs "new_label";
  trajs ← drop_level trajs level;
  trajs ← set_names trajs ["t_stamp"; "label"];
  if inplace then Ok (trajs, RetNone) else Ok (self, RetNew trajs).

Definition relabel_fromzero_default_inplace : bool := false.

(* the message of the source, with its inner double quotes written as
   single ones *)
Definition err_new_label : string :=
  "Column 'new_label' was not found in `trajs` and none was provided".

Definition relabel (self : Trajectories) (new_labels : option (list Z))
    (inplace : bool) : result (Trajectories * retval) :=
  let trajs := if negb inplace then copy self else self in
  trajs ← match new_labels with
           | Some nl => set_column trajs "new_label" (map Int nl)
           | None => Ok trajs
           end;
  trajs ← except_KeyError (set_index_append trajs "new_label") err_new_label;
  trajs ← drop_level trajs "label";
  trajs ← set_names trajs ["t_stamp"; "label"];
  let trajs := sort_index trajs in
  '(trajs', ret) ← relabel_fromzero trajs "label" inplace;
  (* [trajs] is [self] exactly when [inplace] *)
  if inplace then Ok (trajs', ret) else Ok (self, ret).

Definition relabel_default_inplace : bool := true.

(** [l.remove(x)] *)
Fixpoint list_remove (x : string) (l : list string) : result (list string) :=
  match l with
  | [] => Raise (ValueError "list.remove(x): x not in list" [x])
  | y :: l' => if String.eqb y x then Ok l'
               else l'' ← list_remove x l'; Ok (y :: l'')
  end.

Definition set_level_label (self : Trajectories) (inplace : bool)
  : result (Trajectories * retval) :=
  let trajs := if inplace then self else copy self in
  trajs ← (if negb (mem "label" (columns self)) then
             (* log.error(...) *)
             Ok trajs
           else
             olds ← list_remove "t_stamp" (index_names trajs);
             let trajs := Trajs (index_names trajs) (columns trajs) (rows trajs)
                            (Some olds) in
             trajs ← reset_levels trajs olds;
             set_index_append trajs "label");
  if inplace then Ok (trajs, RetNone) else Ok (self, RetNew trajs).

Definition set_level_label_default_inplace : bool := true.

(** Product of two numbers: integer when both are. *)
Definition cell_mul (a b : cell) : cell :=
  match a, b with
  | Int x, Int y => Int (x * y)
  | _, _ => Float (cell_Q a * cell_Q b)
  end.

(** [for factor, coord in zip(factors, coords):
       trajs[coord] = trajs[coord] * factor] *)
Fixpoint scale_loop (trajs : Trajectories) (fcs : list (cell * string))
  : result Trajectories :=
  match fcs with
  | [] => Ok trajs
  | (factor, coord) :: fcs' =>
      trajs ← map_column trajs coord (fun c => cell_mul c factor);
      scale_loop trajs fcs'
  end.

Definition mess_scale : string :=
  "Arguments factors and coords must be of same length".

Definition scale (self : Trajectories) (factors : list cell)
    (coords : list string) (inplace : bool) : result (Trajectories * retval) :=
  if negb (length factors =? length coords)%nat then
    Raise (ValueError mess_scale [])
  else
    let trajs := if inplace then self else copy self in
    trajs ← scale_loop trajs (zip factors coords);
    if inplace then Ok (trajs, RetSelf) else Ok (self, RetNew trajs).

Definition scale_default_inplace : bool := false.

Definition reverse (self : Trajectories) (time_column : string)
    (inplace : bool) : result (Trajectories * retval) :=
  let trajs := if inplace then self else copy self in
  trajs ← reset_index trajs;
  trajs ← map_column trajs "t_stamp" (fun c => cell_mul c (Int (-1)));
  trajs ← map_column trajs time_column (fun c => cell_mul c (Int (-1)));
  trajs ← sort trajs "t_stamp";
  trajs ← set_index trajs ["t_stamp"; "label"];
  if inplace then Ok (trajs, RetNone) else Ok (self, RetNew trajs).

Definition reverse_default_inplace : bool := false.
Definition reverse_default_time_column : string := "t".

(** *** Calls that may leave the keyword [inplace] out *)

Definition relabel_call (self : Trajectories) (new_labels : option (list Z))
    (inplace : option bool) : result (Trajectories * retval) :=
  relabel self new_labels (default relabel_default_inplace inplace).

Definition set_level_label_call (self : Trajectories) (inplace : option bool)
  : result (Trajectories * retval) :=
  set_level_label self (default set_level_label_default_inplace inplace).

Definition scale_call (self : Trajectories) (factors : list cell)
    (coords : list string) (inplace : option bool)
  : result (Trajectories * retval) :=
  scale self factors coords (default scale_default_inplace inplace).

(** ** numpy arrays *)

(** [a[i]] *)
Definition np_get {A : Type} (a : list A) (i : Z) : result A :=
  let n := Z.of_nat (length a) in
  let j := if i <? 0 then n + i else i in
  if (0 <=? j) && (j <? n) then
    match a !! Z.to_nat j with
    | Some x => Ok x
    | None => Raise IndexError
    end
  else Raise IndexError.

(** [a[i] = x] *)
Definition np_set {A : Type} (a : list A) (i : Z) (x : A) : result (list A) :=
  let n := Z.of_nat (length a) in
  let j := if i <? 0 then n + i else i in
  if (0 <=? j) && (j <? n) then Ok (<[Z.to_nat j := x]> a)
  else Raise IndexError.

(** [a.max()] *)
Definition np_max (a : list Z) : result Z :=
  match a with
  | [] => Raise (ValueError "zero-size array to reduction operation maximum" [])
  | x :: a' => Ok (foldl Z.max x a')
  end.

(** [np.array(pairs)[:, 0]] and [[:, 1]]: an empty list makes a
    one-dimensional array, which has no second axis. *)
Definition np_columns (pairs : list (Z * Z)) : result (list Z * list Z) :=
  match pairs with
  | [] => Raise IndexError
  | _ => Ok (map fst pairs, map snd pairs)
  end.

(** [np.argwhere(m)] for a two-dimensional boolean array: the positions
    of the true entries, row by row. *)
Fixpoint where_from (j : nat) (r : list bool) : list nat :=
  match r with
  | [] => []
  | b :: r' => (if b then [j] else []) ++ where_from (S j) r'
  end.

Fixpoint argwhere_from (i : nat) (m : list (list bool)) : list (Z * Z) :=
  match m with
  | [] => []
  | r :: m' =>
      map (fun j => (Z.of_nat i, Z.of_nat j)) (where_from 0 r)
      ++ argwhere_from (S i) m'
  end.

Definition np_argwhere (m : list (list bool)) : list (Z * Z) :=
  argwhere_from 0 m.

(** ** Cost functions, blocks and the cost matrix

    The modules [matrices] and [cost_function] are collaborators of the
    solver: what a cost function computes, how a block is filled and how
    the assignment problem is solved are parameters of the model. *)

Inductive cost : Type :=
| Finite (q : Q)
| NaN
| Inf.

Definition matrix : Type := list (list cost).

Inductive ctxval : Type :=
| CtxTrajs (T : Trajectories)
| CtxIdxs (idxs : list (Z * Z))
| CtxCost (c : cost).

Inductive cf_kind : Type := LinkCost | DiagCost.

Record CostFunction : Type := CF {
  kind : cf_kind;
  context : gmap string ctxval
}.

(** [cf.context[key] = v] *)
Definition set_context (cf : CostFunction) (key : string) (v : ctxval)
  : CostFunction :=
  CF (kind cf) (<[key := v]> (context cf)).

(** A solved [CostMatrix]: what [get_shapes()] returns and the attribute
    [out_links]. *)
Record CostMatrix : Type := CM {
  blocks : list (list (option matrix));
  row_shapes : list Z;
  col_shapes : list Z;
  out_links : list Z
}.

(** [np.ma.masked_invalid(mat).compressed()]: the finite entries, row by
    row. *)
Definition compressed (mat : matrix) : list Q :=
  omap (fun c => match c with Finite q => Some q | _ => None end) (concat mat).

(** [np.meshgrid(x, y)] *)
Definition np_meshgrid (x y : list Z) : list (list Z) * list (list Z) :=
  (map (fun _ => x) y, map (fun yi => map (fun _ => yi) x) y).

(** [a[idx]] for a two-dimensional array of indices *)
Definition np_take2 (a : list Z) (idx : list (list Z)) : result (list (list Z)) :=
  mapM (mapM (np_get a)) idx.

(** [a[:k]] *)
Definition np_slice_to {A : Type} (a : list A) (k : Z) : list A :=
  take (Z.to_nat (if k <? 0 then Z.of_nat (length a) + k else k)) a.

(** ** [GapCloseSolver] *)

(** The calls to the collaborators, in the order in which they are made. *)
Inductive call : Type :=
| NewLinkBlock (cf : CostFunction)
| NewDiagBlock (cf : CostFunction)
| NewCostMatrix
| Solve.

Record GapCloseSolver : Type := GCS {
  trajs : Trajectories;
  coords : list string;
  link_cf : CostFunction;
  birth_cf : CostFunction;
  death_cf : CostFunction;
  maximum_gap : Z;
  link_block : option matrix;
  birth_block : option matrix;
  death_block : option matrix;
  cm : option CostMatrix;
  calls : list call
}.

(** Modelled from the spec: [AbstractSolver.__init__] (solver/__init__.py
    is missing), "own the trajectory table": it stores the table in
    [self.trajs]. *)
Definition AbstractSolver_init (trajs : Trajectories) : Trajectories := trajs.

(** Modelled from the spec: [AbstractSolver.check_cost_function_type]
    (solver/__init__.py is missing), "asserts a supplied cost function
    exposes the required capability (link vs. diagonal) and fails fast
    with a configuration error otherwise". *)
Definition check_cost_function_type (cf : CostFunction) (k : cf_kind)
  : result unit :=
  match kind cf, k with
  | LinkCost, LinkCost | DiagCost, DiagCost => Ok tt
  | _, _ => Raise TypeError
  end.

(** [d[key]] *)
Definition dict_get {V : Type} (d : gmap string V) (key : string) : result V :=
  match d !! key with
  | Some v => Ok v
  | None => Raise (KeyError key)
  end.

Definition default_coords : list string := ["x"; "y"; "z"].

Definition GapCloseSolver_init (trajs : Trajectories)
    (cost_functions : gmap string CostFunction) (maximum_gap : Z)
    (coords : list string) : result GapCloseSolver :=
  let self_trajs := AbstractSolver_init trajs in
  _ ← check_trajs_df_structure self_trajs
        (Some ["t_stamp"; "label"]) (Some ("t" :: coords));
  link_cf ← dict_get cost_functions "link";
  _ ← check_cost_function_type link_cf LinkCost;
  birth_cf ← dict_get cost_functions "birth";
  _ ← check_cost_function_type birth_cf DiagCost;
  death_cf ← dict_get cost_functions "death";
  _ ← check_cost_function_type death_cf DiagCost;
  Ok (GCS self_trajs coords link_cf birth_cf death_cf maximum_gap
        None None None None []).

Definition bound_of (idxs : list (list Z)) : Z * Z :=
  (hd 0 (hd [] idxs), hd 0 (List.last idxs [])).

Definition _get_candidates (self : GapCloseSolver)
  : result (list (Z * Z) * list (Z * Z)) :=
  let max_gap := maximum_gap self in
  labels ← labels (trajs self);
  segs ← segment_idxs (trajs self);
  let bounds := map (fun s => bound_of (snd s)) segs in
  '(start_times, stop_times) ← np_columns bounds;
  let '(ss_in, ss_out) := np_meshgrid labels labels in
  starts ← np_take2 start_times ss_out;
  stops ← np_take2 stop_times ss_in;
  let gaps_size := zip_with (zip_with Z.sub) starts stops in
  let matches :=
    np_argwhere (map (map (fun g => (0 <? g) && (g <? max_gap))) gaps_size) in
  if (length matches =? 0)%nat then Ok ([], [])
  else
    let matches_in := map fst matches in
    let matches_out := map snd matches in
    in_times ← mapM (np_get start_times) matches_in;
    in_lbls ← mapM (np_get labels) matches_in;
    out_times ← mapM (np_get start_times) matches_out;
    out_lbls ← mapM (np_get labels) matches_out;
    Ok (zip in_times in_lbls, zip out_times out_lbls).

(** [for idx_out, idx_in in enumerate(links): ...] of [assign] *)
Fixpoint assign_loop (last_in_link : Z) (idx_out : Z) (links : list Z)
    (unique_new : list Z) : result (list Z) :=
  match links with
  | [] => Ok unique_new
  | idx_in :: links' =>
      unique_new ←
        (if idx_in >=? last_in_link then
           (* no merge *)
           m ← np_max unique_new;
           np_set unique_new idx_out (m + 1)
         else
           (* do merge *)
           new_label ← np_get unique_new idx_in;
           np_set unique_new idx_out new_label);
      assign_loop last_in_link (idx_out + 1) links' unique_new
  end.

(** [for old, new in zip(unique_old, unique_new):
       new_labels[old_labels == old] = new] *)
Definition replace_labels (old_labels : list Z) (pairs : list (Z * Z))
    (new_labels : list Z) : list Z :=
  foldl (fun nl p => mask_assign old_labels (fst p) (snd p) nl) new_labels pairs.

(** Modelled from the spec: [AbstractSolver.relabel_trajs]
    (solver/__init__.py is missing), the "shared relabeling" that
    "rewrites every record's label key to the corresponding entry of a
    caller-supplied array aligned one-to-one with the existing row order":
    it hands the array to [Trajectories.relabel] of the solver's table. *)
Definition relabel_trajs (self : GapCloseSolver) (new_labels : list Z)
  : result GapCloseSolver :=
  '(trajs', _) ← relabel (trajs self) (Some new_labels) relabel_default_inplace;
  Ok (GCS trajs' (coords self) (link_cf self) (birth_cf self) (death_cf self)
        (maximum_gap self) (link_block self) (birth_block self)
        (death_block self) (cm self) (calls self)).

(** The new labels that [assign] computes. *)
Definition assign_labels (self : GapCloseSolver) : result (list Z) :=
  cm ← match cm self with Some c => Ok c | None => Raise AttributeError end;
  old_labels ← get_level_values (trajs self) "label";
  let new_labels := old_labels in
  unique_old ← labels (trajs self);
  let unique_new := unique_old in
  last_in_link ← np_get (row_shapes cm) 0;
  last_out_link ← np_get (col_shapes cm) 0;
  unique_new ← assign_loop last_in_link 0
                 (np_slice_to (out_links cm) last_out_link) unique_new;
  Ok (replace_labels old_labels (zip unique_old unique_new) new_labels).

Definition assign (self : GapCloseSolver)
  : result (GapCloseSolver * Trajectories) :=
  new_labels ← assign_labels self;
  self ← relabel_trajs self new_labels;
  Ok (self, trajs self).

(** [self] once [track] has filled the context of the link cost function:
    [self.link_cf.context['trajs'] = self.trajs] and so on. *)
Definition with_link_context (self : GapCloseSolver)
    (idxs_in idxs_out : list (Z * Z)) : GapCloseSolver :=
  GCS (trajs self) (coords self)
    (set_context
       (set_context
          (set_context (link_cf self) "trajs" (CtxTrajs (trajs self)))
          "idxs_in" (CtxIdxs idxs_in))
       "idxs_out" (CtxIdxs idxs_out))
    (birth_cf self) (death_cf self) (maximum_gap self) (link_block self)
    (birth_block self) (death_block self) (cm self) (calls self).

Section Track.
(** [LinkBlock(rows, cols, cf).mat], [DiagBlock(keys, cf).mat],
    [CostMatrix(blocks)] after [solve()], and [np.percentile]. *)
Variable LinkBlock : list Z -> list Z -> CostFunction -> matrix.
Variable DiagBlock : list Z -> CostFunction -> matrix.
Variable solve : list (list (option matrix)) -> CostMatrix.
Variable np_percentile : list Q -> Z -> cost.

(** The property [blocks_structure]. *)
Definition blocks_structure (self : GapCloseSolver)
  : result (list (list (option matrix))) :=
  match link_block self, death_block self, birth_block self with
  | Some l, Some d, Some b => Ok [[Some l; Some d]; [Some b; None]]
  | _, _, _ => Raise AttributeError
  end.

(** [track], from the statement after the early return to the call of
    [self.cm.solve()]. *)
Definition track_solve (self : GapCloseSolver) (labels : list Z)
  : result GapCloseSolver :=
  old_labels ← get_level_values (trajs self) "label";
  trajs' ← set_column (trajs self) "new_label"
             (map (fun z => Float (inject_Z z)) old_labels);
  let link_block' := LinkBlock labels labels (link_cf self) in
  let calls1 := (calls self ++ [NewLinkBlock (link_cf self)])%list in
  let percentile := 99 in
  let link_costs := compressed link_block' in
  let cost := np_percentile link_costs percentile in
  let birth_cf' := set_context (birth_cf self) "cost" (CtxCost cost) in
  let death_cf' := set_context (death_cf self) "cost" (CtxCost cost) in
  let birth_block' := DiagBlock labels birth_cf' in
  let calls2 := (calls1 ++ [NewDiagBlock birth_cf'])%list in
  let death_block' := DiagBlock labels death_cf' in
  let calls3 := (calls2 ++ [NewDiagBlock death_cf'])%list in
  let self := GCS trajs' (coords self) (link_cf self) birth_cf' death_cf'
                (maximum_gap self) (Some link_block') (Some birth_block')
                (Some death_block') (cm self) calls3 in
  bs ← blocks_structure self;
  let cm' := solve bs in
  Ok (GCS (trajs self) (coords self) (link_cf self) (birth_cf self)
        (death_cf self) (maximum_gap self) (link_block self)
        (birth_block self) (death_block self) (Some cm')
        (calls self ++ [NewCostMatrix; Solve])%list).

Definition track (self : GapCloseSolver)
  : result (GapCloseSolver * Trajectories) :=
  labels ← labels (trajs self);
  '(idxs_in, idxs_out) ← _get_candidates self;
  let self := with_link_context self idxs_in idxs_out in
  if (length idxs_in =? 0)%nat then
    (* log.info('No gap needs closing here...') *)
    Ok (self, trajs self)
  else
    self ← track_solve self labels;
    assign self.
End Track.

(** ** Further methods of [Trajectories] *)

(** The class method [empty_trajs]: a table without records that has the
    index levels [t_stamp] and [label] and the columns asked for. *)
Definition Trajectories_empty_trajs (columns_ : list string) : Trajectories :=
  Trajs ["t_stamp"; "label"] columns_ [] None.

Definition empty_trajs_default_columns : list string := ["x"; "y"; "z"].

(** The property [t_stamps]. *)
Definition t_stamps (self : Trajectories) : result (list Z) :=
  ts ← get_level_values self "t_stamp";
  Ok (unique ts).

(** [self.loc[idxs]] for a list of index tuples: for each tuple, in the
    order of the list, the rows that carry it. *)
Definition loc (T : Trajectories) (idxs : list (list Z)) : result Trajectories :=
  rs ← mapM (fun k =>
               match List.filter (fun r => bool_decide (ix r = k)) (rows T) with
               | [] => Raise (KeyError "index tuple")
               | found => Ok found
               end) idxs;
  Ok (Trajs (index_names T) (columns T) (concat rs) None).

(** The property [iter_segments], with the pairs it yields in a list. *)
Definition iter_segments (self : Trajectories)
  : result (list (Z * Trajectories)) :=
  segs ← segment_idxs self;
  mapM (fun s => seg ← loc self (snd s); Ok (fst s, seg)) segs.

(** [get_segments]: the dictionary, as the list of its items. *)
Definition get_segments (self : Trajectories)
  : result (list (Z * Trajectories)) :=
  iter_segments self.

(** What [self.loc[key, column]] selects: one cell when a single row
    carries the key, a series of cells otherwise. *)
Inductive selection : Type :=
| Scalar (c : cell)
| Series (cs : list cell).

Definition loc_at (T : Trajectories) (key : list Z) (column : string)
  : result selection :=
  p ← position column (columns T);
  match List.filter (fun r => bool_decide (ix r = key)) (rows T) with
  | [] => Raise (KeyError "index tuple")
  | [r] => Ok (Scalar (nth p (dat r) (Int 0)))
  | found => Ok (Series (map (fun r => nth p (dat r) (Int 0)) found))
  end.

(** [if column:] for a string or [None] *)
Definition truthy_name (column : option string) : bool :=
  match column with
  | Some (String _ _) => true
  | _ => false
  end.

(** [get_bounds]: the dictionary, as the list of its items. *)
Definition get_bounds (self : Trajectories) (column : option string)
  : result (list (Z * (selection * selection))) :=
  all_segs ← segment_idxs self;
  if truthy_name column then
    mapM (fun s =>
            first ← loc_at self (hd [] (snd s)) (default EmptyString column);
            last_ ← loc_at self (List.last (snd s) []) (default EmptyString column);
            Ok (fst s, (first, last_))) all_segs
  else
    Ok (map (fun s => (fst s, (Scalar (Int (fst (bound_of (snd s)))),
                               Scalar (Int (snd (bound_of (snd s)))))))
            all_segs).

(** [l[i:]] *)
Definition slice_from {A : Type} (l : list A) (i : Z) : list A :=
  drop (Z.to_nat (if i <? 0 then Z.of_nat (length l) + i else i)) l.

(** [key=lambda x: len(x[1])] *)
Definition by_length (x y : Z * list (list Z)) : bool :=
  (length (snd x) <=? length (snd y))%nat.

(** [get_longest_segments] and [get_shortest_segments]: [sorted] is
    stable, and the keys of the dictionary are listed in the order in which
    the items were inserted. *)
Definition get_longest_segments (self : Trajectories) (n : Z)
  : result (list Z) :=
  idxs ← segment_idxs self;
  Ok (map fst (slice_from (sort_by by_length idxs) (- n))).

Definition get_shortest_segments (self : Trajectories) (n : Z)
  : result (list Z) :=
  idxs ← segment_idxs self;
  Ok (map fst (np_slice_to (sort_by by_length idxs) n)).

(** [trajs.loc[mask, name] = v] for a boolean mask over the rows and a
    column that exists. *)
Definition mask_set_column (T : Trajectories) (name : string)
    (mask : list bool) (v : cell) : result Trajectories :=
  p ← position name (columns T);
  Ok (with_rows T
        (zip_with (fun r (b : bool) =>
                     if b then Row (ix r) (<[p := v]> (dat r)) else r)
                  (rows T) mask)).

(** [trajs.drop(name, axis=1, inplace=True)] *)
Definition drop_column (T : Trajectories) (name : string) : result Trajectories :=
  p ← position name (columns T);
  Ok (Trajs (index_names T) (delete p (columns T))
        (map (fun r => Row (ix r) (delete p (dat r))) (rows T))
        (old_indexes T)).

(** [trajs.rename(columns={old: new}, inplace=True)] *)
Definition rename_column (T : Trajectories) (old new : string) : Trajectories :=
  Trajs (index_names T)
    (map (fun c => if String.eqb c old then new else c) (columns T))
    (rows T) (old_indexes T).

(** The end of [merge_segments] and of [cut_segments]: the column
    [new_label] takes the place of the index level [label]. *)
Definition new_label_to_level (trajs : Trajectories) : result Trajectories :=
  trajs ← reset_level trajs "label";
  trajs ← drop_column trajs "label";
  let trajs := rename_column trajs "new_label" "label" in
  trajs ← set_index_append trajs "label";
  Ok (sort_index trajs).

Definition cut_segments (self : Trajectories) (spot : Z * Z) (inplace : bool)
  : result (Trajectories * retval) :=
  let trajs := if inplace then self else copy self in
  let trajs := sort_index trajs in
  let '(t_stamp, label) := spot in
  lbls ← get_level_values trajs "label";
  m ← np_max lbls;
  let new_label := m + 1 in
  trajs ← set_column trajs "new_label" (map Int lbls);
  ts ← get_level_values trajs "t_stamp";
  ls ← get_level_values trajs "label";
  let idxs := zip_with (fun t l => (t >? t_stamp) && (l =? label)) ts ls in
  trajs ← mask_set_column trajs "new_label" idxs (Int new_label);
  trajs ← new_label_to_level trajs;
  if inplace then Ok (trajs, RetNone) else Ok (self, RetNew trajs).

Definition cut_segments_default_inplace : bool := false.

(** [trajs.loc[idx[:, label], name] = v]: the rows whose second index
    level holds [label]; a label that the level does not hold is a
    [KeyError]. *)
Definition loc_set_second_level (T : Trajectories) (label : Z) (name : string)
    (v : cell) : result Trajectories :=
  if existsb (fun r => nth 1 (ix r) 0 =? label) (rows T)
     && (2 <=? length (index_names T))%nat then
    mask_set_column T name (map (fun r => nth 1 (ix r) 0 =? label) (rows T)) v
  else Raise (KeyError "label").

(** [for label in labels: trajs.loc[idx[:, label], 'new_label'] = new_label] *)
Fixpoint merge_loop (trajs : Trajectories) (labels : list Z) (new_label : Z)
  : result Trajectories :=
  match labels with
  | [] => Ok trajs
  | label :: labels' =>
      trajs ← loc_set_second_level trajs label "new_label" (Int new_label);
      merge_loop trajs labels' new_label
  end.

(** A row of the frame taken as a series ([x.iloc[0]]): the cells get a
    common type, real as soon as one of them is. *)
Definition is_float (c : cell) : bool :=
  match c with
  | Float _ => true
  | Int _ => false
  end.

Definition as_series (cs : list cell) : list cell :=
  if existsb is_float cs then map (fun c => Float (cell_Q c)) cs else cs.

(** The first row of each group of rows with the same key, in the order
    of the table. *)
Fixpoint firsts (key : row -> list Z) (rs : list row) : list row :=
  match rs with
  | [] => []
  | r :: rs' =>
      r :: List.filter (fun r' => negb (bool_decide (key r' = key r)))
             (firsts key rs')
  end.

(** [Trajectories(trajs.groupby(level=levels).apply(lambda x: x.iloc[0]))]:
    one row per group, indexed by the key of the group, the groups in
    ascending order of their keys. *)
Definition groupby_first (T : Trajectories) (levels : list string)
  : result Trajectories :=
  ps ← mapM (fun n => position n (index_names T)) levels;
  let key := fun r => map (fun p => nth p (ix r) 0) ps in
  Ok (Trajs levels (columns T)
        (sort_by (fun r1 r2 => lex_leb (ix r1) (ix r2))
           (map (fun r => Row (key r) (as_series (dat r)))
                (firsts key (rows T))))
        None).

(** [labels[1:]] *)
Definition list_tail {A : Type} (l : list A) : list A := drop 1 l.

Definition merge_segments (self : Trajectories) (labels : list Z)
    (inplace : bool) : result (Trajectories * retval) :=
  let trajs := if inplace then self else copy self in
  new_label ← np_get labels 0;
  let trajs := sort_index trajs in
  lbls ← get_level_values trajs "label";
  trajs ← set_column trajs "new_label" (map Int lbls);
  trajs ← merge_loop trajs (list_tail labels) new_label;
  trajs ← new_label_to_level trajs;
  (* Remove duplicate spots from the same t_stamp: the name [trajs] is
     bound to a new object, [self] is not touched any more *)
  trajs' ← groupby_first trajs ["t_stamp"; "label"];
  if inplace then Ok (trajs, RetNone) else Ok (self, RetNew trajs').

Definition merge_segments_default_inplace : bool := false.

(** [trajs[name] == v] *)
Definition cell_eqb (c : cell) (v : Z) : bool :=
  Qeq_bool (cell_Q c) (inject_Z v).

Definition duplicate_segments (self : Trajectories) (label : Z)
  : result (Trajectories * retval) :=
  let trajs := copy self in
  ls ← labels trajs;
  m ← np_max ls;
  let new_label := m + 1 in
  let names := index_names trajs in
  trajs ← reset_index trajs;
  p ← position "label" (columns trajs);
  let new_segment :=
    with_rows trajs
      (List.filter (fun r => cell_eqb (nth p (dat r) (Int 0)) label)
                   (rows trajs)) in
  new_segment ← map_column new_segment "label" (fun _ => Int new_label);
  let trajs := with_rows trajs (rows trajs ++ rows new_segment)%list in
  trajs ← set_index trajs names;
  let trajs := sort_index trajs in
  Ok (self, RetNew trajs).

(** [trajs.set_index(cols, append=True, inplace=True)] for a list of
    columns *)
Fixpoint set_index_append_all (T : Trajectories) (cols : list string)
  : result Trajectories :=
  match cols with
  | [] => Ok T
  | c :: cols' => T' ← set_index_append T c; set_index_append_all T' cols'
  end.

(** [hasattr(self, 'old_indexes')] *)
Definition has_old_indexes (T : Trajectories) : bool :=
  match old_indexes T with
  | Some _ => true
  | None => false
  end.

Definition unset_level_label (self : Trajectories) (cols : list string)
    (inplace : bool) : result (Trajectories * retval) :=
  let trajs := if inplace then self else copy self in
  if (length cols =? 0)%nat && negb (has_old_indexes self) then
    (* log.error(...) *)
    Ok (self, RetNone)
  else
    let cols := if (length cols =? 0)%nat then default [] (old_indexes self)
                else cols in
    trajs ← reset_level trajs "label";
    trajs ← set_index_append_all trajs cols;
    if inplace then Ok (trajs, RetNone) else Ok (self, RetNew trajs).

Definition unset_level_label_default_inplace : bool := true.

(** ** Segments and candidate pairs, in the words of the specification

    A record has the key [(t_stamp, label)]; the segment of a label is
    the sub-sequence of the records that carry it; it starts at the frame
    of its first record and stops at the frame of its last one.  A pair
    [(out, in)] of segments is a candidate when
    [0 < start_time(in) - stop_time(out) < maximum_gap]. *)

Definition t_stamp_of (r : row) : Z := nth 0 (ix r) 0.
Definition label_of (r : row) : Z := nth 1 (ix r) 0.

Definition segment (T : Trajectories) (l : Z) : list row :=
  List.filter (fun r => label_of r =? l) (rows T).

Definition start_time (T : Trajectories) (l : Z) : Z :=
  hd 0 (map t_stamp_of (segment T l)).

Definition stop_time (T : Trajectories) (l : Z) : Z :=
  List.last (map t_stamp_of (segment T l)) 0.

Definition is_candidate (T : Trajectories) (max_gap : Z) (out in_ : Z) : bool :=
  let gap := start_time T in_ - stop_time T out in
  (0 <? gap) && (gap <? max_gap).

(** The candidate pairs [(out, in)] among the labels [ls], listed by in
    segment and then by out segment. *)
Definition candidate_pairs (T : Trajectories) (max_gap : Z) (ls : list Z)
  : list (Z * Z) :=
  flat_map (fun i =>
              flat_map (fun o => if is_candidate T max_gap o i
                                 then [(o, i)] else []) ls) ls.

(** The order of the frames, and a table sorted by frame. *)
Definition key_leb {A : Type} (key : A -> Z) (x y : A) : bool :=
  key x <=? key y.

Definition t_stamp_leb : row -> row -> bool := key_leb t_stamp_of.


(** A record written out as a record of a table indexed by
    [(t_stamp, label)]. *)
Definition keyed (r : row) : row := Row [t_stamp_of r; label_of r] (dat r).

(** A record with its frame and the cell at position [p] multiplied by
    [-1]; the label and the other cells are those of [r]. *)
Definition negate_time (p : nat) (r : row) : row :=
  Row [t_stamp_of r * -1; label_of r]
      (alter (fun c => cell_mul c (Int (-1))) p (dat r)).

(** The keys of a table, and the keys with their labels replaced. *)
Definition keys (T : Trajectories) : list (list Z) := map ix (rows T).

Definition with_labels (ks : list (list Z)) (ls : list Z) : list (list Z) :=
  zip_with (fun k l => [nth 0 k 0; l]) ks ls.

(** The keys after [relabel_fromzero] and after [relabel], computed on
    keys: the labels are renumbered; [relabel] first sets the new labels
    and sorts the keys. *)
Definition fromzero_keys (ks : list (list Z)) : list (list Z) :=
  with_labels ks (renumber (map (fun k => nth 1 k 0) ks)).

Definition relabel_keys (ks : list (list Z)) (new_labels : list Z)
  : list (list Z) :=
  fromzero_keys (sort_by lex_leb (with_labels ks new_labels)).

(** The position of the label [v] among the distinct labels [u]. *)
Fixpoint rank (u : list Z) (v : Z) : nat :=
  match u with
  | [] => 0
  | x :: u' => if x =? v then 0 else S (rank u' v)
  end.

(** Every row has one cell per column. *)
Definition wf_dat (T : Trajectories) : Prop :=
  Forall (fun r => length (dat r) = length (columns T)) (rows T).

Definition swap (p : Z * Z) : Z * Z := (snd p, fst p).

(** The labels [0, ..., n-1]. *)
Definition arange (n : nat) : list Z := map Z.of_nat (seq 0 n).

(** ** Tables and solvers used in the examples *)

Definition required_index : list string := ["t_stamp"; "label"].

(** A spot of label [l] in frame [t], with columns [t], [x], [y], [z]. *)
Definition spot (t l : Z) : row :=
  Row [t; l] [Float (inject_Z t); Float 0; Float 0; Float 0].

Definition txyz : list string := ["t"; "x"; "y"; "z"].

(** Two segments: label 0 in frames 0 to 2 and label 1 in frames 5 to 7. *)
Definition two_segments : Trajectories :=
  Trajs required_index txyz
    [spot 0 0; spot 1 0; spot 2 0; spot 5 1; spot 6 1; spot 7 1] None.

(** The same spots in a frame indexed by the frame number alone. *)
Definition no_label_level : Trajectories :=
  Trajs ["t_stamp"] txyz
    [Row [0] (dat (spot 0 0)); Row [1] (dat (spot 1 0))] None.

(** The same frame without its column [z]. *)
Definition no_z_column : Trajectories :=
  Trajs required_index ["t"; "x"; "y"]
    [Row [0; 0] [Float 0; Float 0; Float 0];
     Row [1; 0] [Float 1; Float 0; Float 0]] None.

Definition link_cf0 : CostFunction := CF LinkCost ∅.
Definition diag_cf0 : CostFunction := CF DiagCost ∅.

Definition cost_functions0 : gmap string CostFunction :=
  <["link" := link_cf0]> (<["birth" := diag_cf0]> (<["death" := diag_cf0]> ∅)).

(** A table with a valid index and no record. *)
Definition empty_trajs : Trajectories := Trajs required_index txyz [] None.

Definition solver_of (T : Trajectories) (max_gap : Z) : GapCloseSolver :=
  GCS T default_coords link_cf0 diag_cf0 diag_cf0 max_gap
    None None None None [].

(** *** Collaborators for the examples *)

(** A link block whose cost is read off the two labels. *)
Definition LinkBlock0 (rs cs : list Z) (_ : CostFunction) : matrix :=
  map (fun r => map (fun c => Finite (inject_Z (1 + r + 2 * c))) cs) rs.

(** A diagonal block that reads the cost in the context of its cost
    function. *)
Definition DiagBlock0 (keys : list Z) (cf : CostFunction) : matrix :=
  let c := match context cf !! "cost" with
           | Some (CtxCost c) => c
           | _ => NaN
           end in
  imap (fun i _ => imap (fun j _ => if (i =? j)%nat then c else NaN) keys) keys.

(** A solved matrix for two segments: column 0 takes its alternative,
    column 1 is linked to row 0. *)
Definition solve0 (bs : list (list (option matrix))) : CostMatrix :=
  CM bs [2; 2] [2; 2] [2; 0; 1; 3].

(** [np.percentile] with linear interpolation, on rationals. *)
Definition percentile_linear (a : list Q) (p : Z) : cost :=
  match sort_by Qle_bool a with
  | [] => NaN
  | (x :: _) as sorted =>
      let pos := (inject_Z p / 100) * inject_Z (Z.of_nat (length a) - 1) in
      let lo := Qfloor pos in
      let frac := pos - inject_Z lo in
      let v_lo := nth (Z.to_nat lo) sorted x in
      let v_hi := nth (Z.to_nat (lo + 1)) sorted v_lo in
      Finite (Qred (v_lo + frac * (v_hi - v_lo)))
  end%Q.

(** A frame in which [label] is a column. *)
Definition label_column : Trajectories :=
  Trajs ["t_stamp"] ["label"; "x"]
    [Row [0] [Int 0; Float 0]; Row [1] [Int 0; Float 1]] None.


(** Three segments: label 0 in frames 0 to 2, label 1 in frames 5 to 7 and
    label 2 in frames 6 to 8. *)
Definition three_segments : Trajectories :=
  Trajs required_index txyz
    [spot 0 0; spot 1 0; spot 2 0; spot 5 1; spot 6 1; spot 6 2; spot 7 1;
     spot 7 2; spot 8 2] None.


(** The two segments of [two_segments] under the labels 1 and 2. *)
Definition labels_from_one : Trajectories :=
  Trajs required_index txyz
    [spot 0 1; spot 1 1; spot 2 1; spot 5 2; spot 6 2; spot 7 2] None.

(** Two segments that share the frames 0 and 1, and a solved matrix that
    links column 1 to row 0. *)
Definition overlapping : Trajectories :=
  Trajs required_index txyz [spot 0 0; spot 0 1; spot 1 0; spot 1 1] None.


(** ** Tables written out, for the statements about whole tables *)

(** The record [r] under the label [l]. *)
Definition relabelled (r : row) (l : Z) : row := Row [t_stamp_of r; l] (dat r).

(** The table indexed by [(t_stamp, label)] whose records are those of
    [T], each with the label that [ls] gives it. *)
Definition set_labels (T : Trajectories) (ls : list Z) : Trajectories :=
  Trajs required_index (columns T) (zip_with relabelled (rows T) ls)
    (old_indexes T).

(** The table without its first column called [name], if it has one. *)
Definition without_column (name : string) (T : Trajectories) : Trajectories :=
  match index_of name (columns T) with
  | Some p =>
      Trajs (index_names T) (delete p (columns T))
        (map (fun r => Row (ix r) (delete p (dat r))) (rows T)) (old_indexes T)
  | None => T
  end.

(** The order of the index tuples, on rows. *)
Definition ix_leb (r1 r2 : row) : bool := lex_leb (ix r1) (ix r2).



(** The record [r] with one more cell, the label [nlab r] in the column
    [new_label]. *)
Definition with_new_label (nlab : row -> Z) (r : row) : row :=
  Row (ix r) (dat r ++ [Int (nlab r)]).

(** The label of the record [r] after a cut at the spot
    [(t_stamp, label)], and the record after the cut. *)
Definition cut_label (t_stamp label new_label : Z) (r : row) : Z :=
  if (t_stamp_of r >? t_stamp) && (label_of r =? label) then new_label
  else label_of r.

Definition cut_row (t_stamp label new_label : Z) (r : row) : row :=
  relabelled r (cut_label t_stamp label new_label r).

(** The label of the record [r] once the labels [ls] are merged into
    [new_label]. *)
Definition merged_label (ls : list Z) (new_label : Z) (r : row) : Z :=
  if bool_decide (label_of r ∈ ls) then new_label else label_of r.

(** The integer in a cell. *)
Definition cell_Z (c : cell) : Z :=
  match c with
  | Int z => z
  | Float _ => 0
  end.

(** A frame indexed by [(t_stamp, id)] in which [label] is the first
    column. *)
Definition label_first : Trajectories :=
  Trajs ["t_stamp"; "id"] ["label"; "x"]
    [Row [0; 10] [Int 0; Float 0]; Row [1; 11] [Int 0; Float 1];
     Row [1; 12] [Int 1; Float 2]] None.

(** * Properties *)

Local Open Scope list_scope.

(** ** Names and sets of names *)

Lemma mem_true (n : string) (l : list string) : mem n l = true ↔ n ∈ l.
Proof.
  unfold mem. induction l as [|m l IH]; simpl.
  - split; [discriminate | intros H; inversion H].
  - destruct (String.eqb_spec m n) as [->|Hne].
    + split; [intros _; left | done].
    + destruct (index_of n l); simpl in *.
      * split; [intros _; right; by apply IH | done].
      * split; [discriminate |].
        intros H. apply elem_of_cons in H as [->|H]; [done | by apply IH].
Qed.

Lemma mem_false (n : string) (l : list string) : mem n l = false ↔ n ∉ l.
Proof.
  rewrite <- mem_true. by destruct (mem n l).
Qed.

Lemma elem_of_set_of (n : string) (l : list string) : n ∈ set_of l ↔ n ∈ l.
Proof.
  induction l as [|m l IH]; simpl; [done |].
  destruct (mem m l) eqn:Hm.
  - rewrite IH. apply mem_true in Hm. split; [by right |].
    intros H. apply elem_of_cons in H as [->|H]; done.
  - rewrite !elem_of_cons, IH. done.
Qed.

Lemma issubset_true (a b : list string) :
  issubset a b = true ↔ ∀ n, n ∈ a → n ∈ b.
Proof.
  unfold issubset. rewrite forallb_forall. split.
  - intros H n Hn. apply mem_true, H. by apply list_elem_of_In.
  - intros H n Hn. apply mem_true, H. by apply list_elem_of_In.
Qed.

Lemma issubset_sets (a b : list string) :
  issubset (set_of a) (set_of b) = true ↔ ∀ n, n ∈ a → n ∈ b.
Proof.
  rewrite issubset_true. split; intros H n Hn.
  - apply elem_of_set_of, H, elem_of_set_of, Hn.
  - apply elem_of_set_of, H, elem_of_set_of, Hn.
Qed.

(** ** Structure check at construction *)

Lemma check_index_differs (T : Trajectories) (cols : option (list string)) :
  index_names T ≠ required_index →
  check_trajs_df_structure T (Some required_index) cols
  = Raise (ValueError mess_indexes required_index).
Proof.
  intros Hne. unfold check_trajs_df_structure. simpl truthy.
  rewrite bool_decide_eq_false_2; [done |].
  intros [= H]. by apply Hne.
Qed.

Lemma check_column_missing (T : Trajectories) (cols : list string) :
  index_names T = required_index →
  (∃ c, c ∈ cols ∧ c ∉ columns T) →
  check_trajs_df_structure T (Some required_index) (Some cols)
  = Raise (ValueError mess_columns (set_of cols)).
Proof.
  intros Hix (c & Hc & Hmiss). unfold check_trajs_df_structure. simpl truthy.
  rewrite bool_decide_eq_true_2 by (by rewrite Hix). simpl.
  destruct cols as [|c0 cols']; [inversion Hc |].
  destruct (issubset _ _) eqn:Hsub; [| done].
  exfalso. apply Hmiss. by apply (proj1 (issubset_sets _ _) Hsub).
Qed.

Lemma check_contract_ok (T : Trajectories) (cols : list string) :
  index_names T = required_index →
  (∀ c, c ∈ cols → c ∈ columns T) →
  check_trajs_df_structure T (Some required_index) (Some cols) = Ok tt.
Proof.
  intros Hix Hall. unfold check_trajs_df_structure. simpl truthy.
  rewrite bool_decide_eq_true_2 by (by rewrite Hix). simpl.
  destruct cols as [|c0 cols']; [done |].
  by rewrite (proj2 (issubset_sets _ _) Hall).
Qed.

(** C7.  A table whose index names are not [['t_stamp', 'label']], or
    that lacks one of the columns ['t'] + coords, makes the construction
    of the solver raise [ValueError]: no solver exists on which [track]
    could run.  The error shows the required index names, respectively
    the set of required columns, hence every name that is missing.  On a
    table that satisfies the contract the check raises nothing. *)
Theorem C7_structure_error_at_construction
    (T : Trajectories) (cfs : gmap string CostFunction) (max_gap : Z)
    (coords : list string) :
  (index_names T ≠ required_index →
     ∃ names,
       GapCloseSolver_init T cfs max_gap coords
       = Raise (ValueError mess_indexes names)
       ∧ ∀ n, n ∈ required_index → n ∉ index_names T → n ∈ names)
  ∧ (index_names T = required_index →
     (∃ c, c ∈ "t" :: coords ∧ c ∉ columns T) →
     ∃ names,
       GapCloseSolver_init T cfs max_gap coords
       = Raise (ValueError mess_columns names)
       ∧ ∀ c, c ∈ "t" :: coords → c ∉ columns T → c ∈ names)
  ∧ (index_names T = required_index →
     (∀ c, c ∈ "t" :: coords → c ∈ columns T) →
     check_trajs_df_structure T (Some required_index) (Some ("t" :: coords))
     = Ok tt).
Proof.
  split; [| split].
  - intros Hne. exists required_index. split; [| done].
    unfold GapCloseSolver_init, AbstractSolver_init.
    change ["t_stamp"; "label"] with required_index.
    by rewrite (check_index_differs T _ Hne).
  - intros Hix Hmiss. exists (set_of ("t" :: coords)). split.
    + unfold GapCloseSolver_init, AbstractSolver_init.
      change ["t_stamp"; "label"] with required_index.
      by rewrite (check_column_missing T _ Hix Hmiss).
    + intros c Hc _. by apply elem_of_set_of.
  - apply check_contract_ok.
Qed.

Lemma C7_witness :
  (∃ names,
     GapCloseSolver_init no_label_level cost_functions0 5 default_coords
     = Raise (ValueError mess_indexes names)
     ∧ ∀ n, n ∈ required_index → n ∉ index_names no_label_level → n ∈ names)
  ∧ (∃ names,
       GapCloseSolver_init no_z_column cost_functions0 5 default_coords
       = Raise (ValueError mess_columns names)
       ∧ ∀ c, c ∈ "t" :: default_coords → c ∉ columns no_z_column → c ∈ names)
  ∧ check_trajs_df_structure two_segments (Some required_index)
      (Some ("t" :: default_coords)) = Ok tt.
Proof.
  split; [| split].
  - apply (proj1 (C7_structure_error_at_construction
                    no_label_level cost_functions0 5 default_coords)).
    discriminate.
  - apply (proj1 (proj2 (C7_structure_error_at_construction
                           no_z_column cost_functions0 5 default_coords))).
    + reflexivity.
    + exists "z". split; [set_solver |].
      apply mem_false. reflexivity.
  - apply (proj2 (proj2 (C7_structure_error_at_construction
                           two_segments cost_functions0 5 default_coords))).
    + reflexivity.
    + intros c Hc. apply mem_true.
      repeat (apply elem_of_cons in Hc as [->|Hc]; [reflexivity |]).
      inversion Hc.
Defined.

(** ** [track]: the early return and the alternative cost *)

Section TrackProperties.
Variable LinkBlock : list Z -> list Z -> CostFunction -> matrix.
Variable DiagBlock : list Z -> CostFunction -> matrix.
Variable solve : list (list (option matrix)) -> CostMatrix.
Variable np_percentile : list Q -> Z -> cost.

Local Abbreviation track := (track LinkBlock DiagBlock solve np_percentile).
Local Abbreviation track_solve :=
  (track_solve LinkBlock DiagBlock solve np_percentile).

Lemma candidates_labels (self : GapCloseSolver) r :
  _get_candidates self = Ok r → ∃ ls, labels (trajs self) = Ok ls.
Proof.
  unfold _get_candidates. destruct (labels (trajs self)) as [ls|e]; [eauto | done].
Qed.

Lemma candidates_level (self : GapCloseSolver) r :
  _get_candidates self = Ok r →
  ∃ p, index_of "label" (index_names (trajs self)) = Some p.
Proof.
  unfold _get_candidates, segment_idxs, position.
  destruct (labels (trajs self)) as [ls|e]; [simpl | done].
  destruct (index_of "label" (index_names (trajs self))); [eauto | done].
Qed.

Lemma track_no_candidates (self : GapCloseSolver) (idxs_out : list (Z * Z)) :
  _get_candidates self = Ok ([], idxs_out) →
  track self = Ok (with_link_context self [] idxs_out, trajs self).
Proof.
  intros H. destruct (candidates_labels _ _ H) as [ls Hls].
  unfold track. rewrite Hls. simpl. rewrite H. reflexivity.
Qed.

Lemma track_candidates (self : GapCloseSolver) (ls : list Z)
    (i : Z * Z) (idxs_in idxs_out : list (Z * Z)) :
  labels (trajs self) = Ok ls →
  _get_candidates self = Ok (i :: idxs_in, idxs_out) →
  track self
  = (track_solve (with_link_context self (i :: idxs_in) idxs_out) ls
       ≫= assign).
Proof.
  intros Hls H. unfold track. rewrite Hls. simpl. rewrite H. reflexivity.
Qed.

Lemma get_level_values_length (T : Trajectories) (name : string) vs :
  get_level_values T name = Ok vs → length vs = length (rows T).
Proof.
  unfold get_level_values, position.
  destruct (index_of name (index_names T)); [| done].
  simpl. intros [= <-]. by rewrite length_map.
Qed.

Lemma set_column_ok (T : Trajectories) (name : string) (vs : list cell) :
  length vs = length (rows T) → ∃ T', set_column T name vs = Ok T'.
Proof.
  intros Hlen. unfold set_column. rewrite Hlen, Nat.eqb_refl. simpl.
  destruct (index_of name (columns T)); eauto.
Qed.

Lemma track_solve_ok (self : GapCloseSolver) (ls : list Z) (p : nat) :
  index_of "label" (index_names (trajs self)) = Some p →
  ∃ T',
    track_solve self ls
    = Ok (let M := LinkBlock ls ls (link_cf self) in
          let c := np_percentile (compressed M) 99 in
          let b := set_context (birth_cf self) "cost" (CtxCost c) in
          let d := set_context (death_cf self) "cost" (CtxCost c) in
          GCS T' (coords self) (link_cf self) b d (maximum_gap self)
            (Some M) (Some (DiagBlock ls b)) (Some (DiagBlock ls d))
            (Some (solve [[Some M; Some (DiagBlock ls d)];
                          [Some (DiagBlock ls b); None]]))
            (calls self ++ [NewLinkBlock (link_cf self); NewDiagBlock b;
                            NewDiagBlock d; NewCostMatrix; Solve])).
Proof.
  intros Hp. unfold track_solve.
  destruct (get_level_values (trajs self) "label") as [olds|e] eqn:Holds.
  2:{ unfold get_level_values, position in Holds. by rewrite Hp in Holds. }
  simpl.
  destruct (set_column_ok (trajs self) "new_label"
              (map (fun z => Float (inject_Z z)) olds)) as [T' HT'].
  { rewrite length_map. by apply get_level_values_length in Holds. }
  rewrite HT'. simpl. exists T'. by rewrite <- !app_assoc.
Qed.

(** C3 (amended).  When [_get_candidates] finds at least one pair,
    [track] computes the alternative cost as the 99th percentile (the
    constant [percentile = 99] of the method) of the finite entries of
    the LINK block; that one value is stored under ['cost'] in the
    contexts of the birth and of the death cost function, and the two
    DIAG blocks are built afterwards from these cost functions. *)
Theorem C3_alternative_cost (self : GapCloseSolver) (i : Z * Z)
    (idxs_in idxs_out : list (Z * Z)) :
  _get_candidates self = Ok (i :: idxs_in, idxs_out) →
  ∃ ls s1,
    let s0 := with_link_context self (i :: idxs_in) idxs_out in
    let M := LinkBlock ls ls (link_cf s0) in
    let c := np_percentile (compressed M) 99 in
    labels (trajs self) = Ok ls
    ∧ track_solve s0 ls = Ok s1
    ∧ track self = assign s1
    ∧ link_block s1 = Some M
    ∧ birth_cf s1 = set_context (birth_cf self) "cost" (CtxCost c)
    ∧ death_cf s1 = set_context (death_cf self) "cost" (CtxCost c)
    ∧ context (birth_cf s1) !! "cost" = Some (CtxCost c)
    ∧ context (death_cf s1) !! "cost" = Some (CtxCost c)
    ∧ birth_block s1 = Some (DiagBlock ls (birth_cf s1))
    ∧ death_block s1 = Some (DiagBlock ls (death_cf s1))
    ∧ calls s1 = (calls self ++ [NewLinkBlock (link_cf s0);
                                 NewDiagBlock (birth_cf s1);
                                 NewDiagBlock (death_cf s1);
                                 NewCostMatrix; Solve])%list.
Proof.
  intros H.
  destruct (candidates_labels _ _ H) as [ls Hls].
  destruct (candidates_level _ _ H) as [p Hp].
  destruct (track_solve_ok (with_link_context self (i :: idxs_in) idxs_out)
              ls p Hp) as [T' HT'].
  eexists ls, _. cbv zeta. split; [done |]. split; [exact HT' |].
  split.
  { rewrite (track_candidates _ _ _ _ _ Hls H), HT'. reflexivity. }
  simpl. repeat split; try reflexivity; apply lookup_insert_eq.
Qed.

(** C4.  When [_get_candidates] finds no pair, [track] returns the
    table of the solver as it is: no column is added, no label is
    changed, and neither a block nor a cost matrix is built. *)
Theorem C4_no_candidates_noop (self : GapCloseSolver)
    (idxs_out : list (Z * Z)) :
  _get_candidates self = Ok ([], idxs_out) →
  ∃ self',
    track self = Ok (self', trajs self)
    ∧ trajs self' = trajs self
    ∧ calls self' = calls self
    ∧ link_block self' = link_block self
    ∧ birth_block self' = birth_block self
    ∧ death_block self' = death_block self
    ∧ cm self' = cm self.
Proof.
  intros H. exists (with_link_context self [] idxs_out).
  split; [by apply track_no_candidates | done].
Qed.

(** C8 (the code on the empty table).  The empty table with a valid
    index passes the construction of the solver, and [track] raises
    [IndexError] on it: [_get_candidates] takes a column of the empty,
    one-dimensional, array of segment bounds. *)
Theorem C8_empty_table_raises (max_gap : Z) :
  GapCloseSolver_init empty_trajs cost_functions0 max_gap default_coords
  = Ok (solver_of empty_trajs max_gap)
  ∧ _get_candidates (solver_of empty_trajs max_gap) = Raise IndexError
  ∧ track (solver_of empty_trajs max_gap) = Raise IndexError.
Proof. repeat split; reflexivity. Qed.
End TrackProperties.

Lemma C3_witness :
  ∃ ls s1,
    let s0 := with_link_context (solver_of two_segments 5) [(5, 1)] [(0, 0)] in
    let M := LinkBlock0 ls ls (link_cf s0) in
    let c := percentile_linear (compressed M) 99 in
    labels (trajs (solver_of two_segments 5)) = Ok ls
    ∧ track_solve LinkBlock0 DiagBlock0 solve0 percentile_linear s0 ls = Ok s1
    ∧ track LinkBlock0 DiagBlock0 solve0 percentile_linear
        (solver_of two_segments 5) = assign s1
    ∧ link_block s1 = Some M
    ∧ birth_cf s1
      = set_context (birth_cf (solver_of two_segments 5)) "cost" (CtxCost c)
    ∧ death_cf s1
      = set_context (death_cf (solver_of two_segments 5)) "cost" (CtxCost c)
    ∧ context (birth_cf s1) !! "cost" = Some (CtxCost c)
    ∧ context (death_cf s1) !! "cost" = Some (CtxCost c)
    ∧ birth_block s1 = Some (DiagBlock0 ls (birth_cf s1))
    ∧ death_block s1 = Some (DiagBlock0 ls (death_cf s1))
    ∧ calls s1 = (calls (solver_of two_segments 5)
                  ++ [NewLinkBlock (link_cf s0); NewDiagBlock (birth_cf s1);
                      NewDiagBlock (death_cf s1); NewCostMatrix; Solve])%list.
Proof.
  apply (C3_alternative_cost LinkBlock0 DiagBlock0 solve0 percentile_linear
           (solver_of two_segments 5) (5, 1) [] [(0, 0)]).
  reflexivity.
Defined.

(** C3 as stated fails: the percentile is not an option of the solver.
    Over the table [two_segments], whatever the cost functions, their
    contexts, the coordinates and the maximal gap of the solver, the cost
    stored for the birth cost function is never the 50th percentile of
    the link costs. *)
Lemma C3_percentile_not_configurable :
  ¬ ∃ self s1,
      trajs self = two_segments
      ∧ track_solve LinkBlock0 DiagBlock0 solve0 percentile_linear self [0; 1]
        = Ok s1
      ∧ context (birth_cf s1) !! "cost"
        = Some (CtxCost (percentile_linear
                           (compressed (LinkBlock0 [0; 1] [0; 1] (link_cf self)))
                           50)).
Proof.
  intros (self & s1 & HT & Hs1 & Hc).
  destruct (track_solve_ok LinkBlock0 DiagBlock0 solve0 percentile_linear
              self [0; 1] 1%nat) as [T' HT'].
  { by rewrite HT. }
  rewrite HT' in Hs1. injection Hs1 as <-.
  simpl in Hc. rewrite lookup_insert_eq in Hc.
  vm_compute in Hc. discriminate.
Qed.

Lemma C4_witness :
  ∃ self',
    track LinkBlock0 DiagBlock0 solve0 percentile_linear
      (solver_of two_segments 2)
    = Ok (self', trajs (solver_of two_segments 2))
    ∧ trajs self' = trajs (solver_of two_segments 2)
    ∧ calls self' = calls (solver_of two_segments 2)
    ∧ link_block self' = link_block (solver_of two_segments 2)
    ∧ birth_block self' = birth_block (solver_of two_segments 2)
    ∧ death_block self' = death_block (solver_of two_segments 2)
    ∧ cm self' = cm (solver_of two_segments 2).
Proof.
  apply (C4_no_candidates_noop LinkBlock0 DiagBlock0 solve0 percentile_linear
           (solver_of two_segments 2) []).
  reflexivity.
Defined.

(** ** In place or on a copy *)

Ltac case_bind :=
  match goal with
  | |- context [mbind _ ?m] =>
      let E := fresh "E" in destruct m eqn:E; simpl
  | H : context [mbind _ ?m] |- _ =>
      let E := fresh "E" in destruct m eqn:E; simpl in H
  end.

Lemma copy_no_attribute (T : Trajectories) : old_indexes T = None → copy T = T.
Proof. destruct T as [i c r o]. simpl. by intros ->. Qed.

Lemma set_column_old (T T' : Trajectories) name vs :
  set_column T name vs = Ok T' → old_indexes T' = old_indexes T.
Proof.
  unfold set_column. destruct (negb _); [done |].
  destruct (index_of name (columns T)); by intros [= <-].
Qed.

Lemma set_index_append_old (T T' : Trajectories) name :
  set_index_append T name = Ok T' → old_indexes T' = old_indexes T.
Proof.
  unfold set_index_append. intros H. repeat case_bind; try done.
  by injection H as <-.
Qed.

Lemma drop_level_old (T T' : Trajectories) name :
  drop_level T name = Ok T' → old_indexes T' = old_indexes T.
Proof.
  unfold drop_level. intros H. repeat case_bind; try done.
  by injection H as <-.
Qed.

Lemma set_names_old (T T' : Trajectories) names :
  set_names T names = Ok T' → old_indexes T' = old_indexes T.
Proof. unfold set_names. destruct (negb _); [done |]. by intros [= <-]. Qed.

Lemma relabel_fromzero_on_copy (T : Trajectories) (level : string) :
  old_indexes T = None →
  relabel_fromzero T level false
  = '(T', _) ← relabel_fromzero T level true; Ok (T, RetNew T').
Proof.
  intros Hold. unfold relabel_fromzero. simpl negb. cbv iota.
  rewrite (copy_no_attribute T Hold).
  repeat (case_bind; try done).
Qed.

Lemma relabel_on_copy (self : Trajectories) nl s' ret :
  relabel self nl false = Ok (s', ret) →
  s' = self ∧ ∃ T', ret = RetNew T' ∧ relabel (copy self) nl true = Ok (T', RetNone).
Proof.
  unfold relabel. simpl negb. cbv iota. intros H.
  destruct (match nl with
            | Some l => set_column (copy self) "new_label" (map Int l)
            | None => Ok (copy self)
            end) as [t1|e] eqn:E1; simpl in *; [| done].
  assert (old_indexes t1 = None) as O1.
  { destruct nl; [by apply set_column_old in E1 | by injection E1 as <-]. }
  destruct (set_index_append t1 "new_label") as [t2|e] eqn:E2; simpl in *;
    [| by destruct e].
  apply set_index_append_old in E2.
  destruct (drop_level t2 "label") as [t3|e] eqn:E3; simpl in *; [| done].
  apply drop_level_old in E3.
  destruct (set_names t3 ["t_stamp"; "label"]) as [t4|e] eqn:E4; simpl in *;
    [| done].
  apply set_names_old in E4.
  rewrite relabel_fromzero_on_copy in H
    by (unfold sort_index, with_rows; simpl; congruence).
  destruct (relabel_fromzero (sort_index t4) "label" true)
    as [[T' r]|e] eqn:E5; simpl in *; [| done].
  injection H as <- <-. split; [done |]. exists T'. split; [done |].
  unfold relabel_fromzero in E5. simpl in E5.
  repeat (case_bind; try done). by injection E5 as <- <-.
Qed.

Lemma set_level_label_on_copy (self : Trajectories) s' ret :
  set_level_label self false = Ok (s', ret) →
  s' = self
  ∧ ∃ T', ret = RetNew T' ∧ set_level_label (copy self) true = Ok (T', RetNone).
Proof.
  unfold set_level_label. cbv iota. simpl columns. intros H.
  case_bind; [| done]. injection H as <- <-. eauto.
Qed.

Lemma scale_on_copy (self : Trajectories) factors coords s' ret :
  scale self factors coords false = Ok (s', ret) →
  s' = self
  ∧ ∃ T', ret = RetNew T'
          ∧ scale (copy self) factors coords true = Ok (T', RetSelf).
Proof.
  unfold scale. intros H. destruct (negb _); [done |]. cbv iota in *.
  case_bind; [| done]. injection H as <- <-. eauto.
Qed.

(** C9 (amended).  [relabel], [set_level_label] and [scale] work on
    [self] when the flag [inplace] is true and on a copy when it is
    false: with [inplace=False] the table [self] is left as it was and
    the method returns a new table, the one that the in-place call
    produces out of a copy of [self]; with [inplace=True] [relabel] and
    [set_level_label] return [None] and [scale] returns [self].  A call
    that leaves [inplace] out is an in-place call for [relabel] and
    [set_level_label] (their default is [True]) and a call on a copy for
    [scale] (its default is [False]). *)
Theorem C9_inplace_flag (self : Trajectories) :
  (∀ nl s' ret,
     relabel self nl false = Ok (s', ret) →
     s' = self
     ∧ ∃ T', ret = RetNew T' ∧ relabel (copy self) nl true = Ok (T', RetNone))
  ∧ (∀ s' ret,
       set_level_label self false = Ok (s', ret) →
       s' = self
       ∧ ∃ T', ret = RetNew T'
               ∧ set_level_label (copy self) true = Ok (T', RetNone))
  ∧ (∀ factors coords s' ret,
       scale self factors coords false = Ok (s', ret) →
       s' = self
       ∧ ∃ T', ret = RetNew T'
               ∧ scale (copy self) factors coords true = Ok (T', RetSelf))
  ∧ (∀ nl, relabel_call self nl None = relabel self nl true)
  ∧ set_level_label_call self None = set_level_label self true
  ∧ (∀ factors coords,
       scale_call self factors coords None = scale self factors coords false).
Proof.
  split; [intros nl s' ret; apply relabel_on_copy |].
  split; [intros s' ret; apply set_level_label_on_copy |].
  split; [intros f c s' ret; apply scale_on_copy |].
  done.
Qed.

(** C9 as stated fails: a call of [relabel], or of [set_level_label],
    that does not pass [inplace] changes the table it is called on and
    returns [None]. *)
Lemma C9_default_mutates :
  (∃ T', relabel_call two_segments (Some [0; 0; 0; 0; 0; 0]) None
         = Ok (T', RetNone)
         ∧ T' ≠ two_segments)
  ∧ (∃ T', set_level_label_call label_column None = Ok (T', RetNone)
           ∧ T' ≠ label_column).
Proof.
  split; eexists; (split; [vm_compute; reflexivity | discriminate]).
Qed.

Lemma C9_witness :
  (∃ s' ret,
     relabel two_segments (Some [0; 0; 0; 0; 0; 0]) false = Ok (s', ret)
     ∧ s' = two_segments
     ∧ ∃ T', ret = RetNew T'
             ∧ relabel (copy two_segments) (Some [0; 0; 0; 0; 0; 0]) true
               = Ok (T', RetNone))
  ∧ (∃ s' ret,
       set_level_label label_column false = Ok (s', ret)
       ∧ s' = label_column
       ∧ ∃ T', ret = RetNew T'
               ∧ set_level_label (copy label_column) true = Ok (T', RetNone))
  ∧ (∃ s' ret,
       scale two_segments [Float 2] ["x"] false = Ok (s', ret)
       ∧ s' = two_segments
       ∧ ∃ T', ret = RetNew T'
               ∧ scale (copy two_segments) [Float 2] ["x"] true
                 = Ok (T', RetSelf)).
Proof.
  split; [| split].
  - eexists _, _. split; [vm_compute; reflexivity |].
    apply (proj1 (C9_inplace_flag two_segments)). vm_compute. reflexivity.
  - eexists _, _. split; [vm_compute; reflexivity |].
    apply (proj1 (proj2 (C9_inplace_flag label_column))).
    vm_compute. reflexivity.
  - eexists _, _. split; [vm_compute; reflexivity |].
    apply (proj1 (proj2 (proj2 (C9_inplace_flag two_segments)))).
    vm_compute. reflexivity.
Defined.

(** ** numpy arrays *)

Lemma np_get_lookup {A : Type} (a : list A) (i : Z) (x : A) :
  0 ≤ i → a !! Z.to_nat i = Some x → np_get a i = Ok x.
Proof.
  intros Hi Hx. unfold np_get.
  pose proof (lookup_lt_Some _ _ _ Hx) as Hlt.
  replace (i <? 0) with false by lia.
  replace ((0 <=? i) && (i <? Z.of_nat (length a))) with true by lia.
  by rewrite Hx.
Qed.



Lemma foldl_max_le (a : list Z) (x : Z) :
  x ≤ foldl Z.max x a ∧ ∀ y, y ∈ a → y ≤ foldl Z.max x a.
Proof.
  revert x. induction a as [|z a IH]; intros x; simpl.
  - split; [lia | intros y Hy; inversion Hy].
  - destruct (IH (Z.max x z)) as [H1 H2]. split; [lia |].
    intros y Hy. apply elem_of_cons in Hy as [->|Hy]; [lia | by apply H2].
Qed.

Lemma np_max_bound (a : list Z) :
  a ≠ [] → ∃ m, np_max a = Ok m ∧ ∀ y, y ∈ a → y ≤ m.
Proof.
  destruct a as [|x a]; [done |]. intros _. simpl. eexists. split; [done |].
  destruct (foldl_max_le a x) as [H1 H2].
  intros y Hy. apply elem_of_cons in Hy as [->|Hy]; [done | by apply H2].
Qed.

(** ** The loop of [assign] *)


(** ** Masked assignment and [unique] *)

Lemma lookup_map {A B : Type} (f : A -> B) (l : list A) (i : nat) :
  map f l !! i = f <$> l !! i.
Proof. apply list_lookup_fmap. Qed.

Lemma elem_of_map {A B : Type} (f : A -> B) (l : list A) (y : B) :
  y ∈ map f l ↔ ∃ x, y = f x ∧ x ∈ l.
Proof. apply list_elem_of_fmap. Qed.

Lemma mask_assign_length (old : list Z) (uv n : Z) (a : list Z) :
  length a = length old → length (mask_assign old uv n a) = length old.
Proof. intros H. unfold mask_assign. rewrite length_zip_with. lia. Qed.

Lemma mask_assign_lookup (old : list Z) (uv n : Z) (a : list Z) (r : nat) (o : Z) :
  length a = length old →
  old !! r = Some o →
  mask_assign old uv n a !! r = if o =? uv then Some n else a !! r.
Proof.
  intros Hlen Ho. unfold mask_assign. rewrite lookup_zip_with, Ho. simpl.
  destruct (lookup_lt_is_Some_2 a r) as [x Hx].
  { rewrite Hlen. by eapply lookup_lt_Some. }
  rewrite Hx. simpl. by destruct (o =? uv).
Qed.



Lemma elem_of_filter_neq (x y : Z) (l : list Z) :
  y ∈ List.filter (fun z => negb (z =? x)) l ↔ y ∈ l ∧ y ≠ x.
Proof.
  rewrite !list_elem_of_In, filter_In.
  destruct (Z.eqb_spec y x); simpl; intuition congruence.
Qed.

Lemma NoDup_filter_neq (x : Z) (l : list Z) :
  NoDup l → NoDup (List.filter (fun z => negb (z =? x)) l).
Proof.
  induction 1 as [|y l Hy Hnd IH]; simpl; [constructor |].
  destruct (negb (y =? x)); [| done].
  constructor; [| done]. rewrite elem_of_filter_neq. tauto.
Qed.

Lemma elem_of_unique (x : Z) (l : list Z) : x ∈ unique l ↔ x ∈ l.
Proof.
  induction l as [|y l IH]; simpl; [done |].
  rewrite !elem_of_cons, elem_of_filter_neq, IH.
  destruct (decide (x = y)); tauto.
Qed.

Lemma NoDup_unique (l : list Z) : NoDup (unique l).
Proof.
  induction l as [|y l IH]; simpl; constructor.
  - rewrite elem_of_filter_neq. tauto.
  - by apply NoDup_filter_neq.
Qed.






(** ** Candidate pairs *)

Lemma mapM_ok {A B : Type} (f : A -> result B) (g : A -> B) (l : list A) :
  (∀ x, x ∈ l → f x = Ok (g x)) → mapM f l = Ok (map g l).
Proof.
  induction l as [|a l IH]; intros H; simpl; [done |].
  rewrite H by left. simpl. rewrite IH; [done |].
  intros x Hx. apply H. by right.
Qed.

Lemma elem_of_arange (n : nat) (z : Z) :
  z ∈ arange n ↔ 0 ≤ z < Z.of_nat n.
Proof.
  unfold arange. rewrite elem_of_map. split.
  - intros (k & -> & Hk). apply elem_of_seq in Hk. lia.
  - intros Hz. exists (Z.to_nat z). split; [lia |]. apply elem_of_seq. lia.
Qed.

Lemma arange_lookup (n : nat) (z : Z) :
  0 ≤ z < Z.of_nat n → arange n !! Z.to_nat z = Some z.
Proof.
  intros Hz. unfold arange. rewrite lookup_map.
  rewrite lookup_seq_lt by lia. simpl. f_equal. lia.
Qed.

(** Reading an array that is laid out by label, at a label. *)
Lemma np_get_by_label {A : Type} (f : Z -> A) (n : nat) (z : Z) :
  z ∈ arange n → np_get (map f (arange n)) z = Ok (f z).
Proof.
  intros Hz. apply elem_of_arange in Hz. apply np_get_lookup; [lia |].
  by rewrite lookup_map, arange_lookup.
Qed.

Lemma insert_sorted_head (x : Z) (l : list Z) :
  (∀ y, y ∈ l → x ≤ y) → insert_sorted Z.leb x l = x :: l.
Proof.
  destruct l as [|y l]; [done |]. intros H. simpl.
  by rewrite (proj2 (Z.leb_le x y)) by (apply H; left).
Qed.

Lemma sort_by_seq (i n : nat) :
  sort_by Z.leb (map Z.of_nat (seq i n)) = map Z.of_nat (seq i n).
Proof.
  revert i. induction n as [|n IH]; intros i; simpl; [done |].
  rewrite IH. apply insert_sorted_head.
  intros y Hy. apply elem_of_map in Hy as (k & -> & Hk).
  apply elem_of_seq in Hk. lia.
Qed.

Lemma bound_of_segment (rs : list row) :
  bound_of (map ix rs)
  = (hd 0 (map t_stamp_of rs), List.last (map t_stamp_of rs) 0).
Proof.
  unfold bound_of. f_equal.
  - destruct rs as [|r rs]; [done |]. simpl. unfold t_stamp_of.
    by destruct (ix r).
  - induction rs as [|r rs IH]; [done |].
    destruct rs as [|r' rs]; [| exact IH].
    simpl. unfold t_stamp_of. by destruct (ix r).
Qed.

Lemma where_from_filter (f : nat -> bool) (m : nat) :
  ∀ j, where_from j (map f (seq j m)) = List.filter f (seq j m).
Proof.
  induction m as [|m IH]; intros j; simpl; [done |].
  rewrite IH. by destruct (f j).
Qed.

Lemma argwhere_from_rows (g : nat -> nat -> bool) (n m : nat) :
  ∀ i,
    argwhere_from i (map (fun a => map (g a) (seq 0 n)) (seq i m))
    = flat_map (fun a => map (fun b => (Z.of_nat a, Z.of_nat b))
                             (List.filter (g a) (seq 0 n))) (seq i m).
Proof.
  induction m as [|m IH]; intros i; simpl; [done |].
  by rewrite IH, where_from_filter.
Qed.

Lemma matches_of_row (T : Trajectories) (max_gap zi : Z) (l : list nat) :
  map (fun b => (zi, Z.of_nat b))
      (List.filter (fun b => is_candidate T max_gap (Z.of_nat b) zi) l)
  = map swap (flat_map (fun o => if is_candidate T max_gap o zi
                                 then [(o, zi)] else [])
                       (map Z.of_nat l)).
Proof.
  induction l as [|b l IH]; simpl; [done |].
  destruct (is_candidate T max_gap (Z.of_nat b) zi); simpl; by rewrite IH.
Qed.

Lemma matches_of_rows (T : Trajectories) (max_gap : Z) (l2 l : list nat) :
  flat_map (fun a =>
              map (fun b => (Z.of_nat a, Z.of_nat b))
                  (List.filter
                     (fun b => is_candidate T max_gap (Z.of_nat b) (Z.of_nat a))
                     l2)) l
  = map swap (flat_map (fun i =>
                          flat_map (fun o => if is_candidate T max_gap o i
                                             then [(o, i)] else [])
                                   (map Z.of_nat l2))
                       (map Z.of_nat l)).
Proof.
  induction l as [|a l IH]; simpl; [done |].
  by rewrite map_app, IH, matches_of_row.
Qed.

Lemma candidate_pairs_elem (T : Trajectories) (max_gap : Z) (ls : list Z)
    (o i : Z) :
  (o, i) ∈ candidate_pairs T max_gap ls
  ↔ o ∈ ls ∧ i ∈ ls
    ∧ 0 < start_time T i - stop_time T o < max_gap.
Proof.
  unfold candidate_pairs. rewrite list_elem_of_In, in_flat_map. split.
  - intros (i' & Hi' & Hin). apply in_flat_map in Hin as (o' & Ho' & Hin).
    destruct (is_candidate T max_gap o' i') eqn:Hc; [| done].
    destruct Hin as [[= <- <-]|[]].
    rewrite !list_elem_of_In. unfold is_candidate in Hc.
    split; [done |]. split; [done | lia].
  - intros (Ho & Hi & Hgap). exists i. split; [by apply list_elem_of_In |].
    apply in_flat_map. exists o. split; [by apply list_elem_of_In |].
    unfold is_candidate.
    replace ((0 <? start_time T i - stop_time T o)
             && (start_time T i - stop_time T o <? max_gap)) with true by lia.
    by left.
Qed.

Lemma zip_map {A B C : Type} (f : A -> B) (g : A -> C) (l : list A) :
  zip (map f l) (map g l) = map (fun x => (f x, g x)) l.
Proof. induction l as [|x l IH]; simpl; [done | by rewrite IH]. Qed.

Lemma dense_labels (self : GapCloseSolver) (n : nat) :
  index_names (trajs self) = required_index →
  mem "label" (columns (trajs self)) = false →
  unique (map label_of (rows (trajs self))) = arange n →
  labels (trajs self) = Ok (arange n).
Proof.
  intros Hix Hmem Hdense.
  unfold labels, get_level_values, position. rewrite Hmem, Hix. simpl.
  f_equal. exact Hdense.
Qed.

Lemma dense_segment_idxs (self : GapCloseSolver) (n : nat) :
  index_names (trajs self) = required_index →
  unique (map label_of (rows (trajs self))) = arange n →
  segment_idxs (trajs self)
  = Ok (map (fun l => (l, map ix (segment (trajs self) l))) (arange n)).
Proof.
  intros Hix Hdense.
  unfold segment_idxs, position. rewrite Hix. simpl.
  change (map (fun r => nth 1 (ix r) 0) (rows (trajs self)))
    with (map label_of (rows (trajs self))).
  rewrite Hdense. unfold arange. by rewrite sort_by_seq.
Qed.

Lemma dense_columns (n : nat) (f : Z -> Z * Z) :
  (0 < n)%nat →
  np_columns (map f (arange n))
  = Ok (map (fun l => fst (f l)) (arange n), map (fun l => snd (f l)) (arange n)).
Proof.
  intros Hn. unfold np_columns. rewrite !map_map.
  destruct n as [|n']; [lia | done].
Qed.

Lemma dense_take2 (n : nat) (f : Z -> Z) (idx : list (list Z)) :
  Forall (Forall (fun z => z ∈ arange n)) idx →
  np_take2 (map f (arange n)) idx = Ok (map (map f) idx).
Proof.
  intros H. unfold np_take2. apply mapM_ok. intros r Hr.
  apply mapM_ok. intros z Hz. apply np_get_by_label.
  rewrite Forall_forall in H. specialize (H r Hr).
  rewrite Forall_forall in H. by apply H.
Qed.

Lemma zip_with_map {A B C D : Type} (f : B -> C -> D) (g : A -> B) (h : A -> C)
    (l : list A) :
  zip_with f (map g l) (map h l) = map (fun x => f (g x) (h x)) l.
Proof. induction l as [|x l IH]; simpl; [done | by rewrite IH]. Qed.

Lemma np_get_arange (n : nat) (z : Z) :
  z ∈ arange n → np_get (arange n) z = Ok z.
Proof.
  intros Hz. apply elem_of_arange in Hz.
  apply np_get_lookup; [lia | by apply arange_lookup].
Qed.

Lemma dense_matches (T : Trajectories) (max_gap : Z) (n : nat) :
  np_argwhere
    (map (map (fun g => (0 <? g) && (g <? max_gap)))
       (zip_with (zip_with Z.sub)
          (map (map (start_time T))
               (map (fun yi => map (fun _ => yi) (arange n)) (arange n)))
          (map (map (stop_time T)) (map (fun _ => arange n) (arange n)))))
  = map swap (candidate_pairs T max_gap (arange n)).
Proof.
  rewrite !map_map, zip_with_map, map_map.
  rewrite (map_ext _ (fun y => map (fun x => is_candidate T max_gap x y)
                                   (arange n))).
  2:{ intros y. rewrite map_map, zip_with_map, map_map. done. }
  unfold np_argwhere, candidate_pairs, arange.
  rewrite <- matches_of_rows, <- argwhere_from_rows. f_equal.
  rewrite map_map. apply map_ext. intros a. by rewrite map_map.
Qed.

Lemma get_candidates_dense (self : GapCloseSolver) (n : nat) :
  index_names (trajs self) = required_index →
  mem "label" (columns (trajs self)) = false →
  unique (map label_of (rows (trajs self))) = arange n →
  (0 < n)%nat →
  _get_candidates self
  = Ok (map (fun p => (start_time (trajs self) (snd p), snd p))
            (candidate_pairs (trajs self) (maximum_gap self) (arange n)),
        map (fun p => (start_time (trajs self) (fst p), fst p))
            (candidate_pairs (trajs self) (maximum_gap self) (arange n))).
Proof.
  intros Hix Hmem Hdense Hn. unfold _get_candidates.
  rewrite (dense_labels self n Hix Hmem Hdense).
  rewrite (dense_segment_idxs self n Hix Hdense).
  cbn [mbind result_bind]. rewrite map_map. cbn [snd].
  rewrite (map_ext _ (fun l => (start_time (trajs self) l,
                                stop_time (trajs self) l)))
    by (intros l; apply bound_of_segment).
  rewrite (dense_columns n _ Hn). cbn [mbind result_bind fst snd].
  unfold np_meshgrid.
  rewrite (dense_take2 n (start_time (trajs self))).
  2:{ apply Forall_forall. intros r Hr. apply elem_of_map in Hr as (y & -> & Hy).
      apply Forall_forall. intros z Hz. by apply elem_of_map in Hz as (_ & -> & _). }
  rewrite (dense_take2 n (stop_time (trajs self))).
  2:{ apply Forall_forall. intros r Hr. apply elem_of_map in Hr as (y & -> & Hy).
      by apply Forall_forall. }
  cbn [mbind result_bind]. rewrite dense_matches.
  set (cp := candidate_pairs (trajs self) (maximum_gap self) (arange n)).
  assert (∀ p, p ∈ cp → fst p ∈ arange n ∧ snd p ∈ arange n) as Hcp.
  { intros [o i] Hp. apply candidate_pairs_elem in Hp. simpl. tauto. }
  destruct cp as [|p cp'] eqn:Ecp; [done |].
  rewrite <- Ecp in *. rewrite length_map.
  replace (length cp =? 0)%nat with false by (rewrite Ecp; done).
  rewrite !map_map. cbn [swap fst snd].
  assert (∀ z, z ∈ map snd cp → z ∈ arange n) as Hin.
  { intros z Hz. apply elem_of_map in Hz as (q & -> & Hq). by apply Hcp. }
  assert (∀ z, z ∈ map fst cp → z ∈ arange n) as Hout.
  { intros z Hz. apply elem_of_map in Hz as (q & -> & Hq). by apply Hcp. }
  rewrite (mapM_ok (np_get (arange n)) id (map (fun x => snd x) cp))
    by (intros z Hz; apply np_get_arange; by apply Hin).
  rewrite (mapM_ok (np_get (arange n)) id (map (fun x => fst x) cp))
    by (intros z Hz; apply np_get_arange; by apply Hout).
  rewrite (mapM_ok _ (start_time (trajs self)) (map (fun x => snd x) cp))
    by (intros z Hz; apply np_get_by_label; by apply Hin).
  rewrite (mapM_ok _ (start_time (trajs self)) (map (fun x => fst x) cp))
    by (intros z Hz; apply np_get_by_label; by apply Hout).
  cbn [mbind result_bind]. by rewrite !map_map, !zip_map.
Qed.

(** On a table whose labels are [0, ..., n-1] in the order of their
    first appearance (what [relabel] produces), [_get_candidates] returns
    exactly the pairs of segments [(out, in)] with
    [0 < start_time(in) - stop_time(out) < maximum_gap]; the returned in
    keys are the start end points of the in segments and the returned
    out keys carry the labels of the out segments. *)
Lemma candidates_of_dense_labels (self : GapCloseSolver) (n : nat) :
  index_names (trajs self) = required_index →
  mem "label" (columns (trajs self)) = false →
  unique (map label_of (rows (trajs self))) = arange n →
  (0 < n)%nat →
  ∃ idxs_in idxs_out,
    _get_candidates self = Ok (idxs_in, idxs_out)
    ∧ zip (map snd idxs_out) (map snd idxs_in)
      = candidate_pairs (trajs self) (maximum_gap self) (arange n)
    ∧ (∀ o i,
         (o, i) ∈ zip (map snd idxs_out) (map snd idxs_in)
         ↔ o ∈ arange n ∧ i ∈ arange n
           ∧ 0 < start_time (trajs self) i - stop_time (trajs self) o
               < maximum_gap self)
    ∧ Forall (fun k => k = (start_time (trajs self) (snd k), snd k)) idxs_in.
Proof.
  intros Hix Hmem Hdense Hn.
  eexists _, _. split; [by apply (get_candidates_dense self n) |].
  assert (zip
            (map snd (map (fun p => (start_time (trajs self) (fst p), fst p))
                          (candidate_pairs (trajs self) (maximum_gap self)
                             (arange n))))
            (map snd (map (fun p => (start_time (trajs self) (snd p), snd p))
                          (candidate_pairs (trajs self) (maximum_gap self)
                             (arange n))))
          = candidate_pairs (trajs self) (maximum_gap self) (arange n)) as Hzip.
  { rewrite !map_map. cbn [snd]. rewrite zip_map.
    rewrite <- (map_id (candidate_pairs _ _ _)) at 2.
    apply map_ext. by intros [o i]. }
  split; [exact Hzip |]. split.
  - intros o i. rewrite Hzip. apply candidate_pairs_elem.
  - apply Forall_forall. intros k Hk.
    by apply elem_of_map in Hk as (p & -> & _).
Qed.

(** C1 (the code at the failing input).  On [two_segments] with the
    maximal gap 5 the only candidate pair is (out 0, in 1), of gap
    [5 - 2]; [_get_candidates] returns the in key [(5, 1)], the start of
    the in segment, and the out key [(0, 0)]: the first frame of the out
    segment, not the frame 2 in which it stops.  The segments are also
    looked up by using their labels as positions: with the labels 1 and
    2 for the same spots, [_get_candidates] raises [IndexError]. *)
Theorem C1_out_key_is_the_start :
  candidate_pairs two_segments 5 (arange 2) = [(0, 1)]
  ∧ start_time two_segments 1 = 5
  ∧ stop_time two_segments 0 = 2
  ∧ start_time two_segments 0 = 0
  ∧ _get_candidates (solver_of two_segments 5) = Ok ([(5, 1)], [(0, 0)])
  ∧ labels labels_from_one = Ok [1; 2]
  ∧ candidate_pairs labels_from_one 5 [1; 2] = [(1, 2)]
  ∧ _get_candidates (solver_of labels_from_one 5) = Raise IndexError.
Proof. repeat split; reflexivity. Qed.

(** ** Stable sorting *)

Lemma insert_sorted_map {A B : Type} (leb1 : A -> A -> bool)
    (leb2 : B -> B -> bool) (g : A -> B) (x : A) (l : list A) :
  (∀ a b, leb2 (g a) (g b) = leb1 a b) →
  insert_sorted leb2 (g x) (map g l) = map g (insert_sorted leb1 x l).
Proof.
  intros H. induction l as [|y l IH]; simpl; [done |].
  rewrite H. destruct (leb1 x y); simpl; [done | by rewrite IH].
Qed.

Lemma sort_by_map {A B : Type} (leb1 : A -> A -> bool)
    (leb2 : B -> B -> bool) (g : A -> B) (l : list A) :
  (∀ a b, leb2 (g a) (g b) = leb1 a b) →
  sort_by leb2 (map g l) = map g (sort_by leb1 l).
Proof.
  intros H. induction l as [|x l IH]; simpl; [done |].
  by rewrite IH, (insert_sorted_map leb1).
Qed.

Lemma insert_sorted_elem {A : Type} (leb : A -> A -> bool) (x y : A) (l : list A) :
  y ∈ insert_sorted leb x l ↔ y = x ∨ y ∈ l.
Proof.
  induction l as [|z l IH]; simpl.
  - rewrite list_elem_of_singleton. split; [by left | intros [H|H]; [done | inversion H]].
  - destruct (leb x z); rewrite !elem_of_cons; [tauto |]. rewrite IH. tauto.
Qed.

Lemma sort_by_elem {A : Type} (leb : A -> A -> bool) (y : A) (l : list A) :
  y ∈ sort_by leb l ↔ y ∈ l.
Proof.
  induction l as [|x l IH]; simpl; [done |].
  rewrite insert_sorted_elem, elem_of_cons, IH. tauto.
Qed.

Lemma insert_sorted_Permutation {A : Type} (leb : A -> A -> bool) (x : A)
    (l : list A) :
  insert_sorted leb x l ≡ₚ x :: l.
Proof.
  induction l as [|z l IH]; simpl; [done |].
  destruct (leb x z); [done |]. rewrite IH. apply Permutation_swap.
Qed.

Lemma sort_by_Permutation {A : Type} (leb : A -> A -> bool) (l : list A) :
  sort_by leb l ≡ₚ l.
Proof.
  induction l as [|x l IH]; simpl; [done |].
  by rewrite insert_sorted_Permutation, IH.
Qed.

Section StableSort.
Context {A : Type} (key : A -> Z).

Local Abbreviation key_leb := (key_leb key).




End StableSort.

(** ** [reverse] *)

Lemma index_of_Some_mem (name : string) (names : list string) (p : nat) :
  index_of name names = Some p → mem name names = true.
Proof. unfold mem. by intros ->. Qed.

Lemma wf_keyed (T : Trajectories) :
  index_names T = required_index → wf T = true →
  rows T = map keyed (rows T)
  ∧ Forall (fun r => length (dat r) = length (columns T)) (rows T).
Proof.
  intros Hix Hwf. unfold wf in Hwf. rewrite Hix in Hwf.
  rewrite forallb_forall in Hwf. split.
  - rewrite <- (map_id (rows T)) at 1. apply map_ext_in. intros r Hr.
    specialize (Hwf r Hr). apply andb_prop in Hwf as [H1 _].
    apply Nat.eqb_eq in H1. destruct r as [[|t [|l [|x i]]] d]; done.
  - apply Forall_forall. intros r Hr. apply list_elem_of_In in Hr.
    specialize (Hwf r Hr). apply andb_prop in Hwf as [_ H2].
    by apply Nat.eqb_eq in H2.
Qed.

Lemma cell_leb_Int (a b : Z) : cell_leb (Int a) (Int b) = (a <=? b).
Proof.
  unfold cell_leb, Qle_bool. simpl. by rewrite !Z.mul_1_r.
Qed.



Lemma mem_cons_ne (a b : string) (l : list string) :
  String.eqb b a = false → mem a (b :: l) = mem a l.
Proof. intros H. unfold mem. simpl. rewrite H. by destruct (index_of a l). Qed.

Lemma reset_index_keyed (cols : list string) (rs : list row)
    (oi : option (list string)) :
  mem "t_stamp" cols = false →
  mem "label" cols = false →
  reset_index (Trajs required_index cols (map keyed rs) oi)
  = Ok (Trajs [] ("t_stamp" :: "label" :: cols)
          (map (fun r => Row [] (Int (t_stamp_of r) :: Int (label_of r) :: dat r))
               rs) oi).
Proof.
  intros Hts Hlb. unfold reset_index, required_index. simpl.
  unfold reset_level at 2. simpl. rewrite Hlb. simpl.
  unfold reset_level. simpl. rewrite mem_cons_ne by done. rewrite Hts.
  by rewrite !map_map.
Qed.

Lemma map_column_at (T : Trajectories) (name : string) (f : cell -> cell)
    (p : nat) :
  index_of name (columns T) = Some p →
  map_column T name f
  = Ok (with_rows T (map (fun r => Row (ix r) (alter f p (dat r))) (rows T))).
Proof. intros H. unfold map_column, position. by rewrite H. Qed.

Lemma sort_at (T : Trajectories) (name : string) (p : nat) :
  index_of name (columns T) = Some p →
  sort T name
  = Ok (with_rows T
          (sort_by (fun r1 r2 => cell_leb (nth p (dat r1) (Int 0))
                                          (nth p (dat r2) (Int 0))) (rows T))).
Proof. intros H. unfold sort, position. by rewrite H. Qed.

Lemma mapM_map {A B C : Type} (f : B -> result C) (g : A -> B) (l : list A) :
  mapM f (map g l) = mapM (fun x => f (g x)) l.
Proof. induction l as [|a l IH]; simpl; [done | by rewrite IH]. Qed.

Lemma set_index_keyed (cols : list string) (l : list row)
    (oi : option (list string)) :
  set_index
    (Trajs [] ("t_stamp" :: "label" :: cols)
       (map (fun r => Row [] (Int (t_stamp_of r) :: Int (label_of r) :: dat r)) l)
       oi)
    ["t_stamp"; "label"]
  = Ok (Trajs required_index cols (map keyed l) oi).
Proof.
  unfold set_index. simpl. unfold set_index_append at 2. simpl.
  rewrite !map_map. simpl. rewrite mapM_map. simpl.
  rewrite (mapM_ok _ (fun r => Row [t_stamp_of r] (Int (label_of r) :: dat r)))
    by done.
  simpl. unfold set_index_append. simpl. rewrite mapM_map. simpl.
  by rewrite (mapM_ok _ keyed) by done.
Qed.

Lemma index_of_cons_ne (a b : string) (l : list string) (p : nat) :
  index_of a l = Some p → mem b l = false → index_of a (b :: l) = Some (S p).
Proof.
  intros Ha Hb. simpl. destruct (String.eqb_spec b a) as [->|Hne].
  - apply index_of_Some_mem in Ha. congruence.
  - by rewrite Ha.
Qed.

Lemma reverse_keyed (cols : list string) (rs : list row)
    (oi : option (list string)) (tc : string) (p : nat) :
  index_of tc cols = Some p →
  mem "t_stamp" cols = false →
  mem "label" cols = false →
  reverse (Trajs required_index cols (map keyed rs) oi) tc false
  = Ok (Trajs required_index cols (map keyed rs) oi,
        RetNew (Trajs required_index cols
                  (sort_by t_stamp_leb (map (negate_time p) (map keyed rs)))
                  None)).
Proof.
  intros Hp Hts Hlb. unfold reverse, copy.
  cbn [index_names columns rows].
  rewrite reset_index_keyed by done. cbn [mbind result_bind].
  rewrite (map_column_at _ "t_stamp" _ 0) by done.
  cbn [mbind result_bind with_rows index_names columns rows old_indexes].
  rewrite (map_column_at _ tc _ (S (S p))).
  2:{ cbn [columns]. apply index_of_cons_ne.
      - by apply index_of_cons_ne.
      - by rewrite mem_cons_ne. }
  cbn [mbind result_bind with_rows index_names columns rows old_indexes].
  rewrite (sort_at _ "t_stamp" 0) by done.
  cbn [mbind result_bind with_rows index_names columns rows old_indexes].
  rewrite !map_map. cbn [ix dat alter list_alter].
  unfold with_rows. cbn [index_names columns rows old_indexes].
  match goal with
  | |- context [sort_by ?leb (map ?F rs)] =>
      replace (map F rs)
        with (map (fun r' => Row [] (Int (t_stamp_of r')
                                     :: Int (label_of r') :: dat r'))
                  (map (negate_time p) (map keyed rs)))
        by (rewrite !map_map; by apply map_ext)
  end.
  rewrite (sort_by_map t_stamp_leb).
  2:{ intros a b. cbn [dat nth]. apply cell_leb_Int. }
  rewrite set_index_keyed. cbn [mbind result_bind].
  rewrite <- (sort_by_map t_stamp_leb t_stamp_leb keyed) by done.
  by rewrite !map_map.
Qed.

Lemma t_stamp_of_negate_time (p : nat) (r : row) :
  t_stamp_of (negate_time p r) = - t_stamp_of r.
Proof. unfold negate_time, t_stamp_of. simpl. lia. Qed.




(** ** [relabel] on keys *)

Lemma index_of_lt (name : string) (names : list string) (p : nat) :
  index_of name names = Some p → (p < length names)%nat.
Proof.
  revert p. induction names as [|n names IH]; intros p; simpl; [done |].
  destruct (String.eqb n name); [intros [= <-]; lia |].
  destruct (index_of name names) as [q|]; [| done].
  intros [= <-]. specialize (IH q eq_refl). lia.
Qed.

Lemma index_of_app_new (name : string) (names : list string) :
  index_of name names = None →
  index_of name (names ++ [name]) = Some (length names).
Proof.
  induction names as [|n names IH]; simpl.
  - by rewrite String.eqb_refl.
  - destruct (String.eqb n name); [done |].
    destruct (index_of name names); [done |]. intros _. by rewrite IH.
Qed.

Lemma mapM_zip_with {A B C D : Type} (f : C -> result D) (h : A -> B -> C)
    (k : A -> B -> D) (l : list A) :
  ∀ vs, (∀ r v, r ∈ l → f (h r v) = Ok (k r v)) →
        mapM f (zip_with h l vs) = Ok (zip_with k l vs).
Proof.
  induction l as [|r l IH]; intros [|v vs] H; simpl; try done.
  rewrite H by left. simpl. rewrite IH; [done |].
  intros r' v' Hr'. apply H. by right.
Qed.

Lemma Forall_zip_with {A B C : Type} (P : C -> Prop) (h : A -> B -> C)
    (l : list A) :
  ∀ vs, (∀ r v, r ∈ l → P (h r v)) → Forall P (zip_with h l vs).
Proof.
  induction l as [|r l IH]; intros [|v vs] H; simpl; try constructor.
  - apply H. left.
  - apply IH. intros r' v' Hr'. apply H. by right.
Qed.

Lemma zip_with_map_r {A B C D : Type} (h : A -> C -> D) (g : B -> C)
    (l : list A) :
  ∀ vs, zip_with h l (map g vs) = zip_with (fun r v => h r (g v)) l vs.
Proof.
  induction l as [|r l IH]; intros [|v vs]; simpl; try done. by rewrite IH.
Qed.

Lemma keys_zip_with (g : row -> Z -> list cell) (l : list row) :
  ∀ vs, map ix (zip_with (fun r v => Row (ix r ++ [v]) (g r v)) l vs)
        = zip_with (fun k v => k ++ [v]) (map ix l) vs.
Proof.
  induction l as [|r l IH]; intros [|v vs]; simpl; try done. by rewrite IH.
Qed.

Lemma set_column_index (T : Trajectories) (name : string) (vals : list Z) :
  wf_dat T →
  length vals = length (rows T) →
  ∃ T1 T',
    set_column T name (map Int vals) = Ok T1
    ∧ set_index_append T1 name = Ok T'
    ∧ index_names T' = index_names T ++ [name]
    ∧ keys T' = zip_with (fun k v => k ++ [v]) (keys T) vals
    ∧ wf_dat T'
    ∧ old_indexes T' = old_indexes T.
Proof.
  intros Hwf Hlen. unfold wf_dat in Hwf. rewrite Forall_forall in Hwf.
  unfold set_column.
  rewrite length_map, Hlen, Nat.eqb_refl. cbn [negb].
  destruct (index_of name (columns T)) as [p|] eqn:E.
  - pose proof (index_of_lt _ _ _ E) as Hp.
    eexists _, _. split; [reflexivity |].
    unfold set_index_append, position, with_rows.
    cbn [columns rows index_names old_indexes]. rewrite E.
    cbn [mbind result_bind]. rewrite zip_with_map_r.
    rewrite (mapM_zip_with _ _
               (fun r v => Row (ix r ++ [v]) (delete p (<[p := Int v]> (dat r))))).
    2:{ intros r v Hr. cbn [ix dat]. rewrite nth_lookup.
        specialize (Hwf r Hr).
        rewrite list_lookup_insert_eq by lia. done. }
    cbn [mbind result_bind]. split; [done |].
    split; [done |]. split; [apply keys_zip_with |]. split; [| done].
    unfold wf_dat. cbn [rows columns]. apply Forall_zip_with.
    intros r v Hr. cbn [dat]. specialize (Hwf r Hr).
    rewrite !length_delete, length_insert.
    + lia.
    + apply lookup_lt_is_Some. lia.
    + apply lookup_lt_is_Some. rewrite length_insert. lia.
  - eexists _, _. split; [reflexivity |].
    unfold set_index_append, position.
    cbn [columns rows index_names old_indexes].
    rewrite (index_of_app_new _ _ E). cbn [mbind result_bind].
    rewrite zip_with_map_r.
    rewrite (mapM_zip_with _ _ (fun r v => Row (ix r ++ [v]) (dat r))).
    2:{ intros r v Hr. cbn [ix dat]. specialize (Hwf r Hr).
        rewrite nth_lookup, lookup_app_r by lia.
        rewrite Hwf, Nat.sub_diag. simpl. f_equal. f_equal.
        rewrite <- Hwf, delete_middle. apply app_nil_r. }
    cbn [mbind result_bind]. split; [done |].
    split; [done |]. split; [apply (keys_zip_with (fun r _ => dat r)) |].
    split; [| done].
    unfold wf_dat. cbn [rows columns]. apply Forall_zip_with.
    intros r v Hr. cbn [dat]. rewrite delete_middle, app_nil_r.
    by apply Hwf.
Qed.

Lemma drop_level_keys (T : Trajectories) (level : string) (p : nat) :
  index_of level (index_names T) = Some p →
  wf_dat T →
  ∃ T',
    drop_level T level = Ok T'
    ∧ index_names T' = delete p (index_names T)
    ∧ keys T' = map (delete p) (keys T)
    ∧ wf_dat T'
    ∧ old_indexes T' = old_indexes T.
Proof.
  intros Hp Hwf. unfold drop_level, position. rewrite Hp.
  eexists. split; [reflexivity |]. split; [done |].
  split; [unfold keys; simpl; by rewrite !map_map |]. split; [| done].
  unfold wf_dat in *. simpl. by apply Forall_map.
Qed.

Lemma set_names_keys (T : Trajectories) (names : list string) :
  length names = length (index_names T) →
  wf_dat T →
  ∃ T',
    set_names T names = Ok T'
    ∧ index_names T' = names
    ∧ keys T' = keys T
    ∧ wf_dat T'
    ∧ old_indexes T' = old_indexes T.
Proof.
  intros Hlen Hwf. unfold set_names. rewrite Hlen, Nat.eqb_refl.
  eexists. by repeat split.
Qed.

Lemma sort_index_keys (T : Trajectories) :
  wf_dat T →
  index_names (sort_index T) = index_names T
  ∧ keys (sort_index T) = sort_by lex_leb (keys T)
  ∧ wf_dat (sort_index T)
  ∧ old_indexes (sort_index T) = old_indexes T.
Proof.
  intros Hwf. split; [done |]. split.
  - unfold keys, sort_index. simpl. symmetry. by apply sort_by_map.
  - split; [| done]. unfold wf_dat in *. simpl.
    apply Forall_forall. intros r Hr. apply sort_by_elem in Hr.
    rewrite Forall_forall in Hwf. by apply Hwf.
Qed.

Lemma renumber_loop_length (old : list Z) (uvs : list Z) :
  ∀ n nu, length nu = length old →
          length (renumber_loop old n uvs nu) = length old.
Proof.
  induction uvs as [|uv uvs IH]; intros n nu H; simpl; [done |].
  apply IH. by apply mask_assign_length.
Qed.

Lemma renumber_length (old : list Z) : length (renumber old) = length old.
Proof. unfold renumber. apply renumber_loop_length. by rewrite length_map. Qed.

Lemma keys_two (T : Trajectories) :
  index_names T = required_index → wf T = true →
  Forall (fun k => length k = 2%nat) (keys T) ∧ wf_dat T.
Proof.
  intros Hix Hwf. unfold wf in Hwf. rewrite Hix in Hwf.
  rewrite forallb_forall in Hwf. split.
  - unfold keys. apply Forall_forall. intros k Hk.
    apply elem_of_map in Hk as (r & -> & Hr). apply list_elem_of_In in Hr.
    specialize (Hwf r Hr). apply andb_prop in Hwf as [H1 _].
    by apply Nat.eqb_eq in H1.
  - apply Forall_forall. intros r Hr. apply list_elem_of_In in Hr.
    specialize (Hwf r Hr). apply andb_prop in Hwf as [_ H2].
    by apply Nat.eqb_eq in H2.
Qed.

Lemma relabel_two (ks : list (list Z)) :
  Forall (fun k => length k = 2%nat) ks →
  ∀ vs, map (delete 1%nat) (zip_with (fun k v => k ++ [v]) ks vs)
        = with_labels ks vs.
Proof.
  unfold with_labels. induction 1 as [|k ks Hk Hall IH]; intros [|v vs];
    simpl; try done.
  rewrite IH. by destruct k as [|a [|b [|c k]]].
Qed.

Lemma with_labels_two (ks : list (list Z)) (vs : list Z) :
  Forall (fun k => length k = 2%nat) (with_labels ks vs).
Proof.
  unfold with_labels. apply Forall_zip_with. done.
Qed.

Lemma relabel_fromzero_keys (T : Trajectories) (inplace : bool) :
  index_names T = required_index →
  Forall (fun k => length k = 2%nat) (keys T) →
  wf_dat T →
  ∃ T',
    relabel_fromzero T "label" inplace
    = Ok (if inplace then (T', RetNone) else (T, RetNew T'))
    ∧ index_names T' = required_index
    ∧ keys T' = fromzero_keys (keys T)
    ∧ wf_dat T'.
Proof.
  intros Hix Htwo Hwf. unfold relabel_fromzero, get_level_values, position.
  rewrite Hix. cbn [required_index index_of String.eqb Ascii.eqb Bool.eqb
                    option_map mbind result_bind].
  simpl index_of. cbn [mbind result_bind].
  set (olds := map (fun r => nth 1 (ix r) 0) (rows T)).
  set (trajs := if negb inplace then copy T else T).
  assert (wf_dat trajs ∧ rows trajs = rows T
          ∧ index_names trajs = required_index) as (Hwf' & Hrows & Hix').
  { subst trajs. by destruct inplace. }
  destruct (set_column_index trajs "new_label" (renumber olds))
    as (T1 & T2 & H1 & H2 & Hn2 & Hk2 & Hw2 & _); [done | |].
  { rewrite renumber_length. subst olds. by rewrite length_map, Hrows. }
  rewrite H1. cbn [mbind result_bind]. rewrite H2. cbn [mbind result_bind].
  destruct (drop_level_keys T2 "label" 1)
    as (T3 & H3 & Hn3 & Hk3 & Hw3 & _); [by rewrite Hn2, Hix' | done |].
  rewrite H3. cbn [mbind result_bind].
  destruct (set_names_keys T3 ["t_stamp"; "label"])
    as (T4 & H4 & Hn4 & Hk4 & Hw4 & _); [by rewrite Hn3, Hn2, Hix' | done |].
  rewrite H4. cbn [mbind result_bind].
  exists T4. split; [by destruct inplace |]. split; [done |].
  split; [| done].
  rewrite Hk4, Hk3, Hk2.
  replace (keys trajs) with (keys T) by (unfold keys; by rewrite Hrows).
  rewrite relabel_two by done. unfold fromzero_keys. f_equal. f_equal.
  subst olds. unfold keys. by rewrite map_map.
Qed.

Lemma sort_by_Forall {A : Type} (leb : A -> A -> bool) (P : A -> Prop)
    (l : list A) :
  Forall P l → Forall P (sort_by leb l).
Proof.
  rewrite !Forall_forall. intros H x Hx. apply H. by apply sort_by_elem in Hx.
Qed.

Lemma relabel_keys_ok (T : Trajectories) (nl : list Z) (inplace : bool) :
  index_names T = required_index →
  wf T = true →
  length nl = length (rows T) →
  ∃ T',
    relabel T (Some nl) inplace
    = Ok (if inplace then (T', RetNone) else (T, RetNew T'))
    ∧ index_names T' = required_index
    ∧ keys T' = relabel_keys (keys T) nl
    ∧ wf_dat T'.
Proof.
  intros Hix Hwf Hlen. destruct (keys_two T Hix Hwf) as [Htwo Hwfd].
  unfold relabel.
  set (trajs := if negb inplace then copy T else T).
  assert (wf_dat trajs ∧ rows trajs = rows T
          ∧ index_names trajs = required_index) as (Hwf' & Hrows & Hix').
  { subst trajs. by destruct inplace. }
  destruct (set_column_index trajs "new_label" nl)
    as (T1 & T2 & H1 & H2 & Hn2 & Hk2 & Hw2 & _); [done | by rewrite Hrows |].
  rewrite H1. cbn [mbind result_bind]. rewrite H2.
  cbn [except_KeyError mbind result_bind].
  destruct (drop_level_keys T2 "label" 1)
    as (T3 & H3 & Hn3 & Hk3 & Hw3 & _); [by rewrite Hn2, Hix' | done |].
  rewrite H3. cbn [mbind result_bind].
  destruct (set_names_keys T3 ["t_stamp"; "label"])
    as (T4 & H4 & Hn4 & Hk4 & Hw4 & _); [by rewrite Hn3, Hn2, Hix' | done |].
  rewrite H4. cbn [mbind result_bind].
  destruct (sort_index_keys T4 Hw4) as (Hn5 & Hk5 & Hw5 & _).
  assert (keys (sort_index T4) = sort_by lex_leb (with_labels (keys T) nl))
    as Hk5'.
  { rewrite Hk5, Hk4, Hk3, Hk2.
    replace (keys trajs) with (keys T) by (unfold keys; by rewrite Hrows).
    by rewrite relabel_two. }
  destruct (relabel_fromzero_keys (sort_index T4) inplace)
    as (T6 & H6 & Hn6 & Hk6 & Hw6).
  { by rewrite Hn5. }
  { rewrite Hk5'. apply sort_by_Forall, with_labels_two. }
  { done. }
  rewrite H6. exists T6. split; [by destruct inplace |].
  split; [done |]. split; [| done].
  by rewrite Hk6, Hk5'.
Qed.

(** ** Renumbering from zero *)

Lemma renumber_loop_lookup (old : list Z) (uvs : list Z) :
  ∀ (n : nat) (nu : list Z) (r : nat) (o : Z),
    NoDup uvs →
    length nu = length old →
    old !! r = Some o →
    renumber_loop old n uvs nu !! r
    = if decide (o ∈ uvs) then Some (uint16 (Z.of_nat (n + rank uvs o)))
      else nu !! r.
Proof.
  induction uvs as [|uv uvs IH]; intros n nu r o Hnd Hlen Ho;
    cbn [renumber_loop rank].
  - rewrite decide_False; [done | apply not_elem_of_nil].
  - apply NoDup_cons in Hnd as [Hnotin Hnd].
    rewrite (IH (S n) _ r o) by (done || by apply mask_assign_length).
    rewrite (mask_assign_lookup _ _ _ _ _ o) by done.
    destruct (Z.eqb_spec uv o) as [->|Hne].
    + rewrite decide_False by done. rewrite decide_True by left.
      rewrite Z.eqb_refl. by rewrite Nat.add_0_r.
    + replace (o =? uv) with false by lia.
      destruct (decide (o ∈ uvs)) as [Hin|Hnin].
      * rewrite decide_True by (by right). do 3 f_equal. lia.
      * rewrite decide_False; [done |].
        intros H. apply elem_of_cons in H as [->|H]; done.
Qed.

Lemma renumber_rank (olds : list Z) :
  renumber olds
  = map (fun o => uint16 (Z.of_nat (rank (unique olds) o))) olds.
Proof.
  apply list_eq. intros r. rewrite lookup_map.
  destruct (olds !! r) as [o|] eqn:Ho; simpl.
  - unfold renumber.
    rewrite (renumber_loop_lookup _ _ 0 _ r o);
      [| apply NoDup_unique | by rewrite length_map | done].
    rewrite decide_True; [done |].
    apply elem_of_unique. by eapply list_elem_of_lookup_2.
  - apply lookup_ge_None. rewrite renumber_length. by apply lookup_ge_None.
Qed.

Lemma rank_lt (u : list Z) (v : Z) : v ∈ u → (rank u v < length u)%nat.
Proof.
  induction u as [|x u IH]; simpl; [by intros H; inversion H |].
  intros H. destruct (Z.eqb_spec x v) as [->|Hne]; [lia |].
  apply elem_of_cons in H as [->|H]; [done |]. specialize (IH H). lia.
Qed.

Lemma rank_inj (u : list Z) (v w : Z) :
  v ∈ u → w ∈ u → rank u v = rank u w → v = w.
Proof.
  induction u as [|x u IH]; simpl; [by intros H; inversion H |].
  intros Hv Hw.
  destruct (Z.eqb_spec x v) as [Hxv|Hxv], (Z.eqb_spec x w) as [Hxw|Hxw];
    try done; [congruence |].
  intros [= H]. apply IH; [| | done].
  - apply elem_of_cons in Hv as [->|Hv]; done.
  - apply elem_of_cons in Hw as [->|Hw]; done.
Qed.

Lemma map_rank (u : list Z) :
  NoDup u → map (rank u) u = seq 0 (length u).
Proof.
  induction 1 as [|x u Hx Hnd IH]; simpl; [done |].
  rewrite Z.eqb_refl. f_equal. rewrite <- seq_shift, <- IH, map_map.
  apply map_ext_in. intros y Hy. apply list_elem_of_In in Hy.
  destruct (Z.eqb_spec x y) as [->|Hne]; done.
Qed.

Lemma filter_neq_map (f : Z -> Z) (x : Z) (l : list Z) :
  (∀ y, y ∈ l → f y = f x → y = x) →
  List.filter (fun z => negb (z =? f x)) (map f l)
  = map f (List.filter (fun z => negb (z =? x)) l).
Proof.
  induction l as [|y l IH]; intros H; simpl; [done |].
  rewrite IH by (intros z Hz; apply H; by right).
  destruct (Z.eqb_spec (f y) (f x)) as [Hf|Hf].
  - rewrite (H y) by (done || left). by rewrite Z.eqb_refl.
  - destruct (Z.eqb_spec y x) as [->|Hne]; done.
Qed.

Lemma unique_map (f : Z -> Z) (l : list Z) :
  (∀ x y, x ∈ l → y ∈ l → f x = f y → x = y) →
  unique (map f l) = map f (unique l).
Proof.
  induction l as [|x l IH]; intros H; simpl; [done |].
  rewrite IH by (intros y z Hy Hz Hf; apply H; [by right | by right | done]).
  f_equal. apply filter_neq_map.
  intros y Hy Hf. apply (proj1 (elem_of_unique _ _)) in Hy.
  apply H; [by right | left | done].
Qed.

Lemma uint16_small (n : nat) :
  Z.of_nat n < 65536 → uint16 (Z.of_nat n) = Z.of_nat n.
Proof. intros H. unfold uint16. apply Z.mod_small. lia. Qed.

Lemma renumber_inj (olds : list Z) (v w : Z) :
  Z.of_nat (length (unique olds)) ≤ 65536 →
  v ∈ olds → w ∈ olds →
  uint16 (Z.of_nat (rank (unique olds) v))
  = uint16 (Z.of_nat (rank (unique olds) w)) →
  v = w.
Proof.
  intros Hlen Hv Hw.
  apply (proj2 (elem_of_unique _ _)) in Hv.
  apply (proj2 (elem_of_unique _ _)) in Hw.
  pose proof (rank_lt _ _ Hv). pose proof (rank_lt _ _ Hw).
  rewrite !uint16_small by lia. intros H'.
  apply (rank_inj (unique olds)); [done | done | lia].
Qed.

Lemma unique_renumber (olds : list Z) :
  Z.of_nat (length (unique olds)) ≤ 65536 →
  unique (renumber olds) = arange (length (unique olds)).
Proof.
  intros Hlen. rewrite renumber_rank.
  rewrite unique_map by (intros x y; by apply renumber_inj).
  unfold arange. rewrite <- map_rank by apply NoDup_unique.
  rewrite map_map. apply map_ext_in. intros v Hv.
  apply list_elem_of_In in Hv. apply uint16_small.
  pose proof (rank_lt _ _ Hv). lia.
Qed.

Lemma unique_length_Permutation (l k : list Z) :
  l ≡ₚ k → length (unique l) = length (unique k).
Proof.
  intros H. apply Permutation_length. apply NoDup_Permutation.
  - apply NoDup_unique.
  - apply NoDup_unique.
  - intros x. rewrite !elem_of_unique. by rewrite H.
Qed.

Lemma labels_of_with_labels (ks : list (list Z)) :
  ∀ vs, length vs = length ks →
        map (fun k => nth 1 k 0) (with_labels ks vs) = vs.
Proof.
  unfold with_labels. induction ks as [|k ks IH]; intros [|v vs] H;
    simpl in *; try done.
  f_equal. apply IH. lia.
Qed.

Lemma sorted_labels_Permutation (ks : list (list Z)) (nl : list Z) :
  length nl = length ks →
  map (fun k => nth 1 k 0) (sort_by lex_leb (with_labels ks nl)) ≡ₚ nl.
Proof.
  intros H. rewrite <- (labels_of_with_labels ks nl H) at 2.
  apply Permutation_map, sort_by_Permutation.
Qed.

Lemma get_level_values_label (T : Trajectories) :
  index_names T = required_index →
  get_level_values T "label" = Ok (map (fun k => nth 1 k 0) (keys T)).
Proof.
  intros Hix. unfold get_level_values, position, keys. rewrite Hix.
  simpl. by rewrite map_map.
Qed.



(** C6 (amended).  [Trajectories.relabel] sets the label level to the
    supplied labels, sorts the index and then calls [relabel_fromzero]
    itself: the labels of the result are the numbers [0, ..., k-1], in
    the order of their first appearance, [k] being the number of distinct
    new labels (at most [2^16], the width of the renumbered array). *)
Theorem C6_relabel_renumbers_from_zero (T : Trajectories) (nl : list Z)
    (inplace : bool) :
  index_names T = required_index →
  wf T = true →
  length nl = length (rows T) →
  Z.of_nat (length (unique nl)) ≤ 65536 →
  ∃ T' vs,
    relabel T (Some nl) inplace
    = Ok (if inplace then (T', RetNone) else (T, RetNew T'))
    ∧ keys T'
      = fromzero_keys (sort_by lex_leb (with_labels (keys T) nl))
    ∧ get_level_values T' "label" = Ok vs
    ∧ unique vs = arange (length (unique nl)).
Proof.
  intros Hix Hwf Hlen Hk.
  destruct (relabel_keys_ok T nl inplace Hix Hwf Hlen)
    as (T' & Hrel & Hix' & Hkeys & _).
  assert (length nl = length (keys T)) as Hlen'.
  { unfold keys. by rewrite length_map. }
  exists T', (renumber (map (fun k => nth 1 k 0)
                            (sort_by lex_leb (with_labels (keys T) nl)))).
  split; [done |]. split; [done |]. split.
  - rewrite (get_level_values_label T' Hix'), Hkeys.
    unfold relabel_keys, fromzero_keys. f_equal.
    apply labels_of_with_labels. by rewrite renumber_length, length_map.
  - pose proof (unique_length_Permutation _ _
                  (sorted_labels_Permutation (keys T) nl Hlen')) as Hperm.
    rewrite unique_renumber by (by rewrite Hperm).
    by rewrite Hperm.
Qed.

Lemma C6_witness :
  ∃ T' vs,
    relabel two_segments (Some [7; 7; 7; 3; 3; 3]) true
    = Ok (T', RetNone)
    ∧ keys T'
      = fromzero_keys
          (sort_by lex_leb
             (with_labels (keys two_segments) [7; 7; 7; 3; 3; 3]))
    ∧ get_level_values T' "label" = Ok vs
    ∧ unique vs = arange (length (unique [7; 7; 7; 3; 3; 3])).
Proof.
  apply (C6_relabel_renumbers_from_zero two_segments [7; 7; 7; 3; 3; 3] true).
  - reflexivity.
  - reflexivity.
  - reflexivity.
  - simpl. lia.
Defined.

(** C6 as stated fails: the labels 7 and 3 given to [relabel], directly
    or through [relabel_trajs] of a solver, are not the labels of the
    result; [relabel_fromzero] has turned them into 0 and 1. *)
Lemma C6_labels_not_kept :
  (∃ T', relabel two_segments (Some [7; 7; 7; 3; 3; 3]) true
         = Ok (T', RetNone)
         ∧ get_level_values T' "label" = Ok [0; 0; 0; 1; 1; 1])
  ∧ (∃ self', relabel_trajs (solver_of two_segments 5) [7; 7; 7; 3; 3; 3]
              = Ok self'
              ∧ get_level_values (trajs self') "label"
                = Ok [0; 0; 0; 1; 1; 1]).
Proof.
  split; eexists; (split; [vm_compute; reflexivity | reflexivity]).
Qed.

(** ** Uniqueness of the keys *)






(** ** Sorted lists *)

Section Sorted.
Context {A : Type} (leb : A -> A -> bool).
Hypothesis leb_total : ∀ a b, leb a b = false → leb b a = true.
Hypothesis leb_trans : ∀ a b c, leb a b = true → leb b c = true → leb a c = true.

Lemma insert_sorted_sorted (x : A) (l : list A) :
  StronglySorted (fun a b => leb a b = true) l →
  StronglySorted (fun a b => leb a b = true) (insert_sorted leb x l).
Proof using leb_total leb_trans.
  induction 1 as [|y l Hl IH Hy]; simpl.
  - repeat constructor.
  - destruct (leb x y) eqn:E.
    + constructor; [by constructor |].
      constructor; [done |].
      eapply Forall_impl; [exact Hy |]. intros z Hz. by eapply leb_trans.
    + constructor; [done |].
      apply Forall_forall. intros z Hz. apply insert_sorted_elem in Hz as [->|Hz].
      * by apply leb_total.
      * by eapply Forall_forall in Hy.
Qed.

Lemma sort_by_sorted (l : list A) :
  StronglySorted (fun a b => leb a b = true) (sort_by leb l).
Proof using leb_total leb_trans.
  induction l as [|x l IH]; simpl; [constructor | by apply insert_sorted_sorted].
Qed.

Lemma sort_by_of_sorted (l : list A) :
  StronglySorted (fun a b => leb a b = true) l → sort_by leb l = l.
Proof using leb_total.
  induction 1 as [|y l Hl IH Hy]; simpl; [done |].
  rewrite IH. destruct l as [|z l']; simpl; [done |].
  by rewrite (Forall_inv Hy).
Qed.
End Sorted.

Lemma lex_leb_total (a b : list Z) : lex_leb a b = false → lex_leb b a = true.
Proof.
  revert b. induction a as [|x a IH]; intros [|y b]; simpl; try done.
  intros H. apply orb_false_iff in H as [H1 H2].
  apply Z.ltb_ge in H1. apply andb_false_iff in H2.
  destruct (Z.eqb_spec x y) as [->|Hne].
  - destruct H2 as [H2|H2]; [done |]. rewrite Z.eqb_refl, (IH _ H2).
    by rewrite orb_true_r.
  - replace (y <? x) with true; [done |]. symmetry. apply Z.ltb_lt. lia.
Qed.

Lemma lex_leb_trans (a b c : list Z) :
  lex_leb a b = true → lex_leb b c = true → lex_leb a c = true.
Proof.
  revert b c. induction a as [|x a IH]; intros [|y b] [|z c]; simpl; try done.
  intros H1 H2.
  apply orb_true_iff in H1 as [H1|H1]; apply orb_true_iff in H2 as [H2|H2].
  - apply Z.ltb_lt in H1, H2. replace (x <? z) with true; [done |].
    symmetry. apply Z.ltb_lt. lia.
  - apply Z.ltb_lt in H1. apply andb_true_iff in H2 as [H2 _].
    apply Z.eqb_eq in H2 as <-. replace (x <? y) with true; [done |].
    symmetry. by apply Z.ltb_lt.
  - apply Z.ltb_lt in H2. apply andb_true_iff in H1 as [H1 _].
    apply Z.eqb_eq in H1 as ->. replace (y <? z) with true; [done |].
    symmetry. by apply Z.ltb_lt.
  - apply andb_true_iff in H1 as [H1 H1']. apply andb_true_iff in H2 as [H2 H2'].
    apply Z.eqb_eq in H1 as ->. apply Z.eqb_eq in H2 as ->.
    rewrite Z.eqb_refl, (IH _ _ H1' H2'). by rewrite orb_true_r.
Qed.

(** ** The label level replaced, on whole tables *)

Lemma delete_insert_same {A : Type} (l : list A) (p : nat) (x : A) :
  delete p (<[p := x]> l) = delete p l.
Proof.
  revert p. induction l as [|y l IH]; intros [|p]; simpl; try done.
  by rewrite IH.
Qed.

Lemma wf_wf_dat (T : Trajectories) : wf T = true → wf_dat T.
Proof.
  intros Hwf. unfold wf in Hwf. rewrite forallb_forall in Hwf.
  apply Forall_forall. intros r Hr. apply list_elem_of_In in Hr.
  specialize (Hwf r Hr). apply andb_prop in Hwf as [_ H2].
  by apply Nat.eqb_eq in H2.
Qed.

Lemma without_column_absent (name : string) (T : Trajectories) :
  mem name (columns T) = false → without_column name T = T.
Proof.
  unfold mem, without_column. by destruct (index_of name (columns T)).
Qed.

Lemma without_column_names (name : string) (T : Trajectories) :
  index_names (without_column name T) = index_names T
  ∧ old_indexes (without_column name T) = old_indexes T
  ∧ length (rows (without_column name T)) = length (rows T)
  ∧ map ix (rows (without_column name T)) = map ix (rows T).
Proof.
  unfold without_column. destruct (index_of name (columns T)); [| done].
  cbn [index_names old_indexes rows]. rewrite length_map, map_map. done.
Qed.

Lemma without_column_wf_dat (name : string) (T : Trajectories) :
  wf_dat T → wf_dat (without_column name T).
Proof.
  unfold without_column, wf_dat.
  destruct (index_of name (columns T)) as [p|] eqn:E; [| done].
  intros H. cbn [rows columns]. apply Forall_forall.
  intros r' Hr'. apply elem_of_map in Hr' as (r & -> & Hr).
  eapply Forall_forall in H; [| exact Hr]. cbn [dat].
  apply index_of_lt in E.
  rewrite !length_delete; [by rewrite H | |]; apply lookup_lt_is_Some; lia.
Qed.

(** [trajs[name] = zs] followed by [trajs.set_index(name, append=True)] *)
Lemma add_level (T : Trajectories) (name : string) (zs : list Z) :
  wf_dat T →
  length zs = length (rows T) →
  ∃ T1,
    set_column T name (map Int zs) = Ok T1
    ∧ set_index_append T1 name
      = Ok (Trajs (index_names T ++ [name])
              (columns (without_column name T))
              (zip_with (fun r z => Row (ix r ++ [z]) (dat r))
                        (rows (without_column name T)) zs)
              (old_indexes T)).
Proof.
  intros Hwf Hlen. unfold wf_dat in Hwf. rewrite Forall_forall in Hwf.
  unfold set_column, without_column. rewrite length_map, Hlen, Nat.eqb_refl.
  cbn [negb]. destruct (index_of name (columns T)) as [p|] eqn:E.
  - pose proof (index_of_lt _ _ _ E) as Hp.
    eexists. split; [reflexivity |].
    unfold set_index_append, position, with_rows.
    cbn [columns rows index_names old_indexes]. rewrite E.
    cbn [mbind result_bind]. rewrite zip_with_map_r.
    rewrite (mapM_zip_with _ _
               (fun r z => Row (ix r ++ [z]) (delete p (dat r)))).
    2:{ intros r v Hr. cbn [ix dat]. rewrite nth_lookup.
        specialize (Hwf r Hr).
        rewrite list_lookup_insert_eq by lia. simpl.
        by rewrite delete_insert_same. }
    cbn [mbind result_bind]. do 2 f_equal.
    symmetry. apply (zip_with_fmap_l (fun r z => Row (ix r ++ [z]) (dat r))).
  - eexists. split; [reflexivity |].
    unfold set_index_append, position.
    cbn [columns rows index_names old_indexes].
    rewrite (index_of_app_new _ _ E). cbn [mbind result_bind].
    rewrite zip_with_map_r.
    rewrite (mapM_zip_with _ _ (fun r v => Row (ix r ++ [v]) (dat r))).
    2:{ intros r v Hr. cbn [ix dat]. specialize (Hwf r Hr).
        rewrite nth_lookup, lookup_app_r by lia.
        rewrite Hwf, Nat.sub_diag. simpl. f_equal. f_equal.
        rewrite <- Hwf, delete_middle. apply app_nil_r. }
    cbn [mbind result_bind]. f_equal. f_equal.
    rewrite (delete_middle (columns T) [] name). apply app_nil_r.
Qed.

Lemma zip_with_ext_in {A B C : Type} (f g : A -> B -> C) (l : list A) :
  ∀ k, (∀ a b, a ∈ l → f a b = g a b) → zip_with f l k = zip_with g l k.
Proof.
  induction l as [|a l IH]; intros [|b k] H; simpl; try done.
  rewrite H by left. f_equal. apply IH. intros ? ? ?. apply H. by right.
Qed.

Lemma map_zip_with {A B C D : Type} (f : C -> D) (g : A -> B -> C) (l : list A) :
  ∀ k, map f (zip_with g l k) = zip_with (fun a b => f (g a b)) l k.
Proof.
  induction l as [|a l IH]; intros [|b k]; simpl; try done. by rewrite IH.
Qed.

(** The four statements that [relabel] and [relabel_fromzero] share. *)
Lemma replace_label_level (T : Trajectories) (zs : list Z) :
  index_names T = required_index →
  wf T = true →
  length zs = length (rows T) →
  ∃ T1 T2,
    set_column T "new_label" (map Int zs) = Ok T1
    ∧ set_index_append T1 "new_label" = Ok T2
    ∧ (T3 ← drop_level T2 "label"; set_names T3 ["t_stamp"; "label"])
      = Ok (set_labels (without_column "new_label" T) zs).
Proof.
  intros Hix Hwf Hlen.
  destruct (add_level T "new_label" zs (wf_wf_dat _ Hwf) Hlen) as (T1 & H1 & H2).
  eexists _, _. split; [exact H1 |]. split; [exact H2 |].
  unfold drop_level, position. cbn [index_names]. rewrite Hix.
  simpl index_of. cbn [mbind result_bind columns rows old_indexes].
  unfold set_names. cbn [index_names]. simpl length. cbn [Nat.eqb negb].
  unfold set_labels. cbn [columns rows old_indexes].
  destruct (without_column_names "new_label" T) as (_ & -> & _ & Hk).
  f_equal. f_equal.
  rewrite map_zip_with. apply zip_with_ext_in. intros r z Hr. cbn [ix dat].
  destruct (keys_two T Hix Hwf) as [Htwo _]. unfold keys in Htwo.
  rewrite <- Hk in Htwo. rewrite Forall_forall in Htwo.
  specialize (Htwo (ix r)). unfold relabelled, t_stamp_of.
  destruct r as [[|t [|l [|x i]]] d]; cbn [ix dat] in *;
    try (exfalso; by discriminate Htwo; [apply elem_of_map; eexists; eauto]);
    try done.
  all: exfalso; assert (H := Htwo ltac:(apply elem_of_map; eexists; split; [| exact Hr]; done)); done.
Qed.

Lemma set_labels_wf (T : Trajectories) (zs : list Z) :
  wf_dat T → wf (set_labels T zs) = true.
Proof.
  intros Hwf. unfold wf_dat in Hwf. rewrite Forall_forall in Hwf.
  unfold wf. apply forallb_forall. intros r Hr.
  apply list_elem_of_In in Hr. cbn [set_labels rows] in Hr.
  apply elem_of_lookup_zip_with in Hr as (i & r0 & z & -> & Hr0 & _).
  cbn [relabelled ix dat set_labels index_names columns required_index].
  apply list_elem_of_lookup_2 in Hr0. rewrite (Hwf _ Hr0).
  by rewrite !Nat.eqb_refl.
Qed.

Lemma sort_index_wf (T : Trajectories) : wf T = true → wf (sort_index T) = true.
Proof.
  unfold wf. rewrite !forallb_forall. intros H r Hr. apply H.
  apply list_elem_of_In. apply list_elem_of_In in Hr.
  cbn [sort_index with_rows rows] in Hr. by apply sort_by_elem in Hr.
Qed.

(** [relabel_fromzero] on a whole table: the records keep their order,
    their frame and their cells; the column [new_label], if the table has
    one, is used up. *)
Lemma relabel_fromzero_table (T : Trajectories) (inplace : bool) :
  index_names T = required_index →
  wf T = true →
  relabel_fromzero T "label" inplace
  = Ok (let T' := set_labels
                    (without_column "new_label" (if inplace then T else copy T))
                    (renumber (map label_of (rows T))) in
        if inplace then (T', RetNone) else (T, RetNew T')).
Proof.
  intros Hix Hwf. unfold relabel_fromzero, get_level_values, position.
  rewrite Hix. simpl index_of. cbn [mbind result_bind].
  change (map (fun r => nth 1 (ix r) 0) (rows T)) with (map label_of (rows T)).
  set (zs := renumber (map label_of (rows T))).
  set (trajs := if negb inplace then copy T else T).
  assert (trajs = if inplace then T else copy T) as Etr by (by destruct inplace).
  assert (index_names trajs = required_index ∧ wf trajs = true
          ∧ rows trajs = rows T) as (Hix' & Hwf' & Hrows).
  { subst trajs. by destruct inplace. }
  destruct (replace_label_level trajs zs Hix' Hwf') as (T1 & T2 & H1 & H2 & H3).
  { subst zs. by rewrite renumber_length, length_map, Hrows. }
  rewrite H1. cbn [mbind result_bind]. rewrite H2. cbn [mbind result_bind].
  destruct (drop_level T2 "label") as [T3|e]; cbn [mbind result_bind] in *;
    [| done].
  rewrite H3. cbn [mbind result_bind]. rewrite <- Etr. by destruct inplace.
Qed.

(** [relabel] on a whole table. *)
Lemma relabel_table (T : Trajectories) (nl : list Z) (inplace : bool) :
  index_names T = required_index →
  wf T = true →
  length nl = length (rows T) →
  relabel T (Some nl) inplace
  = Ok (let S := sort_index
                   (set_labels
                      (without_column "new_label" (if inplace then T else copy T))
                      nl) in
        let T' := set_labels (without_column "new_label" S)
                    (renumber (map label_of (rows S))) in
        if inplace then (T', RetNone) else (T, RetNew T')).
Proof.
  intros Hix Hwf Hlen. unfold relabel.
  set (trajs := if negb inplace then copy T else T).
  assert (trajs = if inplace then T else copy T) as Etr by (by destruct inplace).
  assert (index_names trajs = required_index ∧ wf trajs = true
          ∧ rows trajs = rows T
          ∧ (inplace = false → old_indexes trajs = None))
    as (Hix' & Hwf' & Hrows & Hold).
  { subst trajs. by destruct inplace. }
  destruct (replace_label_level trajs nl Hix' Hwf') as (T1 & T2 & H1 & H2 & H3).
  { by rewrite Hrows. }
  rewrite H1. cbn [mbind result_bind]. rewrite H2.
  cbn [except_KeyError mbind result_bind].
  destruct (drop_level T2 "label") as [T3|e]; cbn [mbind result_bind] in *;
    [| done].
  rewrite H3. cbn [mbind result_bind]. rewrite <- Etr.
  set (S := sort_index (set_labels (without_column "new_label" trajs) nl)).
  rewrite (relabel_fromzero_table S inplace).
  - cbn [mbind result_bind]. destruct inplace; [done |].
    replace (copy S) with S; [done |]. symmetry. apply copy_no_attribute.
    subst S. cbn [sort_index with_rows old_indexes set_labels].
    destruct (without_column_names "new_label" trajs) as (_ & -> & _).
    by apply Hold.
  - done.
  - subst S. apply sort_index_wf, set_labels_wf, without_column_wf_dat.
    by apply wf_wf_dat.
Qed.

(** ** [relabel_fromzero] and [relabel] on whole tables *)

Lemma NoDup_arange (n : nat) : NoDup (arange n).
Proof.
  unfold arange. apply NoDup_fmap_2; [| apply NoDup_seq].
  intros a b. lia.
Qed.

Lemma rank_arange (n : nat) (z : Z) :
  0 ≤ z < Z.of_nat n → rank (arange n) z = Z.to_nat z.
Proof.
  intros Hz. pose proof (map_rank (arange n) (NoDup_arange n)) as H.
  apply (f_equal (fun l => l !! Z.to_nat z)) in H.
  rewrite lookup_map, (arange_lookup n z Hz) in H. simpl in H.
  unfold arange in H. rewrite length_map, length_seq in H.
  rewrite lookup_seq_lt in H by lia. by injection H.
Qed.

Lemma renumber_idempotent (olds : list Z) :
  Z.of_nat (length (unique olds)) ≤ 65536 →
  renumber (renumber olds) = renumber olds.
Proof.
  intros Hk. rewrite (renumber_rank (renumber olds)).
  rewrite (unique_renumber olds Hk).
  rewrite <- (map_id (renumber olds)) at 2. apply map_ext_in.
  intros z Hz. apply list_elem_of_In in Hz.
  apply elem_of_unique in Hz. rewrite (unique_renumber olds Hk) in Hz.
  apply elem_of_arange in Hz. rewrite rank_arange by done.
  rewrite Z2Nat.id by lia. unfold uint16. apply Z.mod_small. lia.
Qed.

Lemma zip_with_relabelled_labels (rs : list row) :
  ∀ zs, length zs = length rs →
        map label_of (zip_with relabelled rs zs) = zs.
Proof.
  induction rs as [|r rs IH]; intros [|z zs] H; simpl in *; try done.
  f_equal. apply IH. lia.
Qed.

Lemma zip_with_relabelled_twice (rs : list row) :
  ∀ zs, zip_with relabelled (zip_with relabelled rs zs) zs
        = zip_with relabelled rs zs.
Proof.
  induction rs as [|r rs IH]; intros [|z zs]; simpl; try done.
  by rewrite IH.
Qed.

Lemma zip_with_relabelled_frames (rs : list row) :
  ∀ zs, length zs = length rs →
        map t_stamp_of (zip_with relabelled rs zs) = map t_stamp_of rs
        ∧ map dat (zip_with relabelled rs zs) = map dat rs.
Proof.
  induction rs as [|r rs IH]; intros [|z zs] H; simpl in *; try done.
  destruct (IH zs) as [-> ->]; [lia | done].
Qed.

(** X1. [relabel_fromzero] only renames labels and is idempotent: on a
    table indexed by [(t_stamp, label)] without a column [new_label] and
    with at most 2^16 labels, the records keep their order, their frame and
    their cells, the columns are unchanged, and a second call leaves the
    table as the first one made it. *)
Theorem relabel_fromzero_idempotent (T : Trajectories) :
  index_names T = required_index →
  wf T = true →
  mem "new_label" (columns T) = false →
  Z.of_nat (length (unique (map label_of (rows T)))) ≤ 65536 →
  ∃ T',
    relabel_fromzero T "label" true = Ok (T', RetNone)
    ∧ index_names T' = index_names T
    ∧ columns T' = columns T
    ∧ map t_stamp_of (rows T') = map t_stamp_of (rows T)
    ∧ map dat (rows T') = map dat (rows T)
    ∧ relabel_fromzero T' "label" true = Ok (T', RetNone).
Proof.
  intros Hix Hwf Hnew Hk.
  set (zs := renumber (map label_of (rows T))).
  assert (length zs = length (rows T)) as Hlen.
  { subst zs. by rewrite renumber_length, length_map. }
  exists (set_labels T zs).
  rewrite (relabel_fromzero_table T true Hix Hwf).
  cbn zeta. rewrite (without_column_absent _ _ Hnew). fold zs.
  split; [done |]. split; [by rewrite Hix |]. split; [done |].
  cbn [set_labels rows].
  destruct (zip_with_relabelled_frames (rows T) zs Hlen) as [Ht Hd].
  split; [done |]. split; [done |].
  rewrite (relabel_fromzero_table (set_labels T zs) true);
    [| done | by apply set_labels_wf, wf_wf_dat].
  cbn zeta. rewrite (without_column_absent _ (set_labels T zs)) by done.
  cbn [set_labels rows columns old_indexes].
  rewrite (zip_with_relabelled_labels _ _ Hlen). subst zs.
  rewrite (renumber_idempotent _ Hk).
  unfold set_labels. cbn [rows columns old_indexes].
  by rewrite zip_with_relabelled_twice.
Qed.

Lemma relabel_fromzero_idempotent_witness :
  ∃ T',
    relabel_fromzero labels_from_one "label" true = Ok (T', RetNone)
    ∧ index_names T' = index_names labels_from_one
    ∧ columns T' = columns labels_from_one
    ∧ map t_stamp_of (rows T') = map t_stamp_of (rows labels_from_one)
    ∧ map dat (rows T') = map dat (rows labels_from_one)
    ∧ relabel_fromzero T' "label" true = Ok (T', RetNone).
Proof.
  apply (relabel_fromzero_idempotent labels_from_one).
  - reflexivity.
  - reflexivity.
  - reflexivity.
  - vm_compute. discriminate.
Defined.

Lemma StronglySorted_map {A B : Type} (R : A -> A -> Prop) (Q : B -> B -> Prop)
    (f : A -> B) (l : list A) :
  (∀ a b, a ∈ l → b ∈ l → R a b → Q (f a) (f b)) →
  StronglySorted R l → StronglySorted Q (map f l).
Proof.
  intros H Hs. induction Hs as [|x l Hl IH Hx]; simpl; constructor.
  - apply IH. intros a b Ha Hb. apply H; by right.
  - apply Forall_forall. intros y Hy. apply elem_of_map in Hy as (a & -> & Ha).
    apply H; [by left | by right |]. by eapply Forall_forall in Hx.
Qed.

Lemma sort_index_rows_sorted (T : Trajectories) :
  StronglySorted (fun r1 r2 => ix_leb r1 r2 = true) (rows (sort_index T)).
Proof.
  cbn [sort_index with_rows rows]. apply (sort_by_sorted ix_leb).
  - intros a b. apply lex_leb_total.
  - intros a b c. apply lex_leb_trans.
Qed.

Lemma lex_leb_head (t1 l1 t2 l2 : Z) :
  lex_leb [t1; l1] [t2; l2] = true → t1 ≤ t2.
Proof.
  simpl. intros H. apply orb_true_iff in H as [H|H].
  - apply Z.ltb_lt in H. lia.
  - apply andb_true_iff in H as [H _]. apply Z.eqb_eq in H. lia.
Qed.

Lemma zip_with_map_both {A B C D : Type} (h : A -> C -> D) (f : A -> B)
    (g : B -> C) (l : list A) :
  zip_with h l (map g (map f l)) = map (fun a => h a (g (f a))) l.
Proof.
  induction l as [|a l IH]; simpl; [done |]. by rewrite IH.
Qed.

(** X2. [relabel] renames the labels and loses no record: on a table
    indexed by [(t_stamp, label)] without a column [new_label], given one
    new label per record and at most 2^16 distinct new labels, the result
    holds the records of the table, each with its frame and its cells and
    with the label [phi n] where [n] is the new label it was given; [phi]
    is one-to-one on the new labels, so two records share a label in the
    result exactly when they were given the same new label; the records
    come out in ascending order of their frames, and the columns are
    unchanged. *)
Theorem relabel_keeps_records (T : Trajectories) (nl : list Z) (inplace : bool) :
  index_names T = required_index →
  wf T = true →
  length nl = length (rows T) →
  mem "new_label" (columns T) = false →
  Z.of_nat (length (unique nl)) ≤ 65536 →
  ∃ T' phi,
    relabel T (Some nl) inplace
    = Ok (if inplace then (T', RetNone) else (T, RetNew T'))
    ∧ index_names T' = required_index
    ∧ columns T' = columns T
    ∧ rows T' ≡ₚ zip_with (fun r n => relabelled r (phi n)) (rows T) nl
    ∧ (∀ a b, a ∈ nl → b ∈ nl → phi a = phi b → a = b)
    ∧ StronglySorted Z.le (map t_stamp_of (rows T')).
Proof.
  intros Hix Hwf Hlen Hnew Hk.
  rewrite (relabel_table T nl inplace Hix Hwf Hlen). cbn zeta.
  set (trajs := if inplace then T else copy T).
  assert (columns trajs = columns T ∧ rows trajs = rows T) as [Hc Hr].
  { subst trajs. by destruct inplace. }
  rewrite (without_column_absent _ trajs) by (by rewrite Hc).
  set (S := sort_index (set_labels trajs nl)).
  rewrite (without_column_absent _ S) by (by subst S; cbn; rewrite Hc).
  set (olds := map label_of (rows S)).
  set (phi := fun o => uint16 (Z.of_nat (rank (unique olds) o))).
  assert (rows S ≡ₚ zip_with relabelled (rows T) nl) as HS.
  { subst S. cbn [sort_index with_rows rows set_labels]. rewrite Hr.
    apply sort_by_Permutation. }
  assert (olds ≡ₚ nl) as Holds.
  { subst olds. rewrite HS. by rewrite zip_with_relabelled_labels. }
  exists (set_labels S (renumber olds)), phi.
  split; [by destruct inplace |]. split; [done |].
  split; [by subst S; cbn; rewrite Hc |].
  assert (rows (set_labels S (renumber olds))
          = map (fun r => relabelled r (phi (label_of r))) (rows S)) as Hrows.
  { cbn [set_labels rows]. rewrite renumber_rank. subst olds.
    apply (zip_with_map_both relabelled label_of phi). }
  split; [| split].
  - rewrite Hrows, HS, map_zip_with. done.
  - intros a b Ha Hb. apply (renumber_inj olds).
    + by rewrite (unique_length_Permutation _ _ Holds).
    + by rewrite Holds.
    + by rewrite Holds.
  - rewrite Hrows, map_map. cbn [relabelled t_stamp_of ix nth].
    apply (StronglySorted_map (fun r1 r2 => ix_leb r1 r2 = true)).
    2:{ apply sort_index_rows_sorted. }
    intros a b Ha Hb. subst S. cbn [sort_index with_rows rows set_labels] in Ha, Hb.
    apply sort_by_elem in Ha, Hb.
    apply elem_of_lookup_zip_with in Ha as (? & ra & za & -> & _).
    apply elem_of_lookup_zip_with in Hb as (? & rb & zb & -> & _).
    unfold ix_leb. cbn [relabelled ix]. apply lex_leb_head.
Qed.

Lemma relabel_keeps_records_witness :
  ∃ T' phi,
    relabel two_segments (Some [7; 7; 7; 3; 3; 3]) true = Ok (T', RetNone)
    ∧ index_names T' = required_index
    ∧ columns T' = columns two_segments
    ∧ rows T' ≡ₚ zip_with (fun r n => relabelled r (phi n))
                   (rows two_segments) [7; 7; 7; 3; 3; 3]
    ∧ (∀ a b, a ∈ [7; 7; 7; 3; 3; 3] → b ∈ [7; 7; 7; 3; 3; 3] →
              phi a = phi b → a = b)
    ∧ StronglySorted Z.le (map t_stamp_of (rows T')).
Proof.
  apply (relabel_keeps_records two_segments [7; 7; 7; 3; 3; 3] true).
  - reflexivity.
  - reflexivity.
  - reflexivity.
  - reflexivity.
  - vm_compute. discriminate.
Defined.

(** X3. The two ways in which [relabel] refuses its arguments: without
    new labels and without a column [new_label] it raises the [KeyError]
    with its own message; with new labels whose number differs from the
    number of records it raises the [ValueError] of the column
    assignment.  Both hold whatever [inplace] is. *)
Theorem relabel_refuses (T : Trajectories) (inplace : bool) :
  (mem "new_label" (columns T) = false →
   relabel T None inplace = Raise (KeyError err_new_label))
  ∧ (∀ nl, length nl ≠ length (rows T) →
           relabel T (Some nl) inplace = Raise (ValueError mess_length [])).
Proof.
  split.
  - intros Hnew. unfold relabel. cbn [mbind result_bind].
    unfold set_index_append, position.
    replace (index_of "new_label" (columns (if negb inplace then copy T else T)))
      with (@None nat); [done |].
    unfold mem in Hnew. destruct inplace; cbn [negb copy columns];
      by destruct (index_of "new_label" (columns T)).
  - intros nl Hlen. unfold relabel, set_column. rewrite length_map.
    replace (length (rows (if negb inplace then copy T else T)))
      with (length (rows T)) by (by destruct inplace).
    apply Nat.eqb_neq in Hlen. by rewrite Hlen.
Qed.

Lemma relabel_refuses_witness :
  relabel two_segments None true = Raise (KeyError err_new_label)
  ∧ relabel two_segments (Some [0; 1]) true = Raise (ValueError mess_length []).
Proof.
  destruct (relabel_refuses two_segments true) as [H1 H2]. split.
  - apply H1. reflexivity.
  - apply H2. simpl. lia.
Defined.

(** ** Candidate pairs of [_get_candidates] *)

Lemma candidate_pairs_in_zip (T : Trajectories) (g : Z) (ls : list Z)
    (i o : Z * Z) :
  (i, o) ∈ zip (map (fun p => (start_time T (snd p), snd p))
                    (candidate_pairs T g ls))
               (map (fun p => (start_time T (fst p), fst p))
                    (candidate_pairs T g ls))
  ↔ (snd o, snd i) ∈ candidate_pairs T g ls
    ∧ fst i = start_time T (snd i) ∧ fst o = start_time T (snd o).
Proof.
  rewrite zip_map. rewrite elem_of_map. split.
  - intros ([a b] & [= -> ->] & H). done.
  - intros (H & Hi & Ho). exists (snd o, snd i). split; [| done].
    destruct i, o; simpl in *; by subst.
Qed.

(** X4. Raising [maximum_gap] never loses a candidate: on a table whose
    labels are [0, ..., n-1] in the order of their first appearance, every
    pair (in key, out key) that [_get_candidates] returns for one solver
    is returned for every solver over the same table with a larger
    [maximum_gap]. *)
Theorem candidates_grow_with_maximum_gap (s1 s2 : GapCloseSolver) (n : nat) :
  trajs s1 = trajs s2 →
  maximum_gap s1 ≤ maximum_gap s2 →
  index_names (trajs s1) = required_index →
  mem "label" (columns (trajs s1)) = false →
  unique (map label_of (rows (trajs s1))) = arange n →
  (0 < n)%nat →
  ∃ ins1 outs1 ins2 outs2,
    _get_candidates s1 = Ok (ins1, outs1)
    ∧ _get_candidates s2 = Ok (ins2, outs2)
    ∧ ∀ i o, (i, o) ∈ zip ins1 outs1 → (i, o) ∈ zip ins2 outs2.
Proof.
  intros HT Hg Hix Hcol Hdense Hn.
  eexists _, _, _, _.
  split; [by apply (get_candidates_dense s1 n) |].
  split; [apply (get_candidates_dense s2 n); try rewrite <- HT; done |].
  intros i o. rewrite <- HT. rewrite !candidate_pairs_in_zip.
  intros (H & Hi & Ho). split; [| done].
  apply candidate_pairs_elem in H as (H1 & H2 & H3).
  apply candidate_pairs_elem. split; [done |]. split; [done |]. lia.
Qed.

Lemma candidates_grow_with_maximum_gap_witness :
  ∃ ins1 outs1 ins2 outs2,
    _get_candidates (solver_of three_segments 4) = Ok (ins1, outs1)
    ∧ _get_candidates (solver_of three_segments 5) = Ok (ins2, outs2)
    ∧ ∀ i o, (i, o) ∈ zip ins1 outs1 → (i, o) ∈ zip ins2 outs2.
Proof.
  apply (candidates_grow_with_maximum_gap
           (solver_of three_segments 4) (solver_of three_segments 5) 3).
  - reflexivity.
  - simpl. lia.
  - reflexivity.
  - reflexivity.
  - reflexivity.
  - lia.
Defined.

Lemma candidate_pairs_none (T : Trajectories) (g : Z) (ls : list Z) :
  g ≤ 1 → candidate_pairs T g ls = [].
Proof.
  intros Hg. destruct (candidate_pairs T g ls) as [|[o i] l] eqn:E; [done |].
  assert ((o, i) ∈ candidate_pairs T g ls) as H by (rewrite E; left).
  apply candidate_pairs_elem in H. lia.
Qed.

Section NoGap.
Variable LinkBlock : list Z -> list Z -> CostFunction -> matrix.
Variable DiagBlock : list Z -> CostFunction -> matrix.
Variable solve : list (list (option matrix)) -> CostMatrix.
Variable np_percentile : list Q -> Z -> cost.

(** X5. With [maximum_gap] at most 1 no gap is ever closed: frames are
    integers, so no pair of segments has [0 < gap < maximum_gap];
    [_get_candidates] returns two empty lists and [track] gives the table
    back as it is, without building a block or a cost matrix. *)
Theorem track_without_gap (self : GapCloseSolver) (n : nat) :
  maximum_gap self ≤ 1 →
  index_names (trajs self) = required_index →
  mem "label" (columns (trajs self)) = false →
  unique (map label_of (rows (trajs self))) = arange n →
  (0 < n)%nat →
  _get_candidates self = Ok ([], [])
  ∧ ∃ self',
      track LinkBlock DiagBlock solve np_percentile self
      = Ok (self', trajs self)
      ∧ trajs self' = trajs self
      ∧ cm self' = cm self
      ∧ calls self' = calls self.
Proof using Type.
  intros Hg Hix Hcol Hdense Hn.
  assert (_get_candidates self = Ok ([], [])) as Hc.
  { rewrite (get_candidates_dense self n) by done.
    by rewrite candidate_pairs_none. }
  split; [done |].
  eexists. split; [by apply track_no_candidates |]. done.
Qed.
End NoGap.

Lemma track_without_gap_witness :
  _get_candidates (solver_of two_segments 1) = Ok ([], [])
  ∧ ∃ self',
      track LinkBlock0 DiagBlock0 solve0 percentile_linear
        (solver_of two_segments 1)
      = Ok (self', trajs (solver_of two_segments 1))
      ∧ trajs self' = trajs (solver_of two_segments 1)
      ∧ cm self' = cm (solver_of two_segments 1)
      ∧ calls self' = calls (solver_of two_segments 1).
Proof.
  apply (track_without_gap LinkBlock0 DiagBlock0 solve0 percentile_linear
           (solver_of two_segments 1) 2).
  - simpl. lia.
  - reflexivity.
  - reflexivity.
  - reflexivity.
  - lia.
Defined.

(** ** Tables sorted by frame *)

Lemma StronglySorted_filter_map {A : Type} (f : A -> Z) (p : A -> bool)
    (l : list A) :
  StronglySorted Z.le (map f l) → StronglySorted Z.le (map f (List.filter p l)).
Proof.
  induction l as [|x l IH]; simpl; [done |].
  intros H. apply StronglySorted_inv in H as [Hl Hx].
  destruct (p x); simpl; [| by apply IH].
  constructor; [by apply IH |].
  apply Forall_forall. intros y Hy. apply elem_of_map in Hy as (a & -> & Ha).
  apply list_elem_of_In, filter_In in Ha as [Ha _].
  eapply Forall_forall in Hx; [exact Hx |].
  apply elem_of_map. exists a. split; [done |]. by apply list_elem_of_In.
Qed.

Lemma last_cons_cons {A : Type} (x y : A) (l : list A) (d : A) :
  List.last (x :: y :: l) d = List.last (y :: l) d.
Proof. done. Qed.

Lemma sorted_hd_last (l : list Z) :
  StronglySorted Z.le l → ∀ x, x ∈ l → hd 0 l ≤ x ≤ List.last l 0.
Proof.
  induction 1 as [|y l Hl IH Hy]; intros x Hx; [by apply elem_of_nil in Hx |].
  cbn [hd]. destruct l as [|z l'].
  - apply list_elem_of_singleton in Hx as ->. simpl. lia.
  - rewrite last_cons_cons. apply elem_of_cons in Hx as [->|Hx].
    + split; [lia |]. transitivity z.
      * by apply (Forall_inv Hy).
      * apply IH. by left.
    + split; [| by apply IH]. eapply Forall_forall in Hy; [exact Hy | done].
Qed.

(** In a table sorted by frame every record of a segment lies between
    the start and the stop of the segment. *)
Lemma segment_bounds (T : Trajectories) (l : Z) (r : row) :
  StronglySorted Z.le (map t_stamp_of (rows T)) →
  r ∈ rows T → label_of r = l →
  start_time T l ≤ t_stamp_of r ≤ stop_time T l.
Proof.
  intros Hs Hr Hl. unfold start_time, stop_time.
  apply sorted_hd_last.
  - unfold segment. by apply StronglySorted_filter_map.
  - apply elem_of_map. exists r. split; [done |].
    unfold segment. apply list_elem_of_In, filter_In.
    split; [by apply list_elem_of_In | by apply Z.eqb_eq].
Qed.

Lemma start_le_stop (T : Trajectories) (l : Z) :
  StronglySorted Z.le (map t_stamp_of (rows T)) →
  start_time T l ≤ stop_time T l.
Proof.
  intros Hs. unfold start_time, stop_time.
  assert (StronglySorted Z.le (map t_stamp_of (segment T l))) as H.
  { unfold segment. by apply StronglySorted_filter_map. }
  destruct (map t_stamp_of (segment T l)) as [|x k] eqn:E; [done |].
  pose proof (sorted_hd_last _ H x ltac:(left)) as Hx. lia.
Qed.

(** X6. Candidate links go forward in time: on a table sorted by frame
    whose labels are [0, ..., n-1] in the order of their first appearance,
    every pair that [_get_candidates] returns joins two different
    segments, and the in segment starts, and stops, strictly after the
    out segment does; so no segment is paired with itself and no two
    segments are paired in both directions. *)
Theorem candidates_go_forward (self : GapCloseSolver) (n : nat) :
  StronglySorted Z.le (map t_stamp_of (rows (trajs self))) →
  index_names (trajs self) = required_index →
  mem "label" (columns (trajs self)) = false →
  unique (map label_of (rows (trajs self))) = arange n →
  (0 < n)%nat →
  ∃ ins outs,
    _get_candidates self = Ok (ins, outs)
    ∧ length ins = length outs
    ∧ ∀ i o, (i, o) ∈ zip ins outs →
        snd i ≠ snd o
        ∧ fst o < fst i
        ∧ start_time (trajs self) (snd o) < start_time (trajs self) (snd i)
        ∧ stop_time (trajs self) (snd o) < stop_time (trajs self) (snd i)
        ∧ (snd i, snd o) ∉ zip (map snd outs) (map snd ins).
Proof.
  intros Hs Hix Hcol Hdense Hn.
  eexists _, _. split; [by apply (get_candidates_dense self n) |].
  split; [by rewrite !length_map |].
  intros i o Hio. apply candidate_pairs_in_zip in Hio as (H & Hi & Ho).
  apply candidate_pairs_elem in H as (_ & _ & Hgap).
  pose proof (start_le_stop (trajs self) (snd o) Hs) as H1.
  pose proof (start_le_stop (trajs self) (snd i) Hs) as H2.
  split; [intros E; rewrite E in Hgap; lia |]. split; [lia |].
  split; [lia |]. split; [lia |].
  rewrite !map_map. cbn [fst snd]. rewrite zip_map. intros Hrev.
  apply elem_of_map in Hrev as ([a b] & [= Ea Eb] & Hrev).
  apply candidate_pairs_elem in Hrev as (_ & _ & Hgap').
  simpl in Ea, Eb. rewrite <- Ea, <- Eb in Hgap'. lia.
Qed.

Lemma candidates_go_forward_witness :
  ∃ ins outs,
    _get_candidates (solver_of three_segments 5) = Ok (ins, outs)
    ∧ length ins = length outs
    ∧ ∀ i o, (i, o) ∈ zip ins outs →
        snd i ≠ snd o
        ∧ fst o < fst i
        ∧ start_time three_segments (snd o) < start_time three_segments (snd i)
        ∧ stop_time three_segments (snd o) < stop_time three_segments (snd i)
        ∧ (snd i, snd o) ∉ zip (map snd outs) (map snd ins).
Proof.
  apply (candidates_go_forward (solver_of three_segments 5) 3).
  - apply (bool_decide_unpack _). by vm_compute.
  - reflexivity.
  - reflexivity.
  - reflexivity.
  - lia.
Defined.

(** X7. What [_get_candidates] returns on a table whose labels are
    [0, ..., n-1] in the order of their first appearance: two lists of the
    same length that hold, position by position, the keys of an in segment
    and of an out segment; a pair of labels (out, in) occurs in them
    exactly when [0 < start_time(in) - stop_time(out) < maximum_gap], and
    each key is the start of its segment together with its label. *)
Theorem get_candidates_pairs (self : GapCloseSolver) (n : nat) :
  index_names (trajs self) = required_index →
  mem "label" (columns (trajs self)) = false →
  unique (map label_of (rows (trajs self))) = arange n →
  (0 < n)%nat →
  ∃ ins outs,
    _get_candidates self = Ok (ins, outs)
    ∧ length ins = length outs
    ∧ (∀ o i,
         (o, i) ∈ zip (map snd outs) (map snd ins)
         ↔ o ∈ arange n ∧ i ∈ arange n
           ∧ 0 < start_time (trajs self) i - stop_time (trajs self) o
               < maximum_gap self)
    ∧ Forall (fun k => fst k = start_time (trajs self) (snd k)) (ins ++ outs).
Proof.
  intros Hix Hmem Hdense Hn.
  eexists _, _. split; [by apply (get_candidates_dense self n) |].
  split; [by rewrite !length_map |]. split.
  - intros o i. rewrite !map_map. cbn [snd]. rewrite zip_map.
    rewrite <- candidate_pairs_elem. rewrite elem_of_map. split.
    + by intros ([a b] & [= -> ->] & H).
    + intros H. by exists (o, i).
  - apply Forall_app. split; apply Forall_forall; intros k Hk;
      by apply elem_of_map in Hk as (p & -> & _).
Qed.

Lemma get_candidates_pairs_witness :
  ∃ ins outs,
    _get_candidates (solver_of three_segments 5) = Ok (ins, outs)
    ∧ length ins = length outs
    ∧ (∀ o i,
         (o, i) ∈ zip (map snd outs) (map snd ins)
         ↔ o ∈ arange 3 ∧ i ∈ arange 3
           ∧ 0 < start_time three_segments i - stop_time three_segments o
               < maximum_gap (solver_of three_segments 5))
    ∧ Forall (fun k => fst k = start_time three_segments (snd k)) (ins ++ outs).
Proof.
  apply (get_candidates_pairs (solver_of three_segments 5) 3).
  - reflexivity.
  - reflexivity.
  - reflexivity.
  - lia.
Defined.

Lemma unique_nil (l : list Z) : unique l = [] → l = [].
Proof. by destruct l. Qed.

(** X8. [relabel] prepares a table for [_get_candidates]: the labels of
    a relabelled table are [0, ..., k-1] in the order of their first
    appearance, so on a relabelled table with at least one record
    [_get_candidates] indexes its arrays in range and returns, for every
    solver over that table, the candidate pairs of the table. *)
Theorem relabel_then_get_candidates (T : Trajectories) (nl : list Z) :
  index_names T = required_index →
  wf T = true →
  length nl = length (rows T) →
  mem "new_label" (columns T) = false →
  mem "label" (columns T) = false →
  Z.of_nat (length (unique nl)) ≤ 65536 →
  nl ≠ [] →
  ∃ T',
    relabel T (Some nl) true = Ok (T', RetNone)
    ∧ unique (map label_of (rows T')) = arange (length (unique nl))
    ∧ ∀ self, trajs self = T' →
        ∃ ins outs,
          _get_candidates self = Ok (ins, outs)
          ∧ zip (map snd outs) (map snd ins)
            = candidate_pairs T' (maximum_gap self)
                (arange (length (unique nl))).
Proof.
  intros Hix Hwf Hlen Hnew Hlab Hk Hne.
  rewrite (relabel_table T nl true Hix Hwf Hlen). cbn zeta.
  rewrite (without_column_absent _ T Hnew).
  set (S := sort_index (set_labels T nl)).
  rewrite (without_column_absent _ S) by done.
  set (olds := map label_of (rows S)).
  assert (olds ≡ₚ nl) as Holds.
  { subst olds S. cbn [sort_index with_rows rows set_labels].
    rewrite sort_by_Permutation. by rewrite zip_with_relabelled_labels. }
  assert (unique (map label_of (rows (set_labels S (renumber olds))))
          = arange (length (unique nl))) as Hdense.
  { cbn [set_labels rows]. rewrite zip_with_relabelled_labels.
    - rewrite <- (unique_length_Permutation _ _ Holds).
      apply unique_renumber.
      by rewrite (unique_length_Permutation _ _ Holds).
    - subst olds. by rewrite renumber_length, length_map. }
  eexists. split; [reflexivity |]. split; [exact Hdense |].
  intros self Hself.
  eexists _, _.
  split.
  { apply (get_candidates_dense self (length (unique nl))).
    - by rewrite Hself.
    - by rewrite Hself.
    - by rewrite Hself.
    - destruct (unique nl) eqn:E; [| simpl; lia].
      by apply unique_nil in E. }
  rewrite Hself. rewrite !map_map. cbn [snd]. rewrite zip_map.
  rewrite <- (map_id (candidate_pairs _ _ _)) at 2.
  apply map_ext. by intros [o i].
Qed.

Lemma relabel_then_get_candidates_witness :
  ∃ T',
    relabel labels_from_one (Some [1; 1; 1; 2; 2; 2]) true = Ok (T', RetNone)
    ∧ unique (map label_of (rows T'))
      = arange (length (unique [1; 1; 1; 2; 2; 2]))
    ∧ ∀ self, trajs self = T' →
        ∃ ins outs,
          _get_candidates self = Ok (ins, outs)
          ∧ zip (map snd outs) (map snd ins)
            = candidate_pairs T' (maximum_gap self)
                (arange (length (unique [1; 1; 1; 2; 2; 2]))).
Proof.
  apply (relabel_then_get_candidates labels_from_one [1; 1; 1; 2; 2; 2]).
  - reflexivity.
  - reflexivity.
  - reflexivity.
  - reflexivity.
  - reflexivity.
  - vm_compute. discriminate.
  - discriminate.
Defined.

(** ** [assign] when every link is rejected *)

Lemma foldl_max_in (a : list Z) (x : Z) :
  foldl Z.max x a = x ∨ foldl Z.max x a ∈ a.
Proof.
  revert x. induction a as [|y a IH]; intros x; simpl; [by left |].
  destruct (IH (Z.max x y)) as [H|H].
  - rewrite H. destruct (Z.max_spec x y) as [[_ ->]|[_ ->]];
      [right; left | by left].
  - right. by right.
Qed.

Lemma np_max_is (a : list Z) (m : Z) :
  m ∈ a → (∀ y, y ∈ a → y ≤ m) → np_max a = Ok m.
Proof.
  intros Hm Hle. destruct a as [|x a]; [by apply elem_of_nil in Hm |].
  simpl. f_equal.
  destruct (foldl_max_le a x) as [H1 H2].
  assert (foldl Z.max x a ∈ x :: a) as Hin.
  { destruct (foldl_max_in a x) as [->|H]; [left | by right]. }
  assert (m ≤ foldl Z.max x a) as H3.
  { apply elem_of_cons in Hm as [->|Hm]; [done | by apply H2]. }
  specialize (Hle _ Hin). lia.
Qed.



(** ** Labels shifted by a constant *)





Lemma wf_two (T : Trajectories) (r : row) :
  index_names T = required_index → wf T = true → r ∈ rows T →
  ix r = [t_stamp_of r; label_of r].
Proof.
  intros Hix Hwf Hr. destruct (keys_two T Hix Hwf) as [Htwo _].
  rewrite Forall_forall in Htwo. specialize (Htwo (ix r)).
  assert (length (ix r) = 2%nat) as H.
  { apply Htwo. apply elem_of_map. by exists r. }
  destruct r as [[|t [|l [|x i]]] d]; done.
Qed.







(** ** [track] when every link is rejected *)

Lemma mem_app_new (a b : string) (l : list string) :
  mem a l = false → String.eqb b a = false → mem a (l ++ [b]) = false.
Proof.
  intros Hl Hb. apply mem_false. apply mem_false in Hl.
  rewrite elem_of_app, list_elem_of_singleton. intros [H| ->]; [done |].
  by rewrite String.eqb_refl in Hb.
Qed.


Section RejectingSolver.
Variable LinkBlock : list Z -> list Z -> CostFunction -> matrix.
Variable DiagBlock : list Z -> CostFunction -> matrix.
Variable solve : list (list (option matrix)) -> CostMatrix.
Variable np_percentile : list Q -> Z -> cost.

End RejectingSolver.


(** ** [scale] *)

Lemma index_of_inj (a b : string) (l : list string) (p : nat) :
  index_of a l = Some p → index_of b l = Some p → a = b.
Proof.
  revert p. induction l as [|x l IH]; intros p Ha Hb; simpl in *; [done |].
  destruct (String.eqb_spec x a) as [Exa|Hna];
    destruct (String.eqb_spec x b) as [Exb|Hnb].
  - congruence.
  - injection Ha as <-. by destruct (index_of b l).
  - injection Hb as <-. by destruct (index_of a l).
  - destruct (index_of a l) as [pa|] eqn:Ea; [| done].
    destruct (index_of b l) as [pb|] eqn:Eb; [| done].
    simpl in *. injection Ha as <-. injection Hb as Hb.
    apply (IH pa); [done |]. f_equal. lia.
Qed.

Lemma get_column_map_column (T : Trajectories) (name : string)
    (f : cell -> cell) (p : nat) :
  index_of name (columns T) = Some p →
  wf_dat T →
  ∃ T',
    map_column T name f = Ok T'
    ∧ index_names T' = index_names T
    ∧ columns T' = columns T
    ∧ old_indexes T' = old_indexes T
    ∧ map ix (rows T') = map ix (rows T)
    ∧ wf_dat T'
    ∧ (∀ c, c ≠ name → get_column T' c = get_column T c)
    ∧ ∃ vs, get_column T name = Ok vs ∧ get_column T' name = Ok (map f vs).
Proof.
  intros E Hwf. rewrite (map_column_at T name f p E).
  eexists. split; [reflexivity |].
  cbn [with_rows index_names columns old_indexes rows].
  split; [done |]. split; [done |]. split; [done |].
  split; [by rewrite map_map |].
  unfold wf_dat in *. rewrite Forall_forall in Hwf.
  split; [| split].
  - unfold with_rows. cbn [rows columns]. apply Forall_forall. intros r' Hr'.
    apply elem_of_map in Hr' as (r & -> & Hr). cbn [dat].
    rewrite length_alter. by apply Hwf.
  - intros c Hc. unfold get_column, position, with_rows. cbn [columns rows].
    destruct (index_of c (columns T)) as [q|] eqn:Eq; [| done].
    cbn [mbind result_bind]. f_equal. rewrite map_map. apply map_ext.
    intros r. cbn [dat]. rewrite !nth_lookup.
    rewrite list_lookup_alter_ne; [done |]. intros Hpq. subst q.
    apply Hc. by apply (index_of_inj c name (columns T) p).
  - unfold get_column, position, with_rows. cbn [columns rows]. rewrite E.
    cbn [mbind result_bind]. eexists. split; [reflexivity |].
    f_equal. rewrite !map_map. apply map_ext_in. intros r Hr.
    apply list_elem_of_In in Hr. cbn [dat]. rewrite !nth_lookup.
    rewrite list_lookup_alter_eq.
    pose proof (index_of_lt _ _ _ E) as Hp. specialize (Hwf r Hr).
    destruct (lookup_lt_is_Some_2 (dat r) p ltac:(lia)) as [v Hv].
    rewrite Hv. done.
Qed.




Lemma scale_loop_missing (fcs : list (cell * string)) :
  ∀ T (i : nat) (f : cell) (c : string),
    wf_dat T →
    fcs !! i = Some (f, c) →
    c ∉ columns T →
    (∀ j fc, (j < i)%nat → fcs !! j = Some fc → snd fc ∈ columns T) →
    scale_loop T fcs = Raise (KeyError c).
Proof.
  induction fcs as [|[f0 c0] fcs IH]; intros T i f c Hwf Hi Hc Hbefore;
    [done |].
  cbn [scale_loop]. destruct i as [|i].
  - injection Hi as -> ->. unfold map_column, position.
    apply mem_false in Hc. unfold mem in Hc.
    by destruct (index_of c (columns T)).
  - assert (c0 ∈ columns T) as Hc0.
    { apply (Hbefore 0%nat (f0, c0)); [lia | done]. }
    apply mem_true in Hc0. unfold mem in Hc0.
    destruct (index_of c0 (columns T)) as [p|] eqn:E; [| done].
    destruct (get_column_map_column T c0 (fun x => cell_mul x f0) p E Hwf)
      as (T1 & H1 & _ & Hc1 & _ & _ & Hw1 & _).
    rewrite H1. cbn [mbind result_bind].
    apply (IH T1 i f c Hw1 Hi); [by rewrite Hc1 |].
    intros j fc Hj Hfc. rewrite Hc1. apply (Hbefore (S j) fc); [lia | done].
Qed.

(** X12. How [scale] refuses its arguments: factors and coordinates of
    different lengths raise the [ValueError] of the method before any
    column is read; with equal lengths, the first coordinate that is not
    a column raises a [KeyError] that names it. *)
Theorem scale_refuses (T : Trajectories) (factors : list cell)
    (coords : list string) (inplace : bool) :
  (length factors ≠ length coords →
   scale T factors coords inplace = Raise (ValueError mess_scale []))
  ∧ (wf T = true →
     length factors = length coords →
     ∀ (i : nat) (c : string),
       coords !! i = Some c →
       c ∉ columns T →
       (∀ j c', (j < i)%nat → coords !! j = Some c' → c' ∈ columns T) →
       scale T factors coords inplace = Raise (KeyError c)).
Proof.
  split.
  - intros Hlen. unfold scale. apply Nat.eqb_neq in Hlen. by rewrite Hlen.
  - intros Hwf Hlen i c Hi Hc Hbefore. unfold scale.
    rewrite Hlen, Nat.eqb_refl. cbn [negb].
    set (trajs := if inplace then T else copy T).
    assert (wf_dat trajs ∧ columns trajs = columns T) as [Hw Hcols].
    { subst trajs. destruct inplace; split; try done; by apply wf_wf_dat. }
    destruct (lookup_lt_is_Some_2 factors i) as [f Hf].
    { rewrite Hlen. apply lookup_lt_is_Some. by eexists. }
    rewrite (scale_loop_missing (zip factors coords) trajs i f c); [done | done | | |].
    + rewrite lookup_zip_with. by rewrite Hf, Hi.
    + by rewrite Hcols.
    + intros j [f' c'] Hj Hfc. rewrite Hcols.
      rewrite lookup_zip_with in Hfc.
      destruct (factors !! j); [| done]. simpl in Hfc.
      destruct (coords !! j) as [c''|] eqn:Ec; [| done].
      injection Hfc as _ <-. by apply (Hbefore j).
Qed.

Lemma scale_refuses_witness :
  scale two_segments [Float 2] ["x"; "y"] false
  = Raise (ValueError mess_scale [])
  ∧ scale two_segments [Float 2; Float 2] ["x"; "w"] false
    = Raise (KeyError "w").
Proof.
  split.
  - apply (scale_refuses two_segments [Float 2] ["x"; "y"] false).
    simpl. lia.
  - apply (proj2 (scale_refuses two_segments [Float 2; Float 2] ["x"; "w"]
                    false) eq_refl eq_refl 1%nat "w" eq_refl).
    + apply mem_false. reflexivity.
    + intros [|j] c' Hj Hc'; [| lia]. injection Hc' as <-.
      apply mem_true. reflexivity.
Defined.

(** ** Segments: [segment_idxs], [get_bounds], [get_segments] *)

Lemma segment_idxs_labels (T : Trajectories) :
  index_names T = required_index →
  segment_idxs T
  = Ok (map (fun l => (l, map ix (segment T l)))
            (sort_by Z.leb (unique (map label_of (rows T))))).
Proof.
  intros Hix. unfold segment_idxs, position. rewrite Hix. done.
Qed.

Lemma segment_elem (T : Trajectories) (l : Z) (r : row) :
  r ∈ segment T l ↔ r ∈ rows T ∧ label_of r = l.
Proof.
  unfold segment. rewrite list_elem_of_In, filter_In, Z.eqb_eq.
  by rewrite <- list_elem_of_In.
Qed.

Lemma segment_nonempty (T : Trajectories) (l : Z) :
  l ∈ unique (map label_of (rows T)) → segment T l ≠ [].
Proof.
  intros Hl. apply elem_of_unique, elem_of_map in Hl as (r & -> & Hr).
  intros E. assert (r ∈ segment T (label_of r)) as H by (by apply segment_elem).
  rewrite E in H. by apply elem_of_nil in H.
Qed.

Lemma hd_elem {A : Type} (l : list A) (d : A) : l ≠ [] → hd d l ∈ l.
Proof. destruct l; [done |]. intros _. left. Qed.

Lemma last_elem {A : Type} (l : list A) (d : A) : l ≠ [] → List.last l d ∈ l.
Proof.
  induction l as [|x [|y l] IH]; [done | intros _; left |].
  intros _. right. apply IH. done.
Qed.

(** X13. [get_bounds] without a column: one item per label, in ascending
    order of the labels; the bounds of a label are the frames of the
    first and of the last record of its segment in the order of the
    table, so both are frames of records of the segment; and when the
    table is sorted by frame they enclose the frames of every record of
    the segment. *)
Theorem get_bounds_of_segments (T : Trajectories) :
  index_names T = required_index →
  ∃ bs,
    get_bounds T None = Ok bs
    ∧ map fst bs = sort_by Z.leb (unique (map label_of (rows T)))
    ∧ ∀ l b, (l, b) ∈ bs →
        b = (Scalar (Int (start_time T l)), Scalar (Int (stop_time T l)))
        ∧ (∃ r1 r2,
             r1 ∈ rows T ∧ label_of r1 = l ∧ t_stamp_of r1 = start_time T l
             ∧ r2 ∈ rows T ∧ label_of r2 = l ∧ t_stamp_of r2 = stop_time T l)
        ∧ (StronglySorted Z.le (map t_stamp_of (rows T)) →
           ∀ r, r ∈ rows T → label_of r = l →
                start_time T l ≤ t_stamp_of r ≤ stop_time T l).
Proof.
  intros Hix. unfold get_bounds. rewrite (segment_idxs_labels T Hix).
  cbn [mbind result_bind truthy_name]. eexists. split; [reflexivity |].
  rewrite !map_map. cbn [fst snd]. split; [by rewrite map_id |].
  intros l b Hlb. apply elem_of_map in Hlb as (l' & E & Hl).
  cbn [fst snd] in E. rewrite bound_of_segment in E. cbn [fst snd] in E.
  injection E as El Eb. subst l' b. apply sort_by_elem in Hl.
  split; [done |]. split.
  - pose proof (segment_nonempty T l Hl) as Hne.
    assert (map t_stamp_of (segment T l) ≠ []) as Hne'.
    { by destruct (segment T l). }
    pose proof (hd_elem _ 0 Hne') as H1. pose proof (last_elem _ 0 Hne') as H2.
    apply elem_of_map in H1 as (r1 & E1 & Hr1).
    apply elem_of_map in H2 as (r2 & E2 & Hr2).
    apply segment_elem in Hr1 as [Hr1 Hl1]. apply segment_elem in Hr2 as [Hr2 Hl2].
    exists r1, r2. unfold start_time, stop_time. by rewrite E1, E2.
  - intros Hs r Hr Hrl. by apply segment_bounds.
Qed.

Lemma get_bounds_of_segments_witness :
  ∃ bs,
    get_bounds three_segments None = Ok bs
    ∧ map fst bs = sort_by Z.leb (unique (map label_of (rows three_segments)))
    ∧ ∀ l b, (l, b) ∈ bs →
        b = (Scalar (Int (start_time three_segments l)),
             Scalar (Int (stop_time three_segments l)))
        ∧ (∃ r1 r2,
             r1 ∈ rows three_segments ∧ label_of r1 = l
             ∧ t_stamp_of r1 = start_time three_segments l
             ∧ r2 ∈ rows three_segments ∧ label_of r2 = l
             ∧ t_stamp_of r2 = stop_time three_segments l)
        ∧ (StronglySorted Z.le (map t_stamp_of (rows three_segments)) →
           ∀ r, r ∈ rows three_segments → label_of r = l →
                start_time three_segments l ≤ t_stamp_of r
                ≤ stop_time three_segments l).
Proof.
  apply (get_bounds_of_segments three_segments). reflexivity.
Defined.

Lemma filter_unique_key (rs : list row) (r : row) :
  NoDup (map ix rs) → r ∈ rs →
  List.filter (fun r' => bool_decide (ix r' = ix r)) rs = [r].
Proof.
  induction rs as [|x rs IH]; intros Hnd Hr; [by apply elem_of_nil in Hr |].
  cbn [map] in Hnd. apply NoDup_cons in Hnd as [Hx Hnd]. cbn [List.filter].
  apply elem_of_cons in Hr as [->|Hr].
  - rewrite bool_decide_eq_true_2 by done. f_equal.
    clear IH. induction rs as [|y rs IH]; [done |]. cbn [List.filter].
    cbn [map] in Hx, Hnd. apply not_elem_of_cons in Hx as [Hxy Hx].
    apply NoDup_cons in Hnd as [_ Hnd].
    rewrite bool_decide_eq_false_2 by done. by apply IH.
  - rewrite bool_decide_eq_false_2.
    + by apply IH.
    + intros E. apply Hx. rewrite E. apply elem_of_map. by exists r.
Qed.

Lemma loc_segment (T : Trajectories) (l : Z) :
  NoDup (keys T) →
  loc T (map ix (segment T l))
  = Ok (Trajs (index_names T) (columns T) (segment T l) None).
Proof.
  intros Hnd. unfold loc. rewrite mapM_map.
  rewrite (mapM_ok _ (fun r => [r])).
  - cbn [mbind result_bind]. do 2 f_equal.
    induction (segment T l) as [|r rs IH]; [done |]. simpl. by rewrite IH.
  - intros r Hr. apply segment_elem in Hr as [Hr _].
    by rewrite (filter_unique_key (rows T) r Hnd Hr).
Qed.

Lemma filter_filter_neq (rs : list row) (l l' : Z) :
  l' ≠ l →
  List.filter (fun r => label_of r =? l')
    (List.filter (fun r => negb (label_of r =? l)) rs)
  = List.filter (fun r => label_of r =? l') rs.
Proof.
  intros Hne. induction rs as [|r rs IH]; [done |]. cbn [List.filter].
  destruct (Z.eqb_spec (label_of r) l) as [E|E]; cbn [negb List.filter].
  - rewrite IH. destruct (Z.eqb_spec (label_of r) l'); [congruence | done].
  - by rewrite IH.
Qed.

Lemma filter_split (rs : list row) (l : Z) :
  List.filter (fun r => label_of r =? l) rs
  ++ List.filter (fun r => negb (label_of r =? l)) rs ≡ₚ rs.
Proof.
  induction rs as [|r rs IH]; [done |]. cbn [List.filter].
  destruct (label_of r =? l); cbn [negb app].
  - by rewrite IH.
  - rewrite <- Permutation_middle. by rewrite IH.
Qed.

(** The segments of the labels [ls] put together hold every record
    once, when [ls] lists each label of the records once. *)
Lemma segments_partition (ls : list Z) :
  ∀ rs, NoDup ls → (∀ r, r ∈ rs → label_of r ∈ ls) →
        flat_map (fun l => List.filter (fun r => label_of r =? l) rs) ls ≡ₚ rs.
Proof.
  induction ls as [|l ls IH]; intros rs Hnd Hin.
  - destruct rs as [|r rs]; [done |].
    specialize (Hin r ltac:(left)). by apply elem_of_nil in Hin.
  - apply NoDup_cons in Hnd as [Hl Hnd]. cbn [flat_map].
    etransitivity; [| apply (filter_split rs l)].
    apply Permutation_app_head.
    rewrite <- (IH (List.filter (fun r => negb (label_of r =? l)) rs) Hnd).
    + clear -Hl. induction ls as [|l' ls IH]; [done |]. cbn [flat_map].
      apply not_elem_of_cons in Hl as [Hne Hl].
      rewrite filter_filter_neq by done. by rewrite IH.
    + intros r Hr. apply list_elem_of_In, filter_In in Hr as [Hr Hne].
      apply list_elem_of_In in Hr. specialize (Hin r Hr).
      apply elem_of_cons in Hin as [E|Hin]; [| done].
      rewrite E, Z.eqb_refl in Hne. done.
Qed.

Lemma NoDup_sort_by {A : Type} (leb : A -> A -> bool) (l : list A) :
  NoDup l → NoDup (sort_by leb l).
Proof.
  intros H. by rewrite (sort_by_Permutation leb l).
Qed.

(** X14. [get_segments] cuts the table into its segments: when no two
    records share a key, the dictionary has one item per label, the
    segment of a label holds exactly the records that carry the label, in
    the order of the table and under the index and the columns of the
    table, and the segments together hold every record of the table
    once. *)
Theorem get_segments_partition (T : Trajectories) :
  index_names T = required_index →
  NoDup (keys T) →
  ∃ segs,
    get_segments T = Ok segs
    ∧ map fst segs = sort_by Z.leb (unique (map label_of (rows T)))
    ∧ (∀ l S, (l, S) ∈ segs →
         rows S = segment T l
         ∧ index_names S = index_names T ∧ columns S = columns T
         ∧ ∀ r, r ∈ rows S ↔ r ∈ rows T ∧ label_of r = l)
    ∧ concat (map (fun s => rows (snd s)) segs) ≡ₚ rows T.
Proof.
  intros Hix Hnd. unfold get_segments, iter_segments.
  rewrite (segment_idxs_labels T Hix). cbn [mbind result_bind].
  rewrite mapM_map. cbn [fst snd].
  rewrite (mapM_ok _ (fun l => (l, Trajs (index_names T) (columns T)
                                     (segment T l) None))).
  2:{ intros l _. by rewrite (loc_segment T l Hnd). }
  eexists. split; [reflexivity |]. rewrite !map_map. cbn [fst snd rows].
  split; [by rewrite map_id |]. split.
  - intros l S Hl. apply elem_of_map in Hl as (l' & [= -> ->] & _).
    cbn [rows index_names columns]. split; [done |]. split; [done |].
    split; [done |]. intros r. apply segment_elem.
  - rewrite <- flat_map_concat_map. apply segments_partition.
    + apply NoDup_sort_by, NoDup_unique.
    + intros r Hr. apply sort_by_elem, elem_of_unique, elem_of_map.
      by exists r.
Qed.

Lemma get_segments_partition_witness :
  ∃ segs,
    get_segments three_segments = Ok segs
    ∧ map fst segs = sort_by Z.leb (unique (map label_of (rows three_segments)))
    ∧ (∀ l S, (l, S) ∈ segs →
         rows S = segment three_segments l
         ∧ index_names S = index_names three_segments
         ∧ columns S = columns three_segments
         ∧ ∀ r, r ∈ rows S ↔ r ∈ rows three_segments ∧ label_of r = l)
    ∧ concat (map (fun s => rows (snd s)) segs) ≡ₚ rows three_segments.
Proof.
  apply (get_segments_partition three_segments).
  - reflexivity.
  - apply (bool_decide_unpack _). by vm_compute.
Defined.

(** ** [get_longest_segments] and [get_shortest_segments] *)

Lemma by_length_sorted (idxs : list (Z * list (list Z))) :
  StronglySorted (fun x y => by_length x y = true) (sort_by by_length idxs).
Proof.
  apply (sort_by_sorted by_length).
  - intros a b H. unfold by_length in *.
    apply Nat.leb_gt in H. apply Nat.leb_le. lia.
  - intros a b c H1 H2. unfold by_length in *.
    apply Nat.leb_le in H1, H2. apply Nat.leb_le. lia.
Qed.

(** The labels of a table, sorted by the length of their segments and
    cut in two. *)
Lemma by_length_split (T : Trajectories) (a b : list (Z * list (list Z))) :
  a ++ b
  = sort_by by_length
      (map (fun l => (l, map ix (segment T l)))
           (sort_by Z.leb (unique (map label_of (rows T))))) →
  map fst a ++ map fst b ≡ₚ unique (map label_of (rows T))
  ∧ NoDup (map fst a ++ map fst b)
  ∧ ∀ l l', l ∈ map fst a → l' ∈ map fst b →
            (length (segment T l) ≤ length (segment T l'))%nat.
Proof.
  intros Hab.
  assert (map fst a ++ map fst b ≡ₚ unique (map label_of (rows T))) as Hperm.
  { rewrite <- map_app, Hab. rewrite sort_by_Permutation, map_map.
    cbn [fst]. rewrite map_id. apply sort_by_Permutation. }
  split; [done |]. split; [rewrite Hperm; apply NoDup_unique |].
  assert (∀ x, x ∈ a ++ b → snd x = map ix (segment T (fst x))) as Hsnd.
  { intros x Hx. rewrite Hab in Hx. apply sort_by_elem in Hx.
    by apply elem_of_map in Hx as (l & -> & _). }
  pose proof (by_length_sorted
                (map (fun l => (l, map ix (segment T l)))
                     (sort_by Z.leb (unique (map label_of (rows T)))))) as Hs.
  rewrite <- Hab in Hs.
  intros l l' Hl Hl'.
  apply elem_of_map in Hl as (x & -> & Hx).
  apply elem_of_map in Hl' as (y & -> & Hy).
  pose proof (StronglySorted_app_1_elem_of _ _ _ _ _ Hs Hx Hy) as Hxy.
  unfold by_length in Hxy. apply Nat.leb_le in Hxy.
  rewrite (Hsnd x), (Hsnd y) in Hxy by (apply elem_of_app; auto).
  by rewrite !length_map in Hxy.
Qed.

Lemma by_length_length (T : Trajectories) :
  length (sort_by by_length
            (map (fun l => (l, map ix (segment T l)))
                 (sort_by Z.leb (unique (map label_of (rows T))))))
  = length (unique (map label_of (rows T))).
Proof.
  rewrite (Permutation_length (sort_by_Permutation by_length _)).
  rewrite length_map.
  by rewrite (Permutation_length (sort_by_Permutation Z.leb _)).
Qed.

(** X15. The [n] shortest and the [n] longest segments, for [n > 0]:
    both methods return [min n k] distinct labels of the table, [k] being
    the number of labels; no label left out by [get_shortest_segments]
    has a shorter segment than a label it returns, and no label left out
    by [get_longest_segments] has a longer one. *)
Theorem segments_by_length (T : Trajectories) (n : Z) :
  index_names T = required_index →
  0 < n →
  ∃ short long,
    get_shortest_segments T n = Ok short
    ∧ get_longest_segments T n = Ok long
    ∧ Z.of_nat (length short)
      = Z.min n (Z.of_nat (length (unique (map label_of (rows T)))))
    ∧ length long = length short
    ∧ NoDup short ∧ NoDup long
    ∧ (∀ l, l ∈ short ∨ l ∈ long → l ∈ unique (map label_of (rows T)))
    ∧ (∀ l l', l ∈ short → l' ∈ unique (map label_of (rows T)) → l' ∉ short →
               (length (segment T l) ≤ length (segment T l'))%nat)
    ∧ (∀ l l', l ∈ long → l' ∈ unique (map label_of (rows T)) → l' ∉ long →
               (length (segment T l') ≤ length (segment T l))%nat).
Proof.
  intros Hix Hn. unfold get_shortest_segments, get_longest_segments.
  rewrite (segment_idxs_labels T Hix). cbn [mbind result_bind].
  set (s := sort_by by_length _).
  pose proof (by_length_length T) as Hlen. fold s in Hlen.
  set (U := unique (map label_of (rows T))) in *.
  unfold np_slice_to, slice_from.
  replace (n <? 0) with false by (symmetry; apply Z.ltb_ge; lia).
  replace (- n <? 0) with true by (symmetry; apply Z.ltb_lt; lia).
  set (k1 := Z.to_nat n). set (k2 := Z.to_nat (Z.of_nat (length s) + - n)).
  destruct (by_length_split T (take k1 s) (drop k1 s)) as (Hp1 & Hnd1 & Hle1).
  { by rewrite take_drop. }
  destruct (by_length_split T (take k2 s) (drop k2 s)) as (Hp2 & Hnd2 & Hle2).
  { by rewrite take_drop. }
  fold U in Hp1, Hp2.
  eexists _, _. split; [reflexivity |]. split; [reflexivity |].
  rewrite !length_map, length_take, length_drop.
  split; [subst k1; lia |]. split; [subst k1 k2; lia |].
  apply NoDup_app in Hnd1 as (Hnd1a & Hdis1 & Hnd1b).
  apply NoDup_app in Hnd2 as (Hnd2a & Hdis2 & Hnd2b).
  split; [done |]. split; [done |]. split; [| split].
  - intros l [Hl|Hl].
    + rewrite <- Hp1. apply elem_of_app. by left.
    + rewrite <- Hp2. apply elem_of_app. by right.
  - intros l l' Hl Hl' Hnot. apply Hle1; [done |].
    rewrite <- Hp1 in Hl'. apply elem_of_app in Hl' as [Hl'|Hl']; done.
  - intros l l' Hl Hl' Hnot. apply Hle2; [| done].
    rewrite <- Hp2 in Hl'. apply elem_of_app in Hl' as [Hl'|Hl']; done.
Qed.

Lemma segments_by_length_witness :
  ∃ short long,
    get_shortest_segments three_segments 2 = Ok short
    ∧ get_longest_segments three_segments 2 = Ok long
    ∧ Z.of_nat (length short)
      = Z.min 2 (Z.of_nat (length (unique (map label_of (rows three_segments)))))
    ∧ length long = length short
    ∧ NoDup short ∧ NoDup long
    ∧ (∀ l, l ∈ short ∨ l ∈ long →
            l ∈ unique (map label_of (rows three_segments)))
    ∧ (∀ l l', l ∈ short → l' ∈ unique (map label_of (rows three_segments)) →
               l' ∉ short →
               (length (segment three_segments l)
                ≤ length (segment three_segments l'))%nat)
    ∧ (∀ l l', l ∈ long → l' ∈ unique (map label_of (rows three_segments)) →
               l' ∉ long →
               (length (segment three_segments l')
                ≤ length (segment three_segments l))%nat).
Proof.
  apply (segments_by_length three_segments 2).
  - reflexivity.
  - lia.
Defined.

(** X16. The edge [n = 0]: [get_shortest_segments] returns no label, but
    [get_longest_segments] returns every label of the table, since the
    slice [[-0:]] of a list is the whole list. *)
Theorem segments_by_length_zero (T : Trajectories) :
  index_names T = required_index →
  get_shortest_segments T 0 = Ok []
  ∧ ∃ long,
      get_longest_segments T 0 = Ok long
      ∧ long ≡ₚ unique (map label_of (rows T)).
Proof.
  intros Hix. unfold get_shortest_segments, get_longest_segments.
  rewrite (segment_idxs_labels T Hix). cbn [mbind result_bind].
  unfold np_slice_to, slice_from. cbn [Z.ltb Z.compare Z.opp Z.to_nat].
  rewrite take_0, drop_0. split; [done |].
  eexists. split; [reflexivity |].
  rewrite sort_by_Permutation, map_map. cbn [fst]. rewrite map_id.
  apply sort_by_Permutation.
Qed.

Lemma segments_by_length_zero_witness :
  get_shortest_segments three_segments 0 = Ok []
  ∧ ∃ long,
      get_longest_segments three_segments 0 = Ok long
      ∧ long ≡ₚ unique (map label_of (rows three_segments)).
Proof.
  apply (segments_by_length_zero three_segments). reflexivity.
Defined.

(** ** [cut_segments] and [merge_segments]: the shared steps *)

(** Rows of a well-formed table indexed by [(t_stamp, label)]. *)
Lemma wf_rows (T : Trajectories) :
  index_names T = required_index → wf T = true →
  Forall (fun r => ix r = [t_stamp_of r; label_of r]
                   ∧ length (dat r) = length (columns T)) (rows T).
Proof.
  intros Hix Hwf. apply Forall_forall. intros r Hr. split.
  - by apply (wf_two T).
  - pose proof (wf_wf_dat T Hwf) as H. unfold wf_dat in H.
    by eapply Forall_forall in H.
Qed.

Lemma map_not_renamed (cols : list string) (old new : string) :
  mem old cols = false →
  map (fun c => if String.eqb c old then new else c) cols = cols.
Proof.
  intros H. apply mem_false in H. rewrite <- (map_id cols) at 2.
  apply map_ext_in. intros c Hc. apply list_elem_of_In in Hc.
  destruct (String.eqb_spec c old) as [->|]; done.
Qed.

Lemma index_of_last (name : string) (cols : list string) :
  mem name cols = false → index_of name (cols ++ [name]) = Some (length cols).
Proof.
  intros H. apply index_of_app_new. unfold mem in H.
  by destruct (index_of name cols).
Qed.

(** [trajs.loc[:, 'new_label'] = labels] on a table without that
    column. *)
Lemma set_column_with_new_label (names cols : list string) (rs : list row)
    (oi : option (list string)) (nlab : row -> Z) :
  mem "new_label" cols = false →
  set_column (Trajs names cols rs oi) "new_label" (map Int (map nlab rs))
  = Ok (Trajs names (cols ++ ["new_label"]) (map (with_new_label nlab) rs) oi).
Proof.
  intros Hnew. unfold set_column. cbn [rows columns index_names old_indexes].
  rewrite !length_map, Nat.eqb_refl. cbn [negb].
  unfold mem in Hnew. destruct (index_of "new_label" cols); [done |].
  do 2 f_equal.
  apply (zip_with_map_both (fun r v => Row (ix r) (dat r ++ [v])) nlab Int).
Qed.

(** [trajs.loc[mask, 'new_label'] = v] on such a table. *)
Lemma mask_set_new_label (names cols : list string) (rs : list row)
    (oi : option (list string)) (nlab : row -> Z) (c : row -> bool) (v : Z) :
  mem "new_label" cols = false →
  Forall (fun r => length (dat r) = length cols) rs →
  mask_set_column
    (Trajs names (cols ++ ["new_label"]) (map (with_new_label nlab) rs) oi)
    "new_label" (map c rs) (Int v)
  = Ok (Trajs names (cols ++ ["new_label"])
          (map (with_new_label (fun r => if c r then v else nlab r)) rs) oi).
Proof.
  intros Hnew Hwf. unfold mask_set_column, position.
  cbn [rows columns index_names old_indexes].
  rewrite (index_of_last _ _ Hnew). cbn [mbind result_bind].
  unfold with_rows. cbn [rows columns index_names old_indexes].
  do 2 f_equal. rewrite zip_with_map. apply map_ext_in.
  intros r Hr. apply list_elem_of_In in Hr.
  eapply Forall_forall in Hwf; [| exact Hr].
  unfold with_new_label. cbn [ix dat]. destruct (c r); [| done].
  f_equal. rewrite <- Hwf.
  rewrite insert_app_r_alt by done. by rewrite Nat.sub_diag.
Qed.

(** The end of [cut_segments] and [merge_segments]. *)
Lemma new_label_to_level_spec (cols : list string) (rs : list row)
    (oi : option (list string)) (nlab : row -> Z) :
  mem "new_label" cols = false →
  mem "label" cols = false →
  Forall (fun r => ix r = [t_stamp_of r; label_of r]
                   ∧ length (dat r) = length cols) rs →
  new_label_to_level
    (Trajs required_index (cols ++ ["new_label"])
       (map (with_new_label nlab) rs) oi)
  = Ok (Trajs required_index cols
          (sort_by ix_leb (map (fun r => relabelled r (nlab r)) rs)) oi).
Proof.
  intros Hnew Hlab Hwf. unfold new_label_to_level, reset_level, position.
  cbn [index_names columns rows old_indexes].
  simpl index_of. cbn [mbind result_bind].
  rewrite (mem_app_new "label" "new_label" cols Hlab eq_refl).
  cbn [mbind result_bind]. unfold drop_column, position.
  cbn [index_names columns rows old_indexes]. simpl index_of.
  cbn [mbind result_bind].
  change (delete 0%nat ("label" :: cols ++ ["new_label"]))
    with (cols ++ ["new_label"]).
  change (delete 1%nat required_index) with ["t_stamp"].
  unfold rename_column. cbn [index_names columns rows old_indexes].
  rewrite map_app, (map_not_renamed cols _ _ Hnew). simpl (map _ ["new_label"]).
  unfold set_index_append, position.
  cbn [index_names columns rows old_indexes].
  rewrite (index_of_last _ _ Hlab). cbn [mbind result_bind].
  rewrite !map_map. cbn [ix dat with_new_label].
  rewrite mapM_map.
  rewrite (mapM_ok _ (fun r => relabelled r (nlab r))).
  - cbn [mbind result_bind]. unfold sort_index, with_rows.
    cbn [index_names columns rows old_indexes].
    rewrite (delete_middle cols [] "label"), app_nil_r. done.
  - intros r Hr. eapply Forall_forall in Hwf as [Hix Hd]; [| exact Hr].
    cbn [ix dat].
    change (delete 0%nat (Int (nth 1 (ix r) 0) :: dat r ++ [Int (nlab r)]))
      with (dat r ++ [Int (nlab r)]).
    rewrite nth_lookup, lookup_app_r by lia.
    rewrite Hd, Nat.sub_diag. cbn [lookup list_lookup default as_key
                                   mbind result_bind].
    rewrite <- Hd, (delete_middle (dat r) [] (Int (nlab r))), app_nil_r.
    rewrite Hix. done.
Qed.

(** ** [cut_segments] *)

Lemma NoDup_map_inj_on {A B C : Type} (f : A -> B) (g : A -> C) (l : list A) :
  (∀ a b, a ∈ l → b ∈ l → f a = f b → g a = g b) →
  NoDup (map g l) → NoDup (map f l).
Proof.
  induction l as [|x l IH]; intros Hinj Hnd; [constructor |].
  cbn [map] in *. apply NoDup_cons in Hnd as [Hx Hnd]. apply NoDup_cons. split.
  - intros Hin. apply Hx. apply elem_of_map in Hin as (y & E & Hy).
    apply elem_of_map. exists y. split; [| done].
    apply Hinj; [by left | by right | done].
  - apply IH; [| done]. intros a b Ha Hb. apply Hinj; by right.
Qed.

Lemma sort_index_table (T : Trajectories) :
  sort_index T
  = Trajs (index_names T) (columns T) (sort_by ix_leb (rows T)) (old_indexes T).
Proof. done. Qed.

Lemma level_values_required (cols : list string) (rs : list row)
    (oi : option (list string)) :
  get_level_values (Trajs required_index cols rs oi) "t_stamp"
  = Ok (map t_stamp_of rs)
  ∧ get_level_values (Trajs required_index cols rs oi) "label"
    = Ok (map label_of rs).
Proof. done. Qed.

Lemma map_with_new_label (nlab : row -> Z) (rs : list row) :
  map t_stamp_of (map (with_new_label nlab) rs) = map t_stamp_of rs
  ∧ map label_of (map (with_new_label nlab) rs) = map label_of rs.
Proof. by rewrite !map_map. Qed.

Lemma np_max_labels (rs : list row) :
  rs ≠ [] →
  ∃ m, np_max (map label_of rs) = Ok m
       ∧ (∃ r, r ∈ rs ∧ label_of r = m)
       ∧ ∀ r, r ∈ rs → label_of r ≤ m.
Proof.
  intros Hne. destruct (np_max_bound (map label_of rs)) as (m & Hm & Hle).
  { by destruct rs. }
  exists m. split; [done |]. split.
  - destruct rs as [|r0 rs]; [done |]. cbn [map np_max] in Hm.
    injection Hm as Hm.
    destruct (foldl_max_in (map label_of rs) (label_of r0)) as [E|E].
    + exists r0. split; [left | congruence].
    + rewrite Hm in E. apply elem_of_map in E as (r & E & Hr).
      exists r. split; [by right | done].
  - intros r Hr. apply Hle. apply elem_of_map. by exists r.
Qed.

(** [cut_segments] on a whole table. *)
Lemma cut_segments_table (T : Trajectories) (t_stamp label : Z)
    (inplace : bool) :
  index_names T = required_index →
  wf T = true →
  mem "new_label" (columns T) = false →
  mem "label" (columns T) = false →
  rows T ≠ [] →
  ∃ m,
    (∃ r, r ∈ rows T ∧ label_of r = m)
    ∧ (∀ r, r ∈ rows T → label_of r ≤ m)
    ∧ cut_segments T (t_stamp, label) inplace
      = Ok (let T' := Trajs required_index (columns T)
                        (sort_by ix_leb
                           (map (cut_row t_stamp label (m + 1))
                                (sort_by ix_leb (rows T))))
                        (old_indexes (if inplace then T else copy T)) in
            if inplace then (T', RetNone) else (T, RetNew T')).
Proof.
  intros Hix Hwf Hnew Hlab Hne. unfold cut_segments.
  set (trajs := if inplace then T else copy T).
  assert (index_names trajs = required_index ∧ columns trajs = columns T
          ∧ rows trajs = rows T) as (Hn0 & Hc0 & Hr0).
  { subst trajs. by destruct inplace. }
  rewrite (sort_index_table trajs), Hn0, Hc0, Hr0.
  set (S := sort_by ix_leb (rows T)).
  assert (S ≡ₚ rows T) as HS by apply sort_by_Permutation.
  assert (Forall (fun r => ix r = [t_stamp_of r; label_of r]
                           ∧ length (dat r) = length (columns T)) S) as HwfS.
  { rewrite HS. by apply wf_rows. }
  rewrite (proj2 (level_values_required _ _ _)). cbn [mbind result_bind].
  destruct (np_max_labels S) as (m & Hm & (rm & Hrm & Em) & Hle).
  { intros E. apply Hne. apply Permutation_nil. by rewrite <- HS, E. }
  exists m. split; [exists rm; split; [by rewrite <- HS | done] |].
  split; [intros r Hr; apply Hle; by rewrite HS |].
  rewrite Hm. cbn [mbind result_bind].
  rewrite (set_column_with_new_label _ _ _ _ label_of Hnew).
  cbn [mbind result_bind].
  rewrite (proj1 (level_values_required _ _ _)),
    (proj2 (level_values_required _ _ _)). cbn [mbind result_bind].
  rewrite (proj1 (map_with_new_label _ _)), (proj2 (map_with_new_label _ _)).
  rewrite (zip_with_map (fun t l => (t >? t_stamp) && (l =? label))
             t_stamp_of label_of S).
  rewrite (mask_set_new_label _ _ _ _ label_of
             (fun r => (t_stamp_of r >? t_stamp) && (label_of r =? label))
             (m + 1) Hnew).
  2:{ eapply Forall_impl; [exact HwfS |]. by intros r [_ H]. }
  cbn [mbind result_bind].
  rewrite (new_label_to_level_spec _ _ _ _ Hnew Hlab HwfS).
  cbn [mbind result_bind]. by destruct inplace.
Qed.

Lemma cut_row_injective (T : Trajectories) (t_stamp label m : Z) (a b : row) :
  index_names T = required_index → wf T = true →
  (∀ r, r ∈ rows T → label_of r ≤ m) →
  a ∈ rows T → b ∈ rows T →
  ix (cut_row t_stamp label (m + 1) a) = ix (cut_row t_stamp label (m + 1) b) →
  ix a = ix b.
Proof.
  intros Hix Hwf Hle Ha Hb.
  pose proof (Hle a Ha) as Hla. pose proof (Hle b Hb) as Hlb.
  rewrite (wf_two T a Hix Hwf Ha), (wf_two T b Hix Hwf Hb).
  unfold cut_row, cut_label, relabelled. cbn [ix].
  assert (∀ r, (t_stamp_of r >? t_stamp) && (label_of r =? label) = true →
               label_of r = label) as Hcut.
  { intros r E. apply andb_true_iff in E as [_ E]. by apply Z.eqb_eq in E. }
  pose proof (Hcut a) as Hca. pose proof (Hcut b) as Hcb.
  destruct ((t_stamp_of a >? t_stamp) && (label_of a =? label));
    destruct ((t_stamp_of b >? t_stamp) && (label_of b =? label));
    intros H; injection H; intros.
  - rewrite (Hca eq_refl), (Hcb eq_refl). congruence.
  - exfalso. lia.
  - exfalso. lia.
  - congruence.
Qed.

(** X17. [cut_segments] at the spot [(t_stamp, label)]: on a table
    indexed by [(t_stamp, label)] with at least one record and no column
    called [label] or [new_label], the records of the segment [label]
    whose frame is greater than [t_stamp] take the fresh label [m + 1],
    [m] being the largest label of the table, and every other record
    keeps its label; all records keep their frame and their cells; the
    result is sorted by key and has the columns of the table; keys that
    were unique stay unique; and when the segment has no record after
    [t_stamp] the records are unchanged. *)
Theorem cut_segments_spec (T : Trajectories) (t_stamp label : Z)
    (inplace : bool) :
  index_names T = required_index →
  wf T = true →
  mem "new_label" (columns T) = false →
  mem "label" (columns T) = false →
  rows T ≠ [] →
  ∃ T' m,
    cut_segments T (t_stamp, label) inplace
    = Ok (if inplace then (T', RetNone) else (T, RetNew T'))
    ∧ (∃ r, r ∈ rows T ∧ label_of r = m)
    ∧ (∀ r, r ∈ rows T → label_of r ≤ m)
    ∧ index_names T' = required_index
    ∧ columns T' = columns T
    ∧ rows T' ≡ₚ map (cut_row t_stamp label (m + 1)) (rows T)
    ∧ StronglySorted (fun r1 r2 => ix_leb r1 r2 = true) (rows T')
    ∧ (NoDup (keys T) → NoDup (keys T'))
    ∧ ((∀ r, r ∈ rows T → label_of r = label → t_stamp_of r ≤ t_stamp) →
       rows T' ≡ₚ rows T).
Proof.
  intros Hix Hwf Hnew Hlab Hne.
  destruct (cut_segments_table T t_stamp label inplace Hix Hwf Hnew Hlab Hne)
    as (m & Hm & Hle & Hrun).
  assert (sort_by ix_leb (rows T) ≡ₚ rows T) as HS by apply sort_by_Permutation.
  set (rs' := sort_by ix_leb (map (cut_row t_stamp label (m + 1))
                                  (sort_by ix_leb (rows T)))) in *.
  assert (rs' ≡ₚ map (cut_row t_stamp label (m + 1)) (rows T)) as Hperm.
  { subst rs'. by rewrite sort_by_Permutation, HS. }
  eexists _, m. split; [exact Hrun |].
  split; [done |]. split; [done |]. split; [done |]. split; [done |].
  cbn [rows]. split; [done |]. split; [| split].
  - subst rs'. apply (sort_by_sorted ix_leb).
    + intros a b. apply lex_leb_total.
    + intros a b c. apply lex_leb_trans.
  - unfold keys. cbn [rows]. intros Hnd. rewrite Hperm, map_map.
    apply (NoDup_map_inj_on _ ix); [| done].
    intros a b Ha Hb. by apply (cut_row_injective T).
  - intros Hnone. rewrite Hperm.
    replace (map (cut_row t_stamp label (m + 1)) (rows T)) with (rows T);
      [done |].
    rewrite <- (map_id (rows T)) at 1. apply map_ext_in. intros r Hr.
    apply list_elem_of_In in Hr.
    pose proof (wf_two T r Hix Hwf Hr) as Hr'.
    unfold cut_row, cut_label.
    destruct ((t_stamp_of r >? t_stamp) && (label_of r =? label)) eqn:E.
    + apply andb_true_iff in E as [E1 E2]. apply Z.eqb_eq in E2.
      specialize (Hnone r Hr E2). apply Z.gtb_lt in E1. lia.
    + unfold relabelled. destruct r as [i d]. cbn [ix dat] in *.
      by rewrite <- Hr'.
Qed.

Lemma cut_segments_spec_witness :
  ∃ T' m,
    cut_segments two_segments (1, 0) false = Ok (two_segments, RetNew T')
    ∧ (∃ r, r ∈ rows two_segments ∧ label_of r = m)
    ∧ (∀ r, r ∈ rows two_segments → label_of r ≤ m)
    ∧ index_names T' = required_index
    ∧ columns T' = columns two_segments
    ∧ rows T' ≡ₚ map (cut_row 1 0 (m + 1)) (rows two_segments)
    ∧ StronglySorted (fun r1 r2 => ix_leb r1 r2 = true) (rows T')
    ∧ (NoDup (keys two_segments) → NoDup (keys T'))
    ∧ ((∀ r, r ∈ rows two_segments → label_of r = 0 → t_stamp_of r ≤ 1) →
       rows T' ≡ₚ rows two_segments).
Proof.
  apply (cut_segments_spec two_segments 1 0 false).
  - reflexivity.
  - reflexivity.
  - reflexivity.
  - reflexivity.
  - discriminate.
Defined.

(** ** [merge_segments] *)

Lemma merge_loop_spec (cols : list string) (rs : list row)
    (oi : option (list string)) (new_label : Z) (ls : list Z) :
  ∀ nlab,
    mem "new_label" cols = false →
    Forall (fun r => ix r = [t_stamp_of r; label_of r]
                     ∧ length (dat r) = length cols) rs →
    (∀ l, l ∈ ls → ∃ r, r ∈ rs ∧ label_of r = l) →
    merge_loop
      (Trajs required_index (cols ++ ["new_label"])
         (map (with_new_label nlab) rs) oi) ls new_label
    = Ok (Trajs required_index (cols ++ ["new_label"])
            (map (with_new_label
                    (fun r => if bool_decide (label_of r ∈ ls) then new_label
                              else nlab r)) rs) oi).
Proof.
  induction ls as [|l ls IH]; intros nlab Hnew Hwf Hin.
  - reflexivity.
  - cbn [merge_loop]. unfold loc_set_second_level.
    cbn [rows index_names]. rewrite !map_map. cbn [with_new_label ix].
    replace (existsb _ _) with true.
    2:{ symmetry. apply existsb_exists. destruct (Hin l ltac:(left)) as (r & Hr & E).
        exists (with_new_label nlab r). split.
        - apply list_elem_of_In, elem_of_map. by exists r.
        - apply Z.eqb_eq. exact E. }
    cbn [andb required_index length Nat.leb].
    change (fun x : row => nth 1 (ix x) 0 =? l)
      with (fun x : row => label_of x =? l).
    rewrite (mask_set_new_label _ _ _ _ nlab (fun r => label_of r =? l)
               new_label Hnew).
    2:{ eapply Forall_impl; [exact Hwf |]. by intros r [_ H]. }
    cbn [mbind result_bind]. rewrite IH; [| done | done |].
    2:{ intros l' Hl'. apply Hin. by right. }
    do 2 f_equal. apply map_ext. intros r. unfold with_new_label. do 3 f_equal.
    destruct (Z.eqb_spec (label_of r) l) as [E|E].
    + rewrite (bool_decide_eq_true_2 (label_of r ∈ l :: ls))
        by (rewrite E; left).
      by destruct (bool_decide (label_of r ∈ ls)).
    + destruct (decide (label_of r ∈ ls)) as [H|H].
      * rewrite (bool_decide_eq_true_2 (label_of r ∈ ls)) by done.
        by rewrite (bool_decide_eq_true_2 (label_of r ∈ l :: ls)) by (by right).
      * rewrite (bool_decide_eq_false_2 (label_of r ∈ ls)) by done.
        rewrite (bool_decide_eq_false_2 (label_of r ∈ l :: ls)); [done |].
        intros H'. apply elem_of_cons in H' as [H'|H']; done.
Qed.

Lemma firsts_elem (key : row -> list Z) (rs : list row) (x : row) :
  x ∈ firsts key rs
  ↔ List.find (fun r => bool_decide (key r = key x)) rs = Some x.
Proof.
  induction rs as [|r rs IH]; cbn [firsts List.find].
  - split; [by intros H%elem_of_nil | done].
  - rewrite elem_of_cons, list_elem_of_In, filter_In, <- list_elem_of_In.
    rewrite negb_true_iff, bool_decide_eq_false, IH.
    destruct (decide (key r = key x)) as [E|E].
    + rewrite bool_decide_eq_true_2 by done. split.
      * intros [->|[_ H]]; [done |]. by rewrite E in H.
      * intros [= ->]. by left.
    + rewrite bool_decide_eq_false_2 by done. split.
      * intros [->|[H _]]; done.
      * intros H. right. split; [done |]. congruence.
Qed.

Lemma firsts_NoDup (key : row -> list Z) (rs : list row) :
  NoDup (map key (firsts key rs)).
Proof.
  induction rs as [|r rs IH]; cbn [firsts map]; [constructor |].
  apply NoDup_cons. split.
  - intros H. apply elem_of_map in H as (y & E & Hy).
    apply list_elem_of_In, filter_In in Hy as [_ Hy].
    apply negb_true_iff, bool_decide_eq_false in Hy. congruence.
  - clear -IH. induction (firsts key rs) as [|y l IHl]; [constructor |].
    cbn [map] in IH. apply NoDup_cons in IH as [Hy Hl]. cbn [List.filter].
    destruct (negb (bool_decide (key y = key r))); [| by apply IHl].
    cbn [map]. apply NoDup_cons. split; [| by apply IHl].
    intros H. apply Hy. apply elem_of_map in H as (z & E & Hz).
    apply list_elem_of_In, filter_In in Hz as [Hz _].
    apply elem_of_map. exists z. split; [done | by apply list_elem_of_In].
Qed.

Lemma firsts_keys (key : row -> list Z) (rs : list row) (k : list Z) :
  k ∈ map key (firsts key rs) ↔ k ∈ map key rs.
Proof.
  split.
  - intros H. apply elem_of_map in H as (x & -> & Hx).
    apply firsts_elem in Hx. apply find_some in Hx as [Hx _].
    apply elem_of_map. exists x. split; [done | by apply list_elem_of_In].
  - intros H. apply elem_of_map in H as (x & -> & Hx).
    destruct (List.find (fun r => bool_decide (key r = key x)) rs) as [y|] eqn:E.
    + pose proof E as E'. apply find_some in E' as [_ Hy].
      apply bool_decide_eq_true in Hy. rewrite <- Hy.
      apply elem_of_map. exists y. split; [done |].
      apply firsts_elem. rewrite Hy. exact E.
    + apply list_elem_of_In in Hx.
      pose proof (find_none _ _ E x Hx) as H. simpl in H.
      by rewrite bool_decide_eq_true_2 in H.
Qed.

Lemma find_ext_in {A : Type} (p q : A -> bool) (l : list A) :
  (∀ x, x ∈ l → p x = q x) → List.find p l = List.find q l.
Proof.
  induction l as [|x l IH]; intros H; cbn [List.find]; [done |].
  rewrite (H x) by left. destruct (q x); [done |].
  apply IH. intros y Hy. apply H. by right.
Qed.

(** [merge_segments] on a whole table. *)
Lemma merge_segments_table (T : Trajectories) (l0 : Z) (rest : list Z)
    (inplace : bool) :
  index_names T = required_index →
  wf T = true →
  mem "new_label" (columns T) = false →
  mem "label" (columns T) = false →
  (∀ l, l ∈ rest → l ∈ map label_of (rows T)) →
  merge_segments T (l0 :: rest) inplace
  = Ok (let R1 := sort_by ix_leb
                    (map (fun r => relabelled r (merged_label rest l0 r))
                         (sort_by ix_leb (rows T))) in
        let key := fun r : row =>
                     map (fun p => nth p (ix r) 0) [0%nat; 1%nat] in
        let R2 := sort_by ix_leb
                    (map (fun r => Row (key r) (as_series (dat r)))
                         (firsts key R1)) in
        if inplace
        then (Trajs required_index (columns T) R1 (old_indexes T), RetNone)
        else (T, RetNew (Trajs required_index (columns T) R2 None))).
Proof.
  intros Hix Hwf Hnew Hlab Hrest.
  set (S := sort_by ix_leb (rows T)).
  assert (S ≡ₚ rows T) as HS by apply sort_by_Permutation.
  assert (Forall (fun r => ix r = [t_stamp_of r; label_of r]
                           ∧ length (dat r) = length (columns T)) S) as HwfS.
  { rewrite HS. by apply wf_rows. }
  unfold merge_segments.
  rewrite (np_get_lookup (l0 :: rest) 0 l0) by done.
  cbn [mbind result_bind list_tail drop].
  set (trajs := if inplace then T else copy T).
  assert (index_names trajs = required_index ∧ columns trajs = columns T
          ∧ rows trajs = rows T) as (Hn0 & Hc0 & Hr0).
  { subst trajs. by destruct inplace. }
  rewrite (sort_index_table trajs), Hn0, Hc0, Hr0. fold S.
  rewrite (proj2 (level_values_required _ _ _)). cbn [mbind result_bind].
  rewrite (set_column_with_new_label _ _ _ _ label_of Hnew).
  cbn [mbind result_bind].
  rewrite (merge_loop_spec _ _ _ _ _ label_of Hnew HwfS).
  2:{ intros l Hl. pose proof (Hrest l Hl) as Hin.
      apply elem_of_map in Hin as (r & E & Hr).
      exists r. by rewrite HS. }
  cbn [mbind result_bind].
  rewrite (new_label_to_level_spec _ _ _ _ Hnew Hlab HwfS).
  cbn [mbind result_bind].
  unfold groupby_first. cbn [index_names mapM position].
  simpl (mapM _ _). cbn [mbind result_bind columns rows].
  subst trajs. by destruct inplace.
Qed.

(** X18. [merge_segments] of the labels [l0 :: rest], each label of
    [rest] being a label of the table: the records of the segments of
    [rest] take the label [l0], every record keeps its frame and its
    cells, and the records are sorted by key.  Called in place, the method
    leaves exactly these records in the table, so two merged records of
    one frame leave a duplicate key behind: the removal of duplicates is
    applied to a new object only.  Called with [inplace=False] it returns
    a table in which the keys are unique: for each key the first of the
    records with that key is kept, read as a series, and the keys are
    those of the table that the in-place call leaves. *)
Theorem merge_segments_spec (T : Trajectories) (l0 : Z) (rest : list Z) :
  index_names T = required_index →
  wf T = true →
  mem "new_label" (columns T) = false →
  mem "label" (columns T) = false →
  rows T ≠ [] →
  (∀ l, l ∈ rest → l ∈ map label_of (rows T)) →
  ∃ T1 T2,
    merge_segments T (l0 :: rest) true = Ok (T1, RetNone)
    ∧ merge_segments T (l0 :: rest) false = Ok (T, RetNew T2)
    ∧ index_names T1 = required_index ∧ columns T1 = columns T
    ∧ rows T1 ≡ₚ map (fun r => relabelled r (merged_label rest l0 r)) (rows T)
    ∧ StronglySorted (fun r1 r2 => ix_leb r1 r2 = true) (rows T1)
    ∧ index_names T2 = required_index ∧ columns T2 = columns T
    ∧ NoDup (keys T2)
    ∧ StronglySorted (fun r1 r2 => ix_leb r1 r2 = true) (rows T2)
    ∧ (∀ k, k ∈ keys T2 ↔ k ∈ keys T1)
    ∧ (∀ r2, r2 ∈ rows T2 →
         ∃ r1, List.find (fun r => bool_decide (ix r = ix r2)) (rows T1)
               = Some r1
               ∧ dat r2 = as_series (dat r1)).
Proof.
  intros Hix Hwf Hnew Hlab Hne Hrest.
  pose proof (fun inplace =>
                merge_segments_table T l0 rest inplace Hix Hwf Hnew Hlab Hrest)
    as Hrun. cbn zeta in Hrun.
  assert (sort_by ix_leb (rows T) ≡ₚ rows T) as HS by apply sort_by_Permutation.
  set (R1 := sort_by ix_leb
               (map (fun r => relabelled r (merged_label rest l0 r))
                    (sort_by ix_leb (rows T)))) in *.
  set (key := fun r : row => map (fun p => nth p (ix r) 0) [0%nat; 1%nat]) in *.
  set (R2 := sort_by ix_leb
               (map (fun r => Row (key r) (as_series (dat r))) (firsts key R1)))
    in *.
  assert (∀ r, r ∈ R1 → key r = ix r) as Hkey.
  { intros r Hr. subst R1. apply sort_by_elem in Hr.
    by apply elem_of_map in Hr as (r0 & -> & _). }
  assert (map ix R2 ≡ₚ map key (firsts key R1)) as Hk2.
  { subst R2. rewrite sort_by_Permutation, map_map. done. }
  eexists _, _. split; [exact (Hrun true) |]. split; [exact (Hrun false) |].
  cbn [index_names columns rows]. unfold keys. cbn [rows].
  split; [done |]. split; [done |].
  split; [by subst R1; rewrite sort_by_Permutation, HS |].
  split.
  { apply (sort_by_sorted ix_leb).
    - intros a b. apply lex_leb_total.
    - intros a b c. apply lex_leb_trans. }
  split; [done |]. split; [done |].
  split; [rewrite Hk2; apply firsts_NoDup |].
  split.
  { apply (sort_by_sorted ix_leb).
    - intros a b. apply lex_leb_total.
    - intros a b c. apply lex_leb_trans. }
  split.
  - intros k. rewrite Hk2, firsts_keys. rewrite !elem_of_map.
    split; intros (r & -> & Hr); exists r; split; try done.
    + by apply Hkey.
    + symmetry. by apply Hkey.
  - intros r2 Hr2. subst R2. apply sort_by_elem in Hr2.
    apply elem_of_map in Hr2 as (r1 & -> & Hr1). cbn [ix dat].
    exists r1. split; [| done]. apply firsts_elem in Hr1.
    rewrite <- Hr1. apply find_ext_in. intros x Hx. by rewrite (Hkey x Hx).
Qed.

Lemma merge_segments_spec_witness :
  ∃ T1 T2,
    merge_segments overlapping [0; 1] true = Ok (T1, RetNone)
    ∧ merge_segments overlapping [0; 1] false = Ok (overlapping, RetNew T2)
    ∧ index_names T1 = required_index ∧ columns T1 = columns overlapping
    ∧ rows T1 ≡ₚ map (fun r => relabelled r (merged_label [1] 0 r))
                   (rows overlapping)
    ∧ StronglySorted (fun r1 r2 => ix_leb r1 r2 = true) (rows T1)
    ∧ index_names T2 = required_index ∧ columns T2 = columns overlapping
    ∧ NoDup (keys T2)
    ∧ StronglySorted (fun r1 r2 => ix_leb r1 r2 = true) (rows T2)
    ∧ (∀ k, k ∈ keys T2 ↔ k ∈ keys T1)
    ∧ (∀ r2, r2 ∈ rows T2 →
         ∃ r1, List.find (fun r => bool_decide (ix r = ix r2)) (rows T1)
               = Some r1
               ∧ dat r2 = as_series (dat r1)).
Proof.
  apply (merge_segments_spec overlapping 0 [1]).
  - reflexivity.
  - reflexivity.
  - reflexivity.
  - reflexivity.
  - discriminate.
  - intros l Hl. apply list_elem_of_singleton in Hl as ->.
    apply (bool_decide_unpack _). by vm_compute.
Defined.

(** ** [duplicate_segments] *)

Lemma NoDup_map_filter {A B : Type} (f : A -> B) (p : A -> bool) (l : list A) :
  NoDup (map f l) → NoDup (map f (List.filter p l)).
Proof.
  induction l as [|x l IH]; cbn [map List.filter]; [done |].
  intros H. apply NoDup_cons in H as [Hx Hl].
  destruct (p x); [| by apply IH]. cbn [map]. apply NoDup_cons.
  split; [| by apply IH]. intros Hin. apply Hx.
  apply elem_of_map in Hin as (y & E & Hy).
  apply list_elem_of_In, filter_In in Hy as [Hy _].
  apply elem_of_map. exists y. split; [done | by apply list_elem_of_In].
Qed.

Lemma cell_eqb_Int (l v : Z) : cell_eqb (Int l) v = (l =? v).
Proof.
  unfold cell_eqb. cbn [cell_Q].
  destruct (Z.eqb_spec l v) as [->|Hne].
  - apply Qeq_bool_iff. reflexivity.
  - apply not_true_is_false. intros H. apply Qeq_bool_iff in H.
    apply Hne. unfold Qeq, inject_Z in H. simpl in H. lia.
Qed.

Lemma filter_map_comm {A B : Type} (f : A -> B) (p : B -> bool) (l : list A) :
  List.filter p (map f l) = map f (List.filter (fun x => p (f x)) l).
Proof.
  induction l as [|x l IH]; cbn [map List.filter]; [done |].
  destruct (p (f x)); cbn [map]; by rewrite IH.
Qed.

(** X19. [duplicate_segments] of the segment [label]: on a table indexed
    by [(t_stamp, label)] with at least one record and no column called
    [t_stamp] or [label], the table itself is left as it is and the table
    returned holds the records of the table together with one copy of each
    record of the segment, the copies under the fresh label [m + 1], [m]
    being the largest label; it is sorted by key, has the columns of the
    table, and its keys are unique when those of the table are. *)
Theorem duplicate_segments_spec (T : Trajectories) (label : Z) :
  index_names T = required_index →
  wf T = true →
  mem "t_stamp" (columns T) = false →
  mem "label" (columns T) = false →
  rows T ≠ [] →
  ∃ T' m,
    duplicate_segments T label = Ok (T, RetNew T')
    ∧ (∃ r, r ∈ rows T ∧ label_of r = m)
    ∧ (∀ r, r ∈ rows T → label_of r ≤ m)
    ∧ index_names T' = required_index
    ∧ columns T' = columns T
    ∧ rows T'
      ≡ₚ rows T ++ map (fun r => relabelled r (m + 1)) (segment T label)
    ∧ StronglySorted (fun r1 r2 => ix_leb r1 r2 = true) (rows T')
    ∧ (NoDup (keys T) → NoDup (keys T')).
Proof.
  intros Hix Hwf Hts Hlab Hne.
  pose proof (wf_rows T Hix Hwf) as Hrows. rewrite Forall_forall in Hrows.
  destruct (wf_keyed T Hix Hwf) as [Hkeyed _].
  destruct (np_max_labels (rows T) Hne) as (m & _ & (rm & Hrm & Em) & Hle).
  assert (np_max (unique (map label_of (rows T))) = Ok m) as Hm.
  { apply np_max_is.
    - apply elem_of_unique, elem_of_map. by exists rm.
    - intros y Hy. apply elem_of_unique, elem_of_map in Hy as (r & -> & Hr).
      by apply Hle. }
  set (new := fun r => relabelled r (m + 1)).
  set (rs' := sort_by ix_leb (rows T ++ map new (segment T label))).
  exists (Trajs required_index (columns T) rs' None), m.
  split.
  { unfold duplicate_segments, labels, copy.
    cbn [index_names columns rows old_indexes]. rewrite Hlab, Hix.
    rewrite (proj2 (level_values_required _ _ _)). cbn [mbind result_bind].
    rewrite Hm. cbn [mbind result_bind].
    rewrite Hkeyed at 1.
    rewrite (reset_index_keyed _ _ _ Hts Hlab). cbn [mbind result_bind].
    unfold position. cbn [columns]. simpl index_of. cbn [mbind result_bind].
    unfold with_rows at 1. cbn [index_names columns rows old_indexes].
    rewrite filter_map_comm. cbn [dat nth].
    rewrite (map_column_at _ "label" _ 1) by done.
    cbn [mbind result_bind]. unfold with_rows.
    cbn [index_names columns rows old_indexes].
    rewrite !map_map. cbn [ix dat alter list_alter].
    set (G := fun r => Row [] (Int (t_stamp_of r) :: Int (label_of r) :: dat r)).
    replace (map G (rows T)
             ++ map (fun x => Row [] (Int (t_stamp_of x) :: Int (m + 1) :: dat x))
                    (List.filter (fun x => cell_eqb (Int (label_of x)) label)
                                 (rows T)))
      with (map G (rows T ++ map new (segment T label))).
    2:{ rewrite map_app, map_map. f_equal. unfold segment.
        f_equal. apply filter_ext. intros r. by rewrite cell_eqb_Int. }
    rewrite (set_index_keyed (columns T)). cbn [mbind result_bind].
    rewrite sort_index_table. cbn [index_names columns rows old_indexes].
    do 4 f_equal. subst rs'. f_equal.
    rewrite map_app, <- Hkeyed. f_equal. by rewrite map_map. }
  split; [by exists rm |]. split; [done |]. split; [done |]. split; [done |].
  cbn [rows]. split; [apply sort_by_Permutation |]. split.
  { apply (sort_by_sorted ix_leb).
    - intros a b. apply lex_leb_total.
    - intros a b c. apply lex_leb_trans. }
  unfold keys. cbn [rows]. intros Hnd. subst rs'.
  rewrite sort_by_Permutation, map_app. apply NoDup_app. split; [done |].
  split.
  - intros k Hk Hk'. apply elem_of_map in Hk as (r & -> & Hr).
    apply elem_of_map in Hk' as (r' & E & Hr').
    apply elem_of_map in Hr' as (r0 & -> & Hr0).
    destruct (Hrows r Hr) as [Er _]. rewrite Er in E.
    cbn [new relabelled ix] in E. injection E as _ E.
    specialize (Hle r Hr). lia.
  - rewrite map_map.
    apply (NoDup_map_inj_on _ ix).
    + intros a b Ha Hb. apply segment_elem in Ha as [Ha Hla], Hb as [Hb Hlb].
      destruct (Hrows a Ha) as [-> _]. destruct (Hrows b Hb) as [-> _].
      cbn [new relabelled ix]. intros [= Ht]. congruence.
    + unfold segment. by apply NoDup_map_filter.
Qed.

Lemma duplicate_segments_spec_witness :
  ∃ T' m,
    duplicate_segments two_segments 1 = Ok (two_segments, RetNew T')
    ∧ (∃ r, r ∈ rows two_segments ∧ label_of r = m)
    ∧ (∀ r, r ∈ rows two_segments → label_of r ≤ m)
    ∧ index_names T' = required_index
    ∧ columns T' = columns two_segments
    ∧ rows T'
      ≡ₚ rows two_segments
         ++ map (fun r => relabelled r (m + 1)) (segment two_segments 1)
    ∧ StronglySorted (fun r1 r2 => ix_leb r1 r2 = true) (rows T')
    ∧ (NoDup (keys two_segments) → NoDup (keys T')).
Proof.
  apply (duplicate_segments_spec two_segments 1).
  - reflexivity.
  - reflexivity.
  - reflexivity.
  - reflexivity.
  - discriminate.
Defined.

(** ** Construction of the solver, and the empty table *)

(** X20. When [GapCloseSolver] can be built: on a table that passes the
    structure check, construction reads [cost_functions['link']],
    [['birth']] and [['death']] in this order; the first key that the
    dictionary lacks raises a [KeyError] naming it, and with the three
    keys bound to cost functions of the expected kinds the solver is
    built with the table, the coordinates and the maximal gap it was
    given, and without block or cost matrix. *)
Theorem solver_construction (T : Trajectories)
    (cfs : gmap string CostFunction) (max_gap : Z) (coords : list string) :
  index_names T = required_index →
  (∀ c, c ∈ "t" :: coords → c ∈ columns T) →
  (cfs !! "link" = None →
   GapCloseSolver_init T cfs max_gap coords = Raise (KeyError "link"))
  ∧ (∀ l, cfs !! "link" = Some l → kind l = LinkCost →
          cfs !! "birth" = None →
          GapCloseSolver_init T cfs max_gap coords = Raise (KeyError "birth"))
  ∧ (∀ l b, cfs !! "link" = Some l → kind l = LinkCost →
            cfs !! "birth" = Some b → kind b = DiagCost →
            cfs !! "death" = None →
            GapCloseSolver_init T cfs max_gap coords = Raise (KeyError "death"))
  ∧ (∀ l b d, cfs !! "link" = Some l → kind l = LinkCost →
              cfs !! "birth" = Some b → kind b = DiagCost →
              cfs !! "death" = Some d → kind d = DiagCost →
              GapCloseSolver_init T cfs max_gap coords
              = Ok (GCS T coords l b d max_gap None None None None [])).
Proof.
  intros Hix Hcols. unfold GapCloseSolver_init, AbstractSolver_init.
  change ["t_stamp"; "label"] with required_index.
  rewrite (check_contract_ok T ("t" :: coords) Hix Hcols).
  cbn [mbind result_bind]. unfold dict_get, check_cost_function_type.
  split; [by intros -> |].
  split.
  { intros l Hl Hk Hb. rewrite Hl. cbn [mbind result_bind]. rewrite Hk.
    cbn [mbind result_bind]. by rewrite Hb. }
  split.
  { intros l b Hl Hk Hb Hkb Hd. rewrite Hl. cbn [mbind result_bind].
    rewrite Hk. cbn [mbind result_bind]. rewrite Hb. cbn [mbind result_bind].
    rewrite Hkb. cbn [mbind result_bind]. by rewrite Hd. }
  intros l b d Hl Hk Hb Hkb Hd Hkd. rewrite Hl. cbn [mbind result_bind].
  rewrite Hk. cbn [mbind result_bind]. rewrite Hb. cbn [mbind result_bind].
  rewrite Hkb. cbn [mbind result_bind]. rewrite Hd. cbn [mbind result_bind].
  by rewrite Hkd.
Qed.

Lemma solver_construction_witness :
  (cost_functions0 !! "link" = None →
   GapCloseSolver_init two_segments cost_functions0 5 default_coords
   = Raise (KeyError "link"))
  ∧ (∀ l, cost_functions0 !! "link" = Some l → kind l = LinkCost →
          cost_functions0 !! "birth" = None →
          GapCloseSolver_init two_segments cost_functions0 5 default_coords
          = Raise (KeyError "birth"))
  ∧ (∀ l b, cost_functions0 !! "link" = Some l → kind l = LinkCost →
            cost_functions0 !! "birth" = Some b → kind b = DiagCost →
            cost_functions0 !! "death" = None →
            GapCloseSolver_init two_segments cost_functions0 5 default_coords
            = Raise (KeyError "death"))
  ∧ (∀ l b d, cost_functions0 !! "link" = Some l → kind l = LinkCost →
              cost_functions0 !! "birth" = Some b → kind b = DiagCost →
              cost_functions0 !! "death" = Some d → kind d = DiagCost →
              GapCloseSolver_init two_segments cost_functions0 5 default_coords
              = Ok (GCS two_segments default_coords l b d 5
                      None None None None [])).
Proof.
  apply (solver_construction two_segments cost_functions0 5 default_coords).
  - reflexivity.
  - intros c Hc. apply mem_true. revert c Hc. apply Forall_forall.
    repeat constructor.
Defined.

(** X21. The table of [Trajectories.empty_trajs], whatever columns it is
    given: it has the index that the solvers require and passes the
    structure check for every set of required columns among its own; it
    has no label, no frame, no segment and no bound, and the [n] longest
    or shortest segments are none; but [_get_candidates] raises
    [IndexError] on it, whatever the solver. *)
Theorem empty_trajs_queries (cols : list string) :
  (∀ required, (∀ c, c ∈ required → c ∈ cols) →
     check_trajs_df_structure (Trajectories_empty_trajs cols)
       (Some required_index) (Some required) = Ok tt)
  ∧ labels (Trajectories_empty_trajs cols) = Ok []
  ∧ t_stamps (Trajectories_empty_trajs cols) = Ok []
  ∧ get_segments (Trajectories_empty_trajs cols) = Ok []
  ∧ get_bounds (Trajectories_empty_trajs cols) None = Ok []
  ∧ (∀ n, get_shortest_segments (Trajectories_empty_trajs cols) n = Ok []
          ∧ get_longest_segments (Trajectories_empty_trajs cols) n = Ok [])
  ∧ (∀ self, trajs self = Trajectories_empty_trajs cols →
             _get_candidates self = Raise IndexError).
Proof.
  assert (labels (Trajectories_empty_trajs cols) = Ok []) as Hlabels.
  { unfold labels, get_column, position. cbn [Trajectories_empty_trajs columns].
    unfold mem. by destruct (index_of "label" cols). }
  split.
  { intros required Hreq. by apply check_contract_ok. }
  split; [done |]. split; [done |]. split; [done |]. split; [done |].
  split.
  { intros n. unfold get_shortest_segments, get_longest_segments.
    change (segment_idxs (Trajectories_empty_trajs cols)) with
      (@Ok (list (Z * list (list Z))) []).
    cbn [mbind result_bind sort_by]. split.
    - unfold np_slice_to. by rewrite take_nil.
    - unfold slice_from. by rewrite drop_nil. }
  intros self Hself. unfold _get_candidates. rewrite Hself, Hlabels. done.
Qed.

(** ** [set_level_label] and [unset_level_label] *)

Lemma index_of_middle (name : string) (pre post : list string) :
  name ∉ pre → index_of name (pre ++ name :: post) = Some (length pre).
Proof.
  induction pre as [|x pre IH]; intros H; cbn [app index_of length].
  - by rewrite String.eqb_refl.
  - apply not_elem_of_cons in H as [Hne H].
    destruct (String.eqb_spec x name) as [->|_]; [done |].
    by rewrite (IH H).
Qed.

Lemma mem_app_false (name : string) (a b : list string) :
  name ∉ a → name ∉ b → mem name (a ++ b) = false.
Proof.
  intros Ha Hb. apply mem_false. rewrite elem_of_app. tauto.
Qed.

(** [trajs.reset_index(olds, inplace=True)] for the last levels of the
    index. *)
Lemma reset_levels_spec (olds : list string) :
  ∀ (pre cols : list string) (rs : list row) (oi : option (list string)),
    NoDup (pre ++ olds) →
    (∀ l, l ∈ olds → l ∉ cols) →
    Forall (fun r => length (ix r) = length (pre ++ olds)) rs →
    reset_levels (Trajs (pre ++ olds) cols rs oi) olds
    = Ok (Trajs pre (olds ++ cols)
            (map (fun r => Row (take (length pre) (ix r))
                               (map Int (drop (length pre) (ix r)) ++ dat r)) rs)
            oi).
Proof.
  induction olds as [|l ls IH]; intros pre cols rs oi Hnd Hcols Hlen.
  - cbn [reset_levels]. rewrite app_nil_r in *. do 2 f_equal.
    rewrite <- (map_id rs) at 1. apply map_ext_in. intros r Hr.
    apply list_elem_of_In in Hr. eapply Forall_forall in Hlen; [| exact Hr].
    rewrite <- Hlen. rewrite firstn_all, drop_all. by destruct r.
  - cbn [reset_levels].
    replace (pre ++ l :: ls) with ((pre ++ [l]) ++ ls) in *
      by (by rewrite <- app_assoc).
    rewrite (IH (pre ++ [l]) cols rs oi Hnd).
    2:{ intros l' Hl'. apply Hcols. by right. }
    2:{ done. }
    cbn [mbind result_bind]. unfold reset_level, position.
    cbn [index_names columns rows old_indexes].
    apply NoDup_app in Hnd as (Hnd1 & Hdis & Hnd2).
    apply NoDup_app in Hnd1 as (Hpre & Hl & _).
    assert (l ∉ pre) as Hlpre.
    { intros H. apply (Hl l H). left. }
    rewrite (index_of_middle l pre [] Hlpre). cbn [mbind result_bind].
    rewrite mem_app_false.
    2:{ intros H. apply (Hdis l); [| done]. apply elem_of_app. right. left. }
    2:{ apply Hcols. left. }
    rewrite (delete_middle pre [] l), app_nil_r. do 2 f_equal.
    rewrite map_map. apply map_ext_in. intros r Hr.
    apply list_elem_of_In in Hr. eapply Forall_forall in Hlen; [| exact Hr].
    rewrite !length_app in Hlen. cbn [length] in Hlen.
    cbn [ix dat]. rewrite length_app. cbn [length].
    assert (length pre < length (ix r))%nat as Hlt by lia.
    destruct (lookup_lt_is_Some_2 _ _ Hlt) as [v Hv].
    f_equal.
    + rewrite Nat.add_1_r. rewrite (take_S_r _ _ v Hv).
      rewrite <- (length_take_le (ix r) (length pre)) at 1 by lia.
      rewrite (delete_middle (take (length pre) (ix r)) [] v). apply app_nil_r.
    + rewrite Nat.add_1_r. rewrite (drop_S _ _ _ Hv). cbn [map app].
      do 2 f_equal. rewrite nth_lookup, lookup_take_lt by lia. by rewrite Hv.
Qed.

(** [trajs.set_index(olds, append=True, inplace=True)] for the columns
    that follow the first one. *)
Lemma set_index_append_all_spec (olds : list string) :
  ∀ (names cols : list string) (c0 : string) (rs : list row)
    (oi : option (list string)) (i : row -> list Z) (a : row -> cell)
    (vs : row -> list Z) (d : row -> list cell),
    NoDup (c0 :: olds) →
    Forall (fun r => length (vs r) = length olds) rs →
    set_index_append_all
      (Trajs names (c0 :: olds ++ cols)
         (map (fun r => Row (i r) (a r :: map Int (vs r) ++ d r)) rs) oi) olds
    = Ok (Trajs (names ++ olds) (c0 :: cols)
            (map (fun r => Row (i r ++ vs r) (a r :: d r)) rs) oi).
Proof.
  induction olds as [|c olds IH]; intros names cols c0 rs oi i a vs d Hnd Hlen.
  - cbn [set_index_append_all]. rewrite app_nil_r. do 2 f_equal.
    apply map_ext_in. intros r Hr. apply list_elem_of_In in Hr.
    eapply Forall_forall in Hlen; [| exact Hr].
    destruct (vs r); [| done]. by rewrite app_nil_r.
  - cbn [set_index_append_all]. unfold set_index_append, position.
    cbn [index_names columns rows old_indexes app].
    apply NoDup_cons in Hnd as [Hc0 Hnd].
    apply not_elem_of_cons in Hc0 as [Hne Hc0].
    cbn [index_of]. destruct (String.eqb_spec c0 c) as [E|_]; [done |].
    rewrite String.eqb_refl. cbn [option_map mbind result_bind].
    rewrite mapM_map.
    rewrite (mapM_ok _ (fun r => Row (i r ++ [hd 0 (vs r)])
                                     (a r :: map Int (tl (vs r)) ++ d r))).
    2:{ intros r Hr. eapply Forall_forall in Hlen; [| exact Hr].
        cbn [ix dat]. destruct (vs r) as [|v vs']; [done |]. done. }
    cbn [mbind result_bind].
    change (delete 1%nat (c0 :: c :: olds ++ cols)) with (c0 :: olds ++ cols).
    rewrite (IH (names ++ [c]) cols c0 rs oi
               (fun r => i r ++ [hd 0 (vs r)]) a (fun r => tl (vs r)) d).
    + rewrite <- app_assoc. do 2 f_equal. apply map_ext_in. intros r Hr.
      apply list_elem_of_In in Hr. eapply Forall_forall in Hlen; [| exact Hr].
      destruct (vs r) as [|v vs']; [done |]. cbn [hd tl].
      by rewrite <- app_assoc.
    + apply NoDup_cons. split; [done |]. by apply NoDup_cons in Hnd as [_ Hnd].
    + apply Forall_forall. intros r Hr.
      eapply Forall_forall in Hlen; [| exact Hr].
      destruct (vs r) as [|v vs']; [done |]. cbn [tl length] in *. lia.
Qed.

(** X22. [unset_level_label] undoes [set_level_label]: on a table whose
    index is [t_stamp] followed by at least one other level, whose first
    column is [label] and holds integers, and in which no name is used
    twice, [set_level_label] moves the other levels into the columns, makes
    [(t_stamp, label)] the index and remembers the levels in
    [old_indexes]; [unset_level_label] called without columns then gives
    back the index, the columns and the records of the table. *)
Theorem label_level_round_trip (T : Trajectories) (olds cols : list string) :
  index_names T = "t_stamp" :: olds →
  olds ≠ [] →
  columns T = "label" :: cols →
  NoDup ("t_stamp" :: olds ++ "label" :: cols) →
  wf T = true →
  Forall (fun r => is_float (nth 0 (dat r) (Int 0)) = false) (rows T) →
  ∃ T1,
    set_level_label T true = Ok (T1, RetNone)
    ∧ index_names T1 = ["t_stamp"; "label"]
    ∧ columns T1 = olds ++ cols
    ∧ old_indexes T1 = Some olds
    ∧ length (rows T1) = length (rows T)
    ∧ unset_level_label T1 [] true
      = Ok (Trajs (index_names T) (columns T) (rows T) (Some olds), RetNone).
Proof.
  intros Hix Hne Hcols Hnd Hwf Hint.
  apply NoDup_cons in Hnd as [Hts Hnd].
  apply NoDup_app in Hnd as (Hndo & Hdis & Hndc).
  apply NoDup_cons in Hndc as [Hlc Hndc].
  apply not_elem_of_app in Hts as [Htso Htsc].
  assert ("label" ∉ olds) as Hlo.
  { intros H. apply (Hdis _ H). left. }
  assert (∀ r, r ∈ rows T →
               ∃ t vs z d', ix r = t :: vs ∧ length vs = length olds
                            ∧ dat r = Int z :: d') as Hrow.
  { intros r Hr. unfold wf in Hwf. rewrite forallb_forall in Hwf.
    pose proof (Hwf r (proj1 (list_elem_of_In _ _) Hr)) as H.
    apply andb_prop in H as [H1 H2]. apply Nat.eqb_eq in H1, H2.
    rewrite Hix in H1. rewrite Hcols in H2.
    eapply Forall_forall in Hint; [| exact Hr].
    destruct r as [[|t vs] [|c d']]; cbn [ix dat length nth] in *; try done.
    destruct c as [z|q]; [| done]. exists t, vs, z, d'.
    repeat split; try done. lia. }
  set (R2 := fun r => Row (take 1 (ix r) ++ [cell_Z (nth 0 (dat r) (Int 0))])
                          (map Int (drop 1 (ix r)) ++ tl (dat r))).
  exists (Trajs ["t_stamp"; "label"] (olds ++ cols) (map R2 (rows T)) (Some olds)).
  split.
  { unfold set_level_label.
    replace (mem "label" (columns T)) with true by (by rewrite Hcols).
    cbn [negb]. rewrite Hix. simpl list_remove.
    cbn [mbind result_bind index_names columns rows].
    change ("t_stamp" :: olds) with (["t_stamp"] ++ olds).
    rewrite (reset_levels_spec olds ["t_stamp"] (columns T) (rows T) (Some olds)).
    2:{ apply NoDup_cons. split; [done |]. done. }
    2:{ intros l Hl. rewrite Hcols. intros H. by apply (Hdis l). }
    2:{ apply Forall_forall. intros r Hr.
        destruct (Hrow r Hr) as (t & vs & z & d' & -> & Hl & _).
        cbn [length app]. by rewrite Hl. }
    cbn [mbind result_bind]. unfold set_index_append, position.
    cbn [index_names columns rows old_indexes]. rewrite Hcols.
    rewrite (index_of_middle "label" olds cols Hlo). cbn [mbind result_bind].
    rewrite mapM_map. rewrite (mapM_ok _ R2).
    - cbn [mbind result_bind app]. rewrite (delete_middle olds cols "label").
      done.
    - intros r Hr. destruct (Hrow r Hr) as (t & vs & z & d' & Ei & Hl & Ed).
      cbn [ix dat length]. rewrite Ei, Ed. cbn [take drop].
      rewrite drop_0, take_0.
      rewrite nth_lookup, lookup_app_r by (rewrite length_map; lia).
      rewrite length_map, Hl, Nat.sub_diag.
      cbn [lookup list_lookup default as_key mbind result_bind].
      subst R2. cbn [ix dat nth cell_Z tl take drop]. rewrite Ei, Ed.
      cbn [ix dat nth cell_Z tl take drop]. rewrite drop_0, take_0.
      cbn [id as_key mbind result_bind].
      rewrite <- Hl, <- (length_map Int vs).
      by rewrite (delete_middle (map Int vs) d' (Int z)). }
  cbn [index_names columns old_indexes rows].
  split; [done |]. split; [done |]. split; [done |].
  split; [by rewrite length_map |].
  unfold unset_level_label, has_old_indexes.
  cbn [length Nat.eqb andb negb old_indexes default].
  unfold reset_level, position. cbn [index_names columns rows old_indexes].
  simpl index_of. cbn [mbind result_bind].
  rewrite (mem_app_false "label" olds cols Hlo Hlc).
  cbn [mbind result_bind].
  change (delete 1%nat ["t_stamp"; "label"]) with ["t_stamp"].
  rewrite map_map.
  rewrite (map_ext_in _
             (fun r => Row (take 1 (ix r))
                           (Int (cell_Z (nth 0 (dat r) (Int 0)))
                            :: map Int (drop 1 (ix r)) ++ tl (dat r)))).
  2:{ intros r Hr. apply list_elem_of_In in Hr.
      destruct (Hrow r Hr) as (t & vs & z & d' & Ei & Hl & Ed).
      subst R2. cbn [ix dat]. rewrite Ei, Ed. cbn [take drop nth app].
      by rewrite take_0. }
  cbn [id].
  rewrite (set_index_append_all_spec olds ["t_stamp"] cols "label" (rows T)
             (Some olds) (fun r => take 1 (ix r))
             (fun r => Int (cell_Z (nth 0 (dat r) (Int 0))))
             (fun r => drop 1 (ix r)) (fun r => tl (dat r))).
  - cbn [mbind result_bind app]. rewrite Hix, Hcols. do 3 f_equal.
    rewrite <- (map_id (rows T)) at 2. apply map_ext_in. intros r Hr.
    apply list_elem_of_In in Hr.
    destruct (Hrow r Hr) as (t & vs & z & d' & Ei & Hl & Ed).
    rewrite take_drop. destruct r as [i d]. cbn [ix dat] in *. by subst.
  - apply NoDup_cons. split; done.
  - apply Forall_forall. intros r Hr.
    destruct (Hrow r Hr) as (t & vs & z & d' & -> & Hl & _). done.
Qed.

Lemma label_level_round_trip_witness :
  ∃ T1,
    set_level_label label_first true = Ok (T1, RetNone)
    ∧ index_names T1 = ["t_stamp"; "label"]
    ∧ columns T1 = ["id"] ++ ["x"]
    ∧ old_indexes T1 = Some ["id"]
    ∧ length (rows T1) = length (rows label_first)
    ∧ unset_level_label T1 [] true
      = Ok (Trajs (index_names label_first) (columns label_first)
              (rows label_first) (Some ["id"]), RetNone).
Proof.
  apply (label_level_round_trip label_first ["id"] ["x"]).
  - reflexivity.
  - discriminate.
  - reflexivity.
  - apply (bool_decide_unpack _). by vm_compute.
  - reflexivity.
  - apply (bool_decide_unpack _). by vm_compute.
Defined.

(** ** [get_bounds] for a column *)

Lemma loc_at_unique (T : Trajectories) (r : row) (column : string) (p : nat) :
  NoDup (keys T) → r ∈ rows T →
  index_of column (columns T) = Some p →
  loc_at T (ix r) column = Ok (Scalar (nth p (dat r) (Int 0))).
Proof.
  intros Hnd Hr Hp. unfold loc_at, position. rewrite Hp.
  cbn [mbind result_bind]. by rewrite (filter_unique_key (rows T) r Hnd Hr).
Qed.

Lemma loc_at_missing (T : Trajectories) (k : list Z) (column : string) :
  index_of column (columns T) = None →
  loc_at T k column = Raise (KeyError column).
Proof. intros H. unfold loc_at, position. by rewrite H. Qed.

Lemma hd_map {A B : Type} (f : A -> B) (l : list A) (a : A) :
  hd (f a) (map f l) = f (hd a l).
Proof. by destruct l. Qed.

Lemma last_map {A B : Type} (f : A -> B) (l : list A) (a : A) :
  List.last (map f l) (f a) = f (List.last l a).
Proof.
  induction l as [|x [|y l] IH]; [done | done |].
  change (map f (x :: y :: l)) with (f x :: map f (y :: l)).
  change (f x :: map f (y :: l)) with (f x :: f y :: map f l).
  rewrite !last_cons_cons. exact IH.
Qed.

(** X23. [get_bounds] for a column: when no two records share a key
    and the column exists, the bounds of a label are the cells that the
    first and the last record of its segment, in the order of the table,
    hold in that column; a column that the table does not have raises
    [KeyError] as soon as the table has a record. *)
Theorem get_bounds_of_column (T : Trajectories) (column : string) :
  index_names T = required_index →
  NoDup (keys T) →
  column ≠ EmptyString →
  (∀ p, index_of column (columns T) = Some p →
     get_bounds T (Some column)
     = Ok (map (fun l =>
                  (l, (Scalar (nth p (dat (hd (Row [] []) (segment T l))) (Int 0)),
                       Scalar (nth p (dat (List.last (segment T l) (Row [] [])))
                                  (Int 0)))))
               (sort_by Z.leb (unique (map label_of (rows T))))))
  ∧ (index_of column (columns T) = None → rows T ≠ [] →
     get_bounds T (Some column) = Raise (KeyError column)).
Proof.
  intros Hix Hnd Hcol.
  assert (truthy_name (Some column) = true) as Htruthy by (by destruct column).
  unfold get_bounds. rewrite (segment_idxs_labels T Hix), Htruthy.
  cbn [mbind result_bind default]. rewrite mapM_map. cbn [fst snd]. split.
  - intros p Hp. apply mapM_ok. intros l Hl. apply sort_by_elem in Hl.
    pose proof (segment_nonempty T l Hl) as Hne.
    pose proof (hd_elem _ (Row [] []) Hne) as H1.
    pose proof (last_elem _ (Row [] []) Hne) as H2.
    apply segment_elem in H1 as [H1 _]. apply segment_elem in H2 as [H2 _].
    replace (hd [] (map ix (segment T l)))
      with (ix (hd (Row [] []) (segment T l)))
      by (symmetry; apply (hd_map ix _ (Row [] []))).
    replace (List.last (map ix (segment T l)) [])
      with (ix (List.last (segment T l) (Row [] [])))
      by (symmetry; apply (last_map ix _ (Row [] []))).
    cbn [id].
    rewrite (loc_at_unique T _ column p Hnd H1 Hp). cbn [mbind result_bind].
    by rewrite (loc_at_unique T _ column p Hnd H2 Hp).
  - intros Hnone Hrows.
    destruct (sort_by Z.leb (unique (map label_of (rows T)))) as [|l ls] eqn:E.
    + exfalso. destruct (rows T) as [|r rs]; [done |].
      assert (label_of r ∈ sort_by Z.leb (unique (map label_of (r :: rs)))) as H.
      { apply sort_by_elem, elem_of_unique. left. }
      rewrite E in H. by apply elem_of_nil in H.
    + cbn [mapM id]. rewrite (loc_at_missing T (hd [] (map ix (segment T l))) column Hnone).
      reflexivity.
Qed.

Lemma get_bounds_of_column_witness :
  (∀ p, index_of "t" (columns three_segments) = Some p →
     get_bounds three_segments (Some "t")
     = Ok (map (fun l =>
                  (l, (Scalar (nth p (dat (hd (Row [] []) (segment three_segments l)))
                                  (Int 0)),
                       Scalar (nth p (dat (List.last (segment three_segments l)
                                             (Row [] [])))
                                  (Int 0)))))
               (sort_by Z.leb (unique (map label_of (rows three_segments))))))
  ∧ (index_of "t" (columns three_segments) = None →
     rows three_segments ≠ [] →
     get_bounds three_segments (Some "t") = Raise (KeyError "t")).
Proof.
  apply (get_bounds_of_column three_segments "t").
  - reflexivity.
  - apply (bool_decide_unpack _). by vm_compute.
  - discriminate.
Defined.

(** ** [reverse] and the ends of the segments *)

Lemma t_stamp_leb_sorted (rs : list row) :
  StronglySorted Z.le (map t_stamp_of (sort_by t_stamp_leb rs)).
Proof.
  apply (StronglySorted_map (fun a b => t_stamp_leb a b = true)).
  - intros a b _ _ H. unfold t_stamp_leb, key_leb in H. by apply Z.leb_le.
  - apply (sort_by_sorted t_stamp_leb).
    + intros a b H. unfold t_stamp_leb, key_leb in *.
      apply Z.leb_gt in H. apply Z.leb_le. lia.
    + intros a b c H1 H2. unfold t_stamp_leb, key_leb in *.
      apply Z.leb_le in H1, H2. apply Z.leb_le. lia.
Qed.

(** Two sorted lists of frames, one holding the opposites of the frames
    of the other, have opposite ends. *)
Lemma opposite_ends (F F' : list Z) :
  StronglySorted Z.le F → StronglySorted Z.le F' →
  (∀ x, x ∈ F' ↔ - x ∈ F) →
  hd 0 F' = - List.last F 0 ∧ List.last F' 0 = - hd 0 F.
Proof.
  intros HF HF' Hopp.
  destruct F as [|a F0] eqn:EF.
  - destruct F' as [|b F0']; [done |].
    exfalso. pose proof (proj1 (Hopp b) ltac:(left)) as H.
    by apply elem_of_nil in H.
  - rewrite <- EF in *. assert (F ≠ []) as Hne by (by rewrite EF).
    assert (F' ≠ []) as Hne'.
    { intros ->. assert (a ∈ F) as Ha by (rewrite EF; left).
      replace a with (- - a) in Ha by lia. apply Hopp in Ha.
      by apply elem_of_nil in Ha. }
    pose proof (hd_elem F 0 Hne) as H1. pose proof (last_elem F 0 Hne) as H2.
    pose proof (hd_elem F' 0 Hne') as H1'. pose proof (last_elem F' 0 Hne') as H2'.
    pose proof (sorted_hd_last F HF) as HB. pose proof (sorted_hd_last F' HF') as HB'.
    assert (- List.last F 0 ∈ F') as Ha.
    { apply Hopp. by replace (- - List.last F 0) with (List.last F 0) by lia. }
    assert (- hd 0 F ∈ F') as Hb.
    { apply Hopp. by replace (- - hd 0 F) with (hd 0 F) by lia. }
    apply Hopp in H1', H2'.
    pose proof (HB _ H1'). pose proof (HB _ H2').
    pose proof (HB' _ Ha). pose proof (HB' _ Hb). lia.
Qed.

(** X24. [reverse] swaps the ends of every segment: on a table sorted
    by frame, indexed by [(t_stamp, label)], that has the time column and
    no column called [t_stamp] or [label], the table is left as it is and
    the table returned is sorted by frame again; each of its segments
    starts at the opposite of the frame at which the segment stopped and
    stops at the opposite of the frame at which it started; and keys that
    were unique stay unique. *)
Theorem reverse_swaps_ends (T : Trajectories) (time_column : string) (p : nat) :
  index_names T = required_index →
  wf T = true →
  index_of time_column (columns T) = Some p →
  mem "t_stamp" (columns T) = false →
  mem "label" (columns T) = false →
  StronglySorted Z.le (map t_stamp_of (rows T)) →
  ∃ T',
    reverse T time_column false = Ok (T, RetNew T')
    ∧ StronglySorted Z.le (map t_stamp_of (rows T'))
    ∧ (∀ l, start_time T' l = - stop_time T l
            ∧ stop_time T' l = - start_time T l)
    ∧ (NoDup (keys T) → NoDup (keys T')).
Proof.
  intros Hix Hwf Hp Hts Hlab Hsorted.
  destruct (wf_keyed T Hix Hwf) as [Hkeyed _].
  pose proof (wf_rows T Hix Hwf) as Hrows. rewrite Forall_forall in Hrows.
  set (R := sort_by t_stamp_leb (map (negate_time p) (rows T))).
  exists (Trajs required_index (columns T) R None).
  split.
  { destruct T as [names cols rs oi]. cbn [index_names columns rows] in *.
    subst names. rewrite Hkeyed at 1 2.
    rewrite (reverse_keyed cols rs oi time_column p Hp Hts Hlab).
    subst R. by rewrite <- Hkeyed. }
  cbn [rows]. split; [apply t_stamp_leb_sorted |]. split.
  - intros l. unfold start_time, stop_time, segment. cbn [rows].
    apply opposite_ends.
    + by apply StronglySorted_filter_map.
    + apply StronglySorted_filter_map, t_stamp_leb_sorted.
    + intros x. rewrite !elem_of_map. split.
      * intros (r' & -> & Hr'). apply list_elem_of_In, filter_In in Hr' as [Hr' Hl].
        apply list_elem_of_In, sort_by_elem, elem_of_map in Hr' as (r & -> & Hr).
        exists r. split; [by rewrite t_stamp_of_negate_time; lia |].
        apply list_elem_of_In, filter_In. split; [by apply list_elem_of_In | done].
      * intros (r & E & Hr). apply list_elem_of_In, filter_In in Hr as [Hr Hl].
        exists (negate_time p r). split; [rewrite t_stamp_of_negate_time; lia |].
        apply list_elem_of_In, filter_In. split; [| done].
        apply list_elem_of_In, sort_by_elem, elem_of_map. exists r.
        split; [done | by apply list_elem_of_In].
  - unfold keys. cbn [rows]. intros Hnd. subst R.
    rewrite sort_by_Permutation, map_map.
    apply (NoDup_map_inj_on _ ix); [| done].
    intros a b Ha Hb. destruct (Hrows a Ha) as [-> _].
    destruct (Hrows b Hb) as [-> _]. cbn [negate_time ix].
    intros [= Ht Hl]. f_equal; [lia | by f_equal].
Qed.

Lemma reverse_swaps_ends_witness :
  ∃ T',
    reverse three_segments "t" false = Ok (three_segments, RetNew T')
    ∧ StronglySorted Z.le (map t_stamp_of (rows T'))
    ∧ (∀ l, start_time T' l = - stop_time three_segments l
            ∧ stop_time T' l = - start_time three_segments l)
    ∧ (NoDup (keys three_segments) → NoDup (keys T')).
Proof.
  apply (reverse_swaps_ends three_segments "t" 0).
  - reflexivity.
  - reflexivity.
  - reflexivity.
  - reflexivity.
  - reflexivity.
  - apply (bool_decide_unpack _). by vm_compute.
Defined.

(** ** [relabel_fromzero] for the level [t_stamp] *)

Lemma zip_with_swapped (rs : list row) :
  ∀ zs, length zs = length rs →
        map t_stamp_of
          (zip_with (fun r z => Row [label_of r; z] (dat r)) rs zs)
        = map label_of rs
        ∧ map label_of
            (zip_with (fun r z => Row [label_of r; z] (dat r)) rs zs) = zs
        ∧ map dat (zip_with (fun r z => Row [label_of r; z] (dat r)) rs zs)
          = map dat rs.
Proof.
  induction rs as [|r rs IH]; intros [|z zs] Hlen; simpl in *; try done.
  destruct (IH zs ltac:(lia)) as (-> & -> & ->). done.
Qed.

(** X25. [relabel_fromzero] serves the level [label] only: the names of
    the index are set to [t_stamp] and [label] whatever the level.  Called
    for the level [t_stamp] on a table indexed by [(t_stamp, label)]
    without a column [new_label], it drops the frames from the index: in
    the result the level named [t_stamp] holds the labels of the records
    and the level named [label] holds their frames, renumbered from zero
    in the order of their first appearance; the cells are unchanged. *)
Theorem relabel_fromzero_of_frames (T : Trajectories) (inplace : bool) :
  index_names T = required_index →
  wf T = true →
  mem "new_label" (columns T) = false →
  ∃ T',
    relabel_fromzero T "t_stamp" inplace
    = Ok (if inplace then (T', RetNone) else (T, RetNew T'))
    ∧ index_names T' = required_index
    ∧ columns T' = columns T
    ∧ map t_stamp_of (rows T') = map label_of (rows T)
    ∧ map label_of (rows T') = renumber (map t_stamp_of (rows T))
    ∧ map dat (rows T') = map dat (rows T).
Proof.
  intros Hix Hwf Hnew. unfold relabel_fromzero.
  unfold get_level_values, position. rewrite Hix. simpl index_of.
  cbn [mbind result_bind].
  change (map (fun r => nth 0 (ix r) 0) (rows T)) with (map t_stamp_of (rows T)).
  set (zs := renumber (map t_stamp_of (rows T))).
  assert (length zs = length (rows T)) as Hlen.
  { subst zs. by rewrite renumber_length, length_map. }
  set (trajs := if negb inplace then copy T else T).
  assert (index_names trajs = required_index ∧ wf trajs = true
          ∧ rows trajs = rows T ∧ columns trajs = columns T)
    as (Hix' & Hwf' & Hrows & Hcols).
  { subst trajs. by destruct inplace. }
  destruct (add_level trajs "new_label" zs (wf_wf_dat _ Hwf')) as (T1 & H1 & H2).
  { by rewrite Hrows. }
  rewrite H1. cbn [mbind result_bind]. rewrite H2. cbn [mbind result_bind].
  rewrite (without_column_absent _ trajs) by (by rewrite Hcols).
  unfold drop_level, position. cbn [index_names]. rewrite Hix'.
  simpl index_of. cbn [mbind result_bind columns rows old_indexes].
  unfold set_names. cbn [index_names]. simpl length. cbn [Nat.eqb negb].
  rewrite Hrows, Hcols.
  set (rs' := map (fun r => Row (delete 0%nat (ix r)) (dat r))
                  (zip_with (fun r z => Row (ix r ++ [z]) (dat r)) (rows T) zs)).
  assert (rs' = zip_with (fun r z => Row [label_of r; z] (dat r)) (rows T) zs)
    as Hrs.
  { subst rs'. rewrite map_zip_with. apply zip_with_ext_in. intros r z Hr.
    cbn [ix dat]. by rewrite (wf_two T r Hix Hwf Hr). }
  exists (Trajs ["t_stamp"; "label"] (columns T) rs' (old_indexes trajs)).
  split; [by destruct inplace |]. split; [done |]. split; [done |].
  cbn [rows]. rewrite Hrs. by apply zip_with_swapped.
Qed.

Lemma relabel_fromzero_of_frames_witness :
  ∃ T',
    relabel_fromzero two_segments "t_stamp" false
    = Ok (two_segments, RetNew T')
    ∧ index_names T' = required_index
    ∧ columns T' = columns two_segments
    ∧ map t_stamp_of (rows T') = map label_of (rows two_segments)
    ∧ map label_of (rows T') = renumber (map t_stamp_of (rows two_segments))
    ∧ map dat (rows T') = map dat (rows two_segments).
Proof.
  apply (relabel_fromzero_of_frames two_segments false).
  - reflexivity.
  - reflexivity.
  - reflexivity.
Defined.

(** ** [merge_segments] after [cut_segments] *)

Lemma lex_leb_antisym (a b : list Z) :
  lex_leb a b = true → lex_leb b a = true → a = b.
Proof.
  revert b. induction a as [|x a IH]; intros [|y b]; simpl; try done.
  intros H1 H2.
  apply orb_true_iff in H1 as [H1|H1]; apply orb_true_iff in H2 as [H2|H2].
  - apply Z.ltb_lt in H1, H2. lia.
  - apply Z.ltb_lt in H1. apply andb_true_iff in H2 as [H2 _].
    apply Z.eqb_eq in H2. lia.
  - apply Z.ltb_lt in H2. apply andb_true_iff in H1 as [H1 _].
    apply Z.eqb_eq in H1. lia.
  - apply andb_true_iff in H1 as [H1 H1']. apply andb_true_iff in H2 as [H2 H2'].
    apply Z.eqb_eq in H1 as ->. f_equal. by apply IH.
Qed.

Lemma NoDup_keys_eq (rs : list row) (a b : row) :
  NoDup (map ix rs) → a ∈ rs → b ∈ rs → ix a = ix b → a = b.
Proof.
  intros Hnd Ha Hb E.
  apply list_elem_of_lookup in Ha as [i Hi]. apply list_elem_of_lookup in Hb as [j Hj].
  assert (i = j) as ->.
  { apply (NoDup_lookup (map ix rs) i j (ix a)); [done | |].
    - by rewrite lookup_map, Hi.
    - by rewrite lookup_map, Hj, E. }
  congruence.
Qed.

(** A table has one list of records sorted by key, when its keys are
    unique. *)
Lemma sorted_rows_unique (rs l1 l2 : list row) :
  NoDup (map ix rs) →
  l1 ≡ₚ rs → l2 ≡ₚ rs →
  StronglySorted (fun r1 r2 => ix_leb r1 r2 = true) l1 →
  StronglySorted (fun r1 r2 => ix_leb r1 r2 = true) l2 →
  l1 = l2.
Proof.
  intros Hnd H1 H2 Hs1 Hs2.
  apply (StronglySorted_unique_strong (fun r1 r2 => ix_leb r1 r2 = true));
    [| done | done | by rewrite H1, H2].
  intros a b Ha Hb Hab Hba. rewrite H1 in Ha. rewrite H2 in Hb.
  apply (NoDup_keys_eq rs); [done | done | done |].
  by apply lex_leb_antisym.
Qed.

Lemma firsts_of_NoDup (key : row -> list Z) (rs : list row) :
  NoDup (map key rs) → firsts key rs = rs.
Proof.
  induction rs as [|r rs IH]; cbn [firsts map]; [done |].
  intros H. apply NoDup_cons in H as [Hr Hnd]. rewrite (IH Hnd). f_equal.
  clear IH Hnd. induction rs as [|x rs IH]; [done |]. cbn [List.filter].
  cbn [map] in Hr. apply not_elem_of_cons in Hr as [Hne Hr].
  rewrite bool_decide_eq_false_2 by done. cbn [negb]. f_equal. by apply IH.
Qed.

Lemma merge_cut_row (t_stamp label m : Z) (r : row) :
  ix r = [t_stamp_of r; label_of r] →
  label_of r ≤ m →
  relabelled (cut_row t_stamp label (m + 1) r)
    (merged_label [m + 1] label (cut_row t_stamp label (m + 1) r))
  = r.
Proof.
  destruct r as [[|a [|b [|c i]]] d]; intros [=] Hle.
  unfold cut_row, cut_label, merged_label, relabelled, t_stamp_of, label_of in *.
  cbn [ix dat nth] in *.
  destruct ((a >? t_stamp) && (b =? label)) eqn:E; cbn [nth].
  - rewrite bool_decide_eq_true_2 by left.
    apply andb_true_iff in E as [_ E]. apply Z.eqb_eq in E. by subst.
  - rewrite bool_decide_eq_false_2; [done |].
    intros H. apply list_elem_of_singleton in H. lia.
Qed.

(** X26. [merge_segments] undoes [cut_segments]: on a table indexed by
    [(t_stamp, label)] with unique keys, no column called [label] or
    [new_label] and rows whose cells have one type, cutting the segment
    [label] at a frame after which it has a record, and then merging the
    fresh label back into [label], gives the records of the table again,
    sorted by key, under the same index and columns. *)
Theorem merge_undoes_cut (T : Trajectories) (t_stamp label : Z) :
  index_names T = required_index →
  wf T = true →
  mem "new_label" (columns T) = false →
  mem "label" (columns T) = false →
  NoDup (keys T) →
  Forall (fun r => as_series (dat r) = dat r) (rows T) →
  (∃ r, r ∈ rows T ∧ label_of r = label ∧ t_stamp < t_stamp_of r) →
  ∃ T1 T2 m,
    cut_segments T (t_stamp, label) false = Ok (T, RetNew T1)
    ∧ m + 1 ∈ map label_of (rows T1)
    ∧ (∀ r, r ∈ rows T → label_of r ≤ m)
    ∧ merge_segments T1 [label; m + 1] false = Ok (T1, RetNew T2)
    ∧ index_names T2 = index_names T
    ∧ columns T2 = columns T
    ∧ rows T2 = sort_by ix_leb (rows T).
Proof.
  intros Hix Hwf Hnew Hlab Hnd Hseries (r0 & Hr0 & Hl0 & Ht0).
  assert (rows T ≠ []) as Hne by (intros E; rewrite E in Hr0; by apply elem_of_nil in Hr0).
  destruct (cut_segments_table T t_stamp label false Hix Hwf Hnew Hlab Hne)
    as (m & _ & Hle & Hcut).
  cbn zeta in Hcut. cbn [copy old_indexes] in Hcut.
  set (cut := cut_row t_stamp label (m + 1)) in *.
  set (C := sort_by ix_leb (map cut (sort_by ix_leb (rows T)))) in *.
  set (T1 := Trajs required_index (columns T) C None) in *.
  assert (C ≡ₚ map cut (rows T)) as HC.
  { subst C. by rewrite !sort_by_Permutation. }
  assert (wf T1 = true) as Hwf1.
  { unfold wf. apply forallb_forall. intros r Hr. apply list_elem_of_In in Hr.
    cbn [T1 rows index_names columns] in *. rewrite HC in Hr.
    apply elem_of_map in Hr as (r' & -> & Hr').
    pose proof (wf_rows T Hix Hwf) as Hrows.
    eapply Forall_forall in Hrows as [_ Hd]; [| exact Hr'].
    cbn [cut cut_row relabelled ix dat required_index length].
    by rewrite Hd, !Nat.eqb_refl. }
  assert (m + 1 ∈ map label_of (rows T1)) as Hfresh.
  { cbn [T1 rows]. rewrite HC, map_map. apply elem_of_map. exists r0.
    split; [| done]. cbn [cut cut_row relabelled label_of ix nth].
    unfold cut_label. rewrite Hl0, Z.eqb_refl.
    replace (t_stamp_of r0 >? t_stamp) with true; [done |].
    symmetry. apply Z.gtb_lt. lia. }
  pose proof (merge_segments_table T1 label [m + 1] false eq_refl Hwf1 Hnew Hlab)
    as Hmerge. cbn zeta in Hmerge. cbn [T1 rows columns] in Hmerge.
  exists T1, (Trajs required_index (columns T) (sort_by ix_leb (rows T)) None), m.
  split; [exact Hcut |]. split; [exact Hfresh |]. split; [exact Hle |].
  split; [| by rewrite Hix].
  rewrite Hmerge.
  2:{ intros l Hl. apply list_elem_of_singleton in Hl as ->. exact Hfresh. }
  do 4 f_equal.
  set (M := fun r => relabelled r (merged_label [m + 1] label r)).
  set (R1 := sort_by ix_leb (map M (sort_by ix_leb C))).
  set (key := fun r : row => map (fun p => nth p (ix r) 0) [0%nat; 1%nat]).
  assert (map M (map cut (rows T)) = rows T) as Hback.
  { rewrite map_map. rewrite <- (map_id (rows T)) at 2. apply map_ext_in.
    intros r Hr. apply list_elem_of_In in Hr. unfold M, cut.
    apply merge_cut_row; [by apply (wf_two T) | by apply Hle]. }
  assert (R1 ≡ₚ rows T) as HR1.
  { subst R1. rewrite !sort_by_Permutation, HC. by rewrite Hback. }
  assert (∀ r, r ∈ R1 → key r = ix r) as Hkey.
  { intros r Hr. subst R1. apply sort_by_elem in Hr.
    by apply elem_of_map in Hr as (r' & -> & _). }
  assert (map key R1 = map ix R1) as Hkeys.
  { apply map_ext_in. intros r Hr. apply Hkey. by apply list_elem_of_In. }
  rewrite firsts_of_NoDup.
  2:{ rewrite Hkeys, HR1. exact Hnd. }
  match goal with
  | |- sort_by ix_leb ?l = _ =>
      change l with (map (fun r => Row (key r) (as_series (dat r))) R1)
  end.
  replace (map (fun r => Row (key r) (as_series (dat r))) R1) with R1.
  2:{ rewrite <- (map_id R1) at 1. apply map_ext_in. intros r Hr.
      apply list_elem_of_In in Hr. rewrite (Hkey r Hr).
      rewrite HR1 in Hr. eapply Forall_forall in Hseries; [| exact Hr].
      rewrite Hseries. by destruct r. }
  assert (StronglySorted (fun r1 r2 => ix_leb r1 r2 = true) R1) as Hs1.
  { subst R1. apply (sort_by_sorted ix_leb).
    - intros a b. apply lex_leb_total.
    - intros a b c. apply lex_leb_trans. }
  rewrite (sort_by_of_sorted ix_leb
             (fun a b => lex_leb_total (ix a) (ix b)) R1 Hs1).
  apply (sorted_rows_unique (rows T)); try done.
  - apply sort_by_Permutation.
  - apply (sort_by_sorted ix_leb).
    + intros a b. apply lex_leb_total.
    + intros a b c. apply lex_leb_trans.
Qed.

Lemma merge_undoes_cut_witness :
  ∃ T1 T2 m,
    cut_segments two_segments (1, 0) false = Ok (two_segments, RetNew T1)
    ∧ m + 1 ∈ map label_of (rows T1)
    ∧ (∀ r, r ∈ rows two_segments → label_of r ≤ m)
    ∧ merge_segments T1 [0; m + 1] false = Ok (T1, RetNew T2)
    ∧ index_names T2 = index_names two_segments
    ∧ columns T2 = columns two_segments
    ∧ rows T2 = sort_by ix_leb (rows two_segments).
Proof.
  apply (merge_undoes_cut two_segments 1 0).
  - reflexivity.
  - reflexivity.
  - reflexivity.
  - reflexivity.
  - apply (bool_decide_unpack _). by vm_compute.
  - repeat constructor.
  - exists (spot 2 0). split; [| split; [reflexivity | reflexivity]].
    unfold two_segments. cbn [rows]. do 2 right. left.
Defined.
